(** * Grok video plugin: extraction, stream reading, retry, rate limiting

    A shallow embedding of [src/main.py] (class [GrokVideoPlugin]) and the
    properties of its specification.

    Conventions of the embedding.
    - A Python [str] is a list of Unicode code points ([pystr]); literals
      are written [L "..."] and decoded from UTF-8.
    - A Python [dict] keyed by identifiers is a [gmap]; the decoded JSON
      frames are values of [json], with objects as association lists.
    - Code that can raise runs in the error monad [res]; [try/except]
      blocks are written out as matches on [Raise].
    - [time.time()] is an integer argument [now] (clock ticks); the
      rounding of floating-point timestamps is not modelled.
    - The network is an environment: what the upstream does on the n-th
      attempt is a value of [attempt_outcome]. *)

From Stdlib Require Import ZArith NArith QArith List String Ascii Lia Bool.
From stdpp Require Import base option list gmap sets strings pretty.

Set Warnings "-register-all".
Local Open Scope N_scope.

(* ===================================================================== *)
(** * 1. Python text                                                      *)
(* ===================================================================== *)

Abbreviation pystr := (list N).

Definition bytes_of (s : string) : list N :=
  map N_of_ascii (list_ascii_of_string s).

(** UTF-8 decoding, used only to write literals of the source. *)
Fixpoint utf8_decode (bs : list N) : list N :=
  match bs with
  | [] => []
  | b :: r =>
    if b <? 128 then b :: utf8_decode r
    else if b <? 224 then
      match r with
      | b1 :: r1 => ((b mod 32) * 64 + b1 mod 64) :: utf8_decode r1
      | [] => []
      end
    else if b <? 240 then
      match r with
      | b1 :: b2 :: r2 =>
        ((b mod 16) * 4096 + (b1 mod 64) * 64 + b2 mod 64) :: utf8_decode r2
      | _ => []
      end
    else
      match r with
      | b1 :: b2 :: b3 :: r3 =>
        ((b mod 8) * 262144 + (b1 mod 64) * 4096 + (b2 mod 64) * 64 + b3 mod 64)
          :: utf8_decode r3
      | _ => []
      end
  end.

Definition L (s : string) : pystr := utf8_decode (bytes_of s).
Arguments L : simpl never.

Definition str_eqb (a b : pystr) : bool := bool_decide (a = b).

(** [s.startswith(p)] *)
Fixpoint startswith (p s : pystr) : bool :=
  match p, s with
  | [], _ => true
  | a :: p', b :: s' => (a =? b) && startswith p' s'
  | _ :: _, [] => false
  end.

(** [s.endswith(p)] *)
Definition endswith (p s : pystr) : bool := startswith (rev p) (rev s).

(** [p in s] for two strings *)
Fixpoint contains (p s : pystr) : bool :=
  startswith p s ||
  match s with
  | [] => false
  | _ :: s' => contains p s'
  end.

(** [c in s] for a single character *)
Definition char_in (c : N) (s : pystr) : bool := existsb (N.eqb c) s.

(** [str.isspace] on one code point, which is also [\s] of a Unicode
    pattern. *)
Definition is_space (c : N) : bool :=
  ((9 <=? c) && (c <=? 13)) || ((28 <=? c) && (c <=? 32)) ||
  (c =? 133) || (c =? 160) || (c =? 5760) ||
  ((8192 <=? c) && (c <=? 8202)) || (c =? 8232) || (c =? 8233) ||
  (c =? 8239) || (c =? 8287) || (c =? 12288).

Fixpoint lstrip (s : pystr) : pystr :=
  match s with
  | c :: s' => if is_space c then lstrip s' else s
  | [] => []
  end.

Definition rstrip (s : pystr) : pystr := rev (lstrip (rev s)).

(** [s.strip()] *)
Definition strip (s : pystr) : pystr := rstrip (lstrip s).

(** [str.lower] on one code point.  Only the ASCII and Latin-1 capitals
    are mapped: the source uses [lower] to look for [".mp4"], and no
    other code point lower-cases to one of its characters. *)
Definition lower_char (c : N) : N :=
  if (65 <=? c) && (c <=? 90) then c + 32
  else if (192 <=? c) && (c <=? 222) && negb (c =? 215) then c + 32
  else c.

Definition lower (s : pystr) : pystr := map lower_char s.

(** [s.split(sep, 1)[1]]: what follows the first occurrence of [sep];
    [None] when [sep] does not occur (the index is then out of range). *)
Fixpoint split1_after (sep s : pystr) : option pystr :=
  if startswith sep s then Some (drop (length sep) s)
  else match s with
       | [] => None
       | _ :: s' => split1_after sep s'
       end.

(** [str(n)] for an integer *)
Definition str_of_Z (z : Z) : pystr := bytes_of (pretty z).
Arguments str_of_Z : simpl never.

(** Python truthiness of an [Optional[str]] *)
Definition truthy (o : option pystr) : bool :=
  match o with
  | Some (_ :: _) => true
  | _ => false
  end.

(* ===================================================================== *)
(** * 2. Regular expressions: the fragment of [re] the source uses        *)
(* ===================================================================== *)

(** A backtracking matcher with Python's priorities: repetitions are
    greedy, an optional part is tried before it is skipped, and the
    first successful path wins.  Repetition applies to character classes
    only, as in every pattern of the source; one capture group. *)
Inductive regex : Type :=
| REps
| RChr (p : N -> bool)
| RSeq (r1 r2 : regex)
| RStar (p : N -> bool)
| RPlus (p : N -> bool)
| ROpt (r : regex)
| RGroup (r : regex).

Fixpoint star_k {A} (p : N -> bool) (k : pystr -> option A) (s : pystr)
  : option A :=
  match s with
  | c :: s' =>
    if p c then
      match star_k p k s' with
      | Some x => Some x
      | None => k s
      end
    else k s
  | [] => k []
  end.

Fixpoint rmatch {A} (r : regex) (s : pystr) (g : option pystr)
  (k : pystr -> option pystr -> option A) : option A :=
  match r with
  | REps => k s g
  | RChr p =>
    match s with
    | c :: s' => if p c then k s' g else None
    | [] => None
    end
  | RSeq r1 r2 => rmatch r1 s g (fun s1 g1 => rmatch r2 s1 g1 k)
  | RStar p => star_k p (fun s' => k s' g) s
  | RPlus p =>
    match s with
    | c :: s' => if p c then star_k p (fun s2 => k s2 g) s' else None
    | [] => None
    end
  | ROpt r1 =>
    match rmatch r1 s g k with
    | Some x => Some x
    | None => k s g
    end
  | RGroup r1 =>
    rmatch r1 s g
      (fun s' _ => k s' (Some (take (length s - length s')%nat s)))
  end.

(** A match anchored at the start of [s]: the rest of the text after the
    match, and group 1. *)
Definition match_at (r : regex) (s : pystr) : option (pystr * option pystr) :=
  rmatch r s None (fun s' g => Some (s', g)).

(** [re.search(r, s)]: the leftmost match. *)
Fixpoint re_search (r : regex) (s : pystr) : option (pystr * option pystr) :=
  match match_at r s with
  | Some m => Some m
  | None =>
    match s with
    | [] => None
    | _ :: s' => re_search r s'
    end
  end.

(** [match.group(1)] of [re.search(r, s)] *)
Definition search_group (r : regex) (s : pystr) : option (option pystr) :=
  option_map snd (re_search r s).

(** [re.findall(r, s)] for a pattern with one group: group 1 of every
    match, left to right, the matches not overlapping.  [skip] counts the
    characters of the previous match still to be passed. *)
Fixpoint re_findall_from (r : regex) (s : pystr) (skip : nat) : list pystr :=
  match s with
  | [] =>
    match skip, match_at r [] with
    | O, Some (_, g) => [default [] g]
    | _, _ => []
    end
  | _ :: s' =>
    match skip with
    | S n => re_findall_from r s' n
    | O =>
      match match_at r s with
      | Some (rest, g) =>
        default [] g :: re_findall_from r s' (length s - length rest - 1)%nat
      | None => re_findall_from r s' 0%nat
      end
    end
  end.

Definition re_findall (r : regex) (s : pystr) : list pystr :=
  re_findall_from r s 0%nat.

(** The lower-casing the [re] engine applies under [re.IGNORECASE], on the
    code points that reach an ASCII letter. *)
Definition sre_lower (c : N) : N :=
  if (65 <=? c) && (c <=? 90) then c + 32
  else if c =? 304 then 105
  else if c =? 8490 then 107
  else c.

(** A literal pattern character under [re.IGNORECASE]: the text character
    matches when it lower-cases to the pattern character or is one of
    its listed equivalents (dotless i for [i], long s for [s]). *)
Definition lit_ci (c x : N) : bool :=
  (sre_lower x =? c) || ((c =? 105) && (x =? 305)) || ((c =? 115) && (x =? 383)).

(** A negated class [[^...]] of characters without case, with or without
    [\s] inside. *)
Definition none_of (cs : pystr) (x : N) : bool := negb (char_in x cs).
Definition none_of_s (cs : pystr) (x : N) : bool :=
  negb (is_space x) && negb (char_in x cs).
Definition one_of (cs : pystr) (x : N) : bool := char_in x cs.

Fixpoint rlit (cs : pystr) : regex :=
  match cs with
  | [] => REps
  | c :: cs' => RSeq (RChr (lit_ci c)) (rlit cs')
  end.

Fixpoint rseq (rs : list regex) : regex :=
  match rs with
  | [] => REps
  | r :: rs' => RSeq r (rseq rs')
  end.

(* ===================================================================== *)
(** * 3. Extractor: validation gate and the text strategies               *)
(* ===================================================================== *)

Definition quote_chars : pystr := [34; 39].           (* double, single quote *)
Definition tag_url_stop : pystr := [34; 39; 62].      (* quotes and > *)
Definition bare_url_stop : pystr := [60; 62; 34; 39; 41; 93; 125].
Definition invalid_chars : pystr := [60; 62; 34; 39; 10; 13; 9].

(** [_is_valid_video_url] *)
Definition _is_valid_video_url (url : pystr) : bool :=
  if (length url <? 10)%nat then false
  else if negb (startswith (L "http://") url || startswith (L "https://") url)
  then false
  else if negb (endswith (L ".mp4") (lower url))
          && negb (contains (L ".mp4") (lower url))
  then false
  else if existsb (fun c => char_in c url) invalid_chars then false
  else true.

(** The gate on the value of [match.group(1)], which is [None] when the
    group took no part in the match ([isinstance(url, str)] fails). *)
Definition valid_group (g : option pystr) : option pystr :=
  match g with
  | Some url => if _is_valid_video_url url then Some url else None
  | None => None
  end.

(** The patterns of the source, compiled with [re.IGNORECASE].  In the
    comments [Q] stands for the two quote characters, double and single,
    and the parts of a pattern are set apart by spaces.

    [<video [^>]* src= [Q] ( [^Q>]+ ) [Q] [^>]* >] *)
Definition pat_video_tag : regex :=
  rseq [ rlit (L "<video"); RStar (none_of [62]); rlit (L "src=");
         RChr (one_of quote_chars);
         RGroup (RPlus (none_of tag_url_stop));
         RChr (one_of quote_chars);
         RStar (none_of [62]); rlit (L ">") ].

(** [src= [Q] ( [^Q>]+ \.mp4 [^Q>]* ) [Q]] *)
Definition pat_src_attr : regex :=
  rseq [ rlit (L "src="); RChr (one_of quote_chars);
         RGroup (rseq [ RPlus (none_of tag_url_stop); rlit (L ".mp4");
                        RStar (none_of tag_url_stop) ]);
         RChr (one_of quote_chars) ].

(** [( https? :// [^\s<>Q)\]\}]+ \.mp4 (?: \? [^\s<>Q)\]\}]* )? )] *)
Definition pat_direct : regex :=
  RGroup (rseq [ rlit (L "http"); ROpt (rlit (L "s")); rlit (L "://");
                 RPlus (none_of_s bare_url_stop); rlit (L ".mp4");
                 ROpt (rseq [ rlit (L "?"); RStar (none_of_s bare_url_stop) ]) ]).

(** [!? \[ [^\]]* \] \( ( [^\)]+ \.mp4 [^\)]* ) \)] *)
Definition pat_md_inline : regex :=
  rseq [ ROpt (rlit (L "!")); rlit (L "["); RStar (none_of [93]);
         rlit (L "]"); rlit (L "(");
         RGroup (rseq [ RPlus (none_of [41]); rlit (L ".mp4");
                        RStar (none_of [41]) ]);
         rlit (L ")") ].

(** [!? \[ [^\]]* \] : \s* ( [^\s]+ \.mp4 [^\s]* )] *)
Definition pat_md_ref : regex :=
  rseq [ ROpt (rlit (L "!")); rlit (L "["); RStar (none_of [93]);
         rlit (L "]"); rlit (L ":"); RStar is_space;
         RGroup (rseq [ RPlus (none_of_s []); rlit (L ".mp4");
                        RStar (none_of_s []) ]) ].

(** The loop [for pattern in patterns: match = re.search(...)]: the first
    pattern whose leftmost match carries a URL that passes the gate. *)
Fixpoint first_pattern (pats : list regex) (content : pystr) : option pystr :=
  match pats with
  | [] => None
  | r :: pats' =>
    match re_search r content with
    | Some (_, g) =>
      match valid_group g with
      | Some url => Some url
      | None => first_pattern pats' content
      end
    | None => first_pattern pats' content
    end
  end.

(** [_extract_from_html_tag] *)
Definition _extract_from_html_tag (content : pystr) : option pystr :=
  if negb (contains (L "<video") content) || negb (contains (L "src=") content)
  then None
  else first_pattern [pat_video_tag; pat_src_attr] content.

(** [_extract_direct_url] *)
Definition _extract_direct_url (content : pystr) : option pystr :=
  find _is_valid_video_url (re_findall pat_direct content).

(** [_extract_from_markdown] *)
Definition _extract_from_markdown (content : pystr) : option pystr :=
  first_pattern [pat_md_inline; pat_md_ref] content.

(** [_try_content_extraction]; none of the three strategies raises, so the
    [except] branch of the source is never taken. *)
Definition _try_content_extraction (content : pystr) : option pystr :=
  let video_url := _extract_from_html_tag content in
  if truthy video_url then video_url
  else
    let video_url := _extract_direct_url content in
    if truthy video_url then video_url
    else
      let video_url := _extract_from_markdown content in
      if truthy video_url then video_url
      else None.

(* ===================================================================== *)
(** * 4. Exceptions and decoded JSON values                               *)
(* ===================================================================== *)

Inductive pyexn : Type :=
| TypeError | AttributeError | KeyError | IndexError.

Inductive res (A : Type) : Type :=
| Ok (a : A)
| Raise (e : pyexn).
Arguments Ok {A} a.
Arguments Raise {A} e.

Definition bind {A B} (m : res A) (f : A -> res B) : res B :=
  match m with
  | Ok a => f a
  | Raise e => Raise e
  end.

Notation "x <- m ;; k" := (bind m (fun x => k))
  (at level 100, m at next level, right associativity).

(** [try: ... except Exception: return None] around a computation of an
    optional value. *)
Definition catch_none {A} (m : res (option A)) : option A :=
  match m with
  | Ok r => r
  | Raise _ => None
  end.

(** What [json.loads] returns.  An object is the list of its items, keys
    distinct; numbers are kept as rationals. *)
Inductive json : Type :=
| JNull
| JBool (b : bool)
| JNum (q : Q)
| JStr (s : pystr)
| JArr (items : list json)
| JObj (fields : list (pystr * json)).

Fixpoint assoc (key : pystr) (fields : list (pystr * json)) : option json :=
  match fields with
  | [] => None
  | (k, v) :: rest => if str_eqb k key then Some v else assoc key rest
  end.

Definition is_str_item (key : pystr) (v : json) : bool :=
  match v with
  | JStr s => str_eqb s key
  | _ => false
  end.

(** [key in v] for a string [key] *)
Definition py_in (key : pystr) (v : json) : res bool :=
  match v with
  | JObj fields => Ok (bool_decide (is_Some (assoc key fields)))
  | JArr items => Ok (existsb (is_str_item key) items)
  | JStr s => Ok (contains key s)
  | _ => Raise TypeError
  end.

(** [v[key]] for a string [key] *)
Definition py_getitem (v : json) (key : pystr) : res json :=
  match v with
  | JObj fields =>
    match assoc key fields with
    | Some x => Ok x
    | None => Raise KeyError
    end
  | _ => Raise TypeError
  end.

(** [v[0]] *)
Definition py_index0 (v : json) : res json :=
  match v with
  | JArr (x :: _) => Ok x
  | JArr [] => Raise IndexError
  | JStr (c :: _) => Ok (JStr [c])
  | JStr [] => Raise IndexError
  | JObj _ => Raise KeyError
  | _ => Raise TypeError
  end.

(** [v.get(key, dflt)]; [v.get(key)] is [py_get v key JNull]. *)
Definition py_get (v : json) (key : pystr) (dflt : json) : res json :=
  match v with
  | JObj fields => Ok (default dflt (assoc key fields))
  | _ => Raise AttributeError
  end.

(** Truthiness of a decoded value *)
Definition py_bool (v : json) : bool :=
  match v with
  | JNull => false
  | JBool b => b
  | JNum q => negb (Z.eqb (Qnum q) 0)
  | JStr s => negb (bool_decide (s = []))
  | JArr l => negb (bool_decide (l = []))
  | JObj f => negb (bool_decide (f = []))
  end.

Definition is_dict (v : json) : bool :=
  match v with JObj _ => true | _ => false end.

(* ===================================================================== *)
(** * 5. Extractor: the structured strategy                               *)
(* ===================================================================== *)

(** The inner loop [for item in message[field]] *)
Fixpoint scan_items (items : list json) : option pystr :=
  match items with
  | [] => None
  | item :: rest =>
    match item with
    | JObj fields =>
      match assoc (L "url") fields with
      | Some (JStr url) =>
        if endswith (L ".mp4") url then Some url else scan_items rest
      | _ => scan_items rest
      end
    | _ => scan_items rest
    end
  end.

(** The loop [for field in ["attachments", "media", "files"]] *)
Fixpoint scan_fields (fields : list pystr) (message : json)
  : res (option pystr) :=
  match fields with
  | [] => Ok None
  | field :: rest =>
    present <- py_in field message ;;
    if present : bool then
      v <- py_getitem message field ;;
      match v with
      | JArr items =>
        match scan_items items with
        | Some url => Ok (Some url)
        | None => scan_fields rest message
        end
      | _ => scan_fields rest message
      end
    else scan_fields rest message
  end.

Definition structured_fields : list pystr :=
  [L "attachments"; L "media"; L "files"].

(** The body of the [try] in [_try_structured_extraction] *)
Definition structured_body (response_data : json) : res (option pystr) :=
  has_url <- py_in (L "video_url") response_data ;;
  direct <-
    (if has_url : bool then
       url <- py_getitem response_data (L "video_url") ;;
       Ok (match url with
           | JStr u =>
             if startswith (L "http://") u || startswith (L "https://") u
             then Some u else None
           | _ => None
           end)
     else Ok None) ;;
  match direct with
  | Some u => Ok (Some u)
  | None =>
    choices <- py_get response_data (L "choices") (JArr [JObj []]) ;;
    choice <- py_index0 choices ;;
    message <- py_get choice (L "message") (JObj []) ;;
    scan_fields structured_fields message
  end.

(** [_try_structured_extraction] *)
Definition _try_structured_extraction (response_data : json) : option pystr :=
  catch_none (structured_body response_data).

(* ===================================================================== *)
(** * 6. Messages                                                         *)
(* ===================================================================== *)

(** A configuration value as [config.get] hands it over. *)
Inductive pyval : Type :=
| PyNone
| PyBool (b : bool)
| PyInt (z : Z)
| PyStr (s : pystr).

(** [str(v)], as an f-string renders it *)
Definition str_of_pyval (v : pyval) : pystr :=
  match v with
  | PyNone => L "None"
  | PyBool true => L "True"
  | PyBool false => L "False"
  | PyInt z => str_of_Z z
  | PyStr s => s
  end.

(** The error messages of the source, with their parameters. *)
Inductive error_msg : Type :=
| MsgNoApiKey
| MsgForbidden
| MsgHttpFailed (status : Z) (snippet : pystr)
| MsgNoUrl
| MsgTimeout (timeout : Z)
| MsgException (e : pystr)
| MsgAllRetriesFailed
| MsgNotWhitelisted
| MsgBlacklisted
| MsgRateLimited (max_calls window : pyval).

(** The text of each message. *)
Definition render (m : error_msg) : pystr :=
  match m with
  | MsgNoApiKey => L "未配置API密钥"
  | MsgForbidden => L "API访问被拒绝，请检查密钥和权限"
  | MsgHttpFailed status snippet =>
    L "API请求失败 (状态码: " ++ str_of_Z status ++ L "): " ++ snippet
  | MsgNoUrl => L "API响应中未包含有效的视频URL"
  | MsgTimeout t => L "请求超时 (" ++ str_of_Z t ++ L "秒)"
  | MsgException e => L "请求异常: " ++ e
  | MsgAllRetriesFailed => L "所有重试均失败"
  | MsgNotWhitelisted => L "当前群组未被授权使用视频生成功能"
  | MsgBlacklisted => L "当前群组已被限制使用视频生成功能"
  | MsgRateLimited m w =>
    L "本群调用已达上限（" ++ str_of_pyval m ++ L "次/" ++ str_of_pyval w
      ++ L "秒），请稍后再试"
  end.

(* ===================================================================== *)
(** * 7. StreamingClient: reading the event stream                        *)
(* ===================================================================== *)

Record config : Type := {
  api_key : pystr;
  timeout_seconds : Z;
  max_retry_attempts : Z;
  group_control_mode : pystr;
  group_list : list string;
  rate_limit_enabled : bool;
  rate_limit_window_seconds : pyval;
  rate_limit_max_calls : pyval
}.

(** The text a decoded frame contributes: the body of the [try] that
    looks at [choices[0].delta] or [choices[0].message]. *)
Definition text_of (holder : json) : res (option pystr) :=
  content <- py_get holder (L "content") JNull ;;
  Ok (match content with
      | JStr s => Some s
      | _ => None
      end).

Definition frame_text_body (chunk : json) : res (option pystr) :=
  choices <- py_get chunk (L "choices") JNull ;;
  if py_bool choices then
    choices' <- py_getitem chunk (L "choices") ;;
    c0 <- py_index0 choices' ;;
    has_delta <- py_in (L "delta") c0 ;;
    delta_is_dict <-
      (if has_delta : bool then
         d <- py_getitem c0 (L "delta") ;; Ok (is_dict d)
       else Ok false) ;;
    if delta_is_dict : bool then
      d <- py_getitem c0 (L "delta") ;; text_of d
    else
      has_message <- py_in (L "message") c0 ;;
      message_is_dict <-
        (if has_message : bool then
           m <- py_getitem c0 (L "message") ;; Ok (is_dict m)
         else Ok false) ;;
      if message_is_dict : bool then
        m <- py_getitem c0 (L "message") ;; text_of m
      else Ok None
  else Ok None.

(** [try: ... except Exception: pass]: a frame that raises adds nothing. *)
Definition frame_text (chunk : json) : option pystr :=
  catch_none (frame_text_body chunk).

(** [accumulated] is the list of the pieces; the text is their join. *)
Definition join (accumulated : list pystr) : pystr := concat accumulated.

Definition append_text (accumulated : list pystr) (piece : option pystr)
  : list pystr :=
  match piece with
  | Some s => accumulated ++ [s]
  | None => accumulated
  end.

Inductive line_result : Type :=
| Continue (accumulated : list pystr)
| Break (accumulated : list pystr)
| Found (url : pystr).

Section Stream.

(** [json.loads], the decoder of the standard library: [None] when it
    raises. *)
Variable json_loads : pystr -> option json.

(** One turn of [async for line in resp.aiter_lines()] *)
Definition read_line (accumulated : list pystr) (line : pystr) : line_result :=
  if bool_decide (line = []) then Continue accumulated
  else
    let line := strip line in
    if negb (startswith (L "data:") line) then Continue accumulated
    else
      let payload_str := strip (default [] (split1_after (L "data:") line)) in
      if str_eqb payload_str (L "[DONE]") then Break accumulated
      else
        match json_loads payload_str with
        | None => Continue accumulated
        | Some chunk =>
          let accumulated := append_text accumulated (frame_text chunk) in
          let content_joined := join accumulated in
          let url := _try_content_extraction content_joined in
          let url := if negb (truthy url)
                     then _try_structured_extraction chunk else url in
          if truthy url then Found (default [] url)
          else Continue accumulated
        end.

(** How the body of a response ends: the stream is exhausted, or the
    read raises. *)
Inductive stream_end : Type :=
| EndOfStream
| EndTimeout
| EndError (e : pystr).

Inductive attempt_result : Type :=
| Returned (url : option pystr) (err : option error_msg)
| TimedOut
| Failed (e : pystr).

(** The statements after the loop: one more extraction over the text. *)
Definition after_stream (accumulated : list pystr) : attempt_result :=
  let final_text := join accumulated in
  let url := _try_content_extraction final_text in
  if truthy url then Returned url None
  else Returned None (Some MsgNoUrl).

Fixpoint read_stream (accumulated : list pystr) (lines : list pystr)
  (fin : stream_end) : attempt_result :=
  match lines with
  | [] =>
    match fin with
    | EndOfStream => after_stream accumulated
    | EndTimeout => TimedOut
    | EndError e => Failed e
    end
  | line :: rest =>
    match read_line accumulated line with
    | Continue acc => read_stream acc rest fin
    | Break acc => after_stream acc
    | Found url => Returned (Some url) None
    end
  end.

(** Reading the body of an error response, [await resp.aread()], and
    decoding it. *)
Inductive body_read : Type :=
| BodyOk (text : pystr)
| BodyTimeout
| BodyError (e : pystr).

(** What the upstream does on one attempt. *)
Inductive attempt_outcome : Type :=
| ConnectTimeout
| ConnectError (e : pystr)
| Response (status : Z) (body : body_read) (lines : list pystr)
    (fin : stream_end).

(** The body of the [try] of one attempt *)
Definition run_attempt (o : attempt_outcome) : attempt_result :=
  match o with
  | ConnectTimeout => TimedOut
  | ConnectError e => Failed e
  | Response status body lines fin =>
    if (status =? 403)%Z then Returned None (Some MsgForbidden)
    else if negb (status =? 200)%Z then
      match body with
      | BodyOk text =>
        let snippet := take 400 text in
        Returned None (Some (MsgHttpFailed status snippet))
      | BodyTimeout => TimedOut
      | BodyError e => Failed e
      end
    else read_stream [] lines fin
  end.

(* =================================================================== *)
(** * 8. RetryOrchestrator: the loop of [_call_grok_api]                  *)
(* =================================================================== *)

Inductive event_log : Type :=
| EvAttempt (attempt : nat)
| EvSleep (seconds : Z).

Variable cfg : config.

(** The upstream's behaviour, attempt by attempt. *)
Variable upstream : nat -> attempt_outcome.

(** [for attempt in range(self.max_retry_attempts)], with [todo] the
    attempts left.  The result comes with the log of attempts and
    sleeps. *)
Fixpoint retry_loop (todo : nat) (attempt : nat)
  : (option pystr * option error_msg) * list event_log :=
  match todo with
  | O => ((None, Some MsgAllRetriesFailed), [])
  | S todo' =>
    match run_attempt (upstream attempt) with
    | Returned url err => ((url, err), [EvAttempt attempt])
    | TimedOut =>
      let err := MsgTimeout (timeout_seconds cfg) in
      if (Z.of_nat attempt =? max_retry_attempts cfg - 1)%Z
      then ((None, Some err), [EvAttempt attempt])
      else
        let '(r, log) := retry_loop todo' (S attempt) in
        (r, EvAttempt attempt :: EvSleep 1 :: log)
    | Failed e =>
      let err := MsgException e in
      if (Z.of_nat attempt =? max_retry_attempts cfg - 1)%Z
      then ((None, Some err), [EvAttempt attempt])
      else
        let '(r, log) := retry_loop todo' (S attempt) in
        (r, EvAttempt attempt :: EvSleep 1 :: log)
    end
  end.

(** [_call_grok_api] *)
Definition _call_grok_api
  : (option pystr * option error_msg) * list event_log :=
  if bool_decide (api_key cfg = []) then ((None, Some MsgNoApiKey), [])
  else retry_loop (Z.to_nat (max_retry_attempts cfg)) 0%nat.

End Stream.

(** [_extract_video_url_from_response], the path for a whole response
    object: it tries the structured fields first and the text after. *)
Inductive extract_error : Type :=
| ErrNotDict
| ErrNoChoices
| ErrNoMessage
| ErrNoContent
| ErrContentNotStr
| ErrNoVideoUrl
| ErrException (e : pyexn).

Definition response_body (response_data : json)
  : res (option pystr * option extract_error) :=
  if negb (is_dict response_data) then Ok (None, Some ErrNotDict)
  else
    has_choices <- py_in (L "choices") response_data ;;
    choices_ok <-
      (if has_choices : bool then
         c <- py_getitem response_data (L "choices") ;; Ok (py_bool c)
       else Ok false) ;;
    if negb choices_ok then Ok (None, Some ErrNoChoices)
    else
      choices <- py_getitem response_data (L "choices") ;;
      choice <- py_index0 choices ;;
      has_message <-
        (if is_dict choice then py_in (L "message") choice else Ok false) ;;
      if negb has_message then Ok (None, Some ErrNoMessage)
      else
        message <- py_getitem choice (L "message") ;;
        has_content <-
          (if is_dict message then py_in (L "content") message else Ok false) ;;
        if negb has_content then Ok (None, Some ErrNoContent)
        else
          content <- py_getitem message (L "content") ;;
          match content with
          | JStr content =>
            let video_url := _try_structured_extraction response_data in
            if truthy video_url then Ok (video_url, None)
            else
              let video_url := _try_content_extraction content in
              if truthy video_url then Ok (video_url, None)
              else Ok (None, Some ErrNoVideoUrl)
          | _ => Ok (None, Some ErrContentNotStr)
          end.

Definition _extract_video_url_from_response (response_data : json)
  : option pystr * option extract_error :=
  match response_body response_data with
  | Ok r => r
  | Raise e => (None, Some (ErrException e))
  end.

(* ===================================================================== *)
(** * 9. RateLimiter and SingleFlightGuard                                *)
(* ===================================================================== *)

Local Open Scope Z_scope.

(** One entry of [_rate_limit_bucket] *)
Record bucket : Type := {
  window_start : Z;
  count : Z
}.

(** The three dictionaries of the plugin.  A lock carries no data: the
    table of locks is the set of the groups that have one. *)
Record state : Type := {
  _rate_limit_bucket : gmap string bucket;
  _rate_limit_locks : gset string;
  _processing_tasks : gmap string string
}.

Definition initial_state : state :=
  {| _rate_limit_bucket := ∅; _rate_limit_locks := ∅; _processing_tasks := ∅ |}.

Definition set_bucket (st : state) (g : string) (b : bucket) : state :=
  {| _rate_limit_bucket := <[g := b]> (_rate_limit_bucket st);
     _rate_limit_locks := _rate_limit_locks st;
     _processing_tasks := _processing_tasks st |}.

Definition add_lock (st : state) (g : string) : state :=
  {| _rate_limit_bucket := _rate_limit_bucket st;
     _rate_limit_locks := {[ g ]} ∪ _rate_limit_locks st;
     _processing_tasks := _processing_tasks st |}.

Definition set_tasks (st : state) (t : gmap string string) : state :=
  {| _rate_limit_bucket := _rate_limit_bucket st;
     _rate_limit_locks := _rate_limit_locks st;
     _processing_tasks := t |}.

(** [if group_id not in self._rate_limit_locks: ... = asyncio.Lock()] *)
Definition ensure_lock (st : state) (g : string) : state :=
  if bool_decide (g ∈ _rate_limit_locks st) then st else add_lock st g.

(** [x >= v] for a number [x] and a configuration value [v]: a number or
    a boolean compares, anything else raises [TypeError]. *)
Definition num_ge (x : Z) (v : pyval) : res bool :=
  match v with
  | PyInt z => Ok (z <=? x)
  | PyBool b => Ok (Z.b2z b <=? x)
  | PyNone | PyStr _ => Raise TypeError
  end.

(** The critical section under the lock of the group: read, reset, check,
    commit.  It holds no suspension point, so it runs as one step. *)
Definition rate_limit_section (cfg : config) (g : string) (now : Z) (st : state)
  : state * res (option error_msg) :=
  let st := ensure_lock st g in
  let b := default {| window_start := now; count := 0 |}
                   (_rate_limit_bucket st !! g) in
  match num_ge (now - window_start b) (rate_limit_window_seconds cfg) with
  | Raise e => (st, Raise e)
  | Ok expired =>
    let '(window_start, count) :=
      if expired : bool then (now, 0) else (window_start b, count b) in
    match num_ge count (rate_limit_max_calls cfg) with
    | Raise e => (st, Raise e)
    | Ok true =>
      (st, Ok (Some (MsgRateLimited (rate_limit_max_calls cfg)
                                    (rate_limit_window_seconds cfg))))
    | Ok false =>
      (set_bucket st g {| window_start := window_start; count := count + 1 |},
       Ok None)
    end
  end.

(** The two tests on the list of groups: does the configured mode turn
    the group away? *)
Definition list_rejects (cfg : config) (g : string) : option error_msg :=
  if str_eqb (group_control_mode cfg) (L "whitelist")
     && negb (bool_decide (g ∈ group_list cfg))
  then Some MsgNotWhitelisted
  else if str_eqb (group_control_mode cfg) (L "blacklist")
          && bool_decide (g ∈ group_list cfg)
  then Some MsgBlacklisted
  else None.

(** The body of the outer [try] of [_check_group_access].  [group_id] is
    what [event.get_group_id()] gave, [None] also when it raised. *)
Definition check_body (cfg : config) (group_id : option string) (now : Z)
  (st : state) : state * res (option error_msg) :=
  match group_id with
  | Some g =>
    if bool_decide (g = EmptyString) then (st, Ok None)
    else
      match list_rejects cfg g with
      | Some m => (st, Ok (Some m))
      | None =>
        if rate_limit_enabled cfg then rate_limit_section cfg g now st
        else (st, Ok None)
      end
  | None => (st, Ok None)
  end.

(** [_check_group_access]: an exception in the body is logged and the
    check answers [None]. *)
Definition _check_group_access (cfg : config) (group_id : option string)
  (now : Z) (st : state) : state * option error_msg :=
  let '(st', r) := check_body cfg group_id now st in
  (st', catch_none r).

(** The [finally] block of [_async_generate_video] *)
Definition finish_task (user_id task_id : string) (st : state) : state :=
  match _processing_tasks st !! user_id with
  | Some t =>
    if bool_decide (t = task_id)
    then set_tasks st (delete user_id (_processing_tasks st))
    else st
  | None => st
  end.

(** What [cmd_generate_video] needs of the event. *)
Record event : Type := {
  sender_id : string;
  group_id : option string;
  images : list pystr
}.

Inductive reply : Type :=
| ReplyAccess (m : error_msg)
| ReplyBusy
| ReplyNeedImage
| ReplyAccepted.

(** [cmd_generate_video], run from its first line to its last with no
    other handler or task in between: the image extraction returns
    [images ev] and the generator is resumed at once.  It gives the reply,
    the background task it starts, if any, as the pair (user, task
    identifier), and the new state.  [task_id] is the fresh identifier
    [str(uuid.uuid4())[:8]].  The command between its suspension points,
    where other handlers can run, is [cmd_checks], [cmd_after_images] and
    [cmd_after_yield] of section 13. *)
Definition cmd_generate_video (cfg : config) (ev : event) (now : Z)
  (task_id : string) (st : state) : reply * option (string * string) * state :=
  let '(st, access_error) := _check_group_access cfg (group_id ev) now st in
  match access_error with
  | Some m => (ReplyAccess m, None, st)
  | None =>
    let user_id := sender_id ev in
    if bool_decide (is_Some (_processing_tasks st !! user_id))
    then (ReplyBusy, None, st)
    else if bool_decide (images ev = [])
    then (ReplyNeedImage, None, st)
    else
      (ReplyAccepted, Some (user_id, task_id),
       set_tasks st (<[user_id := task_id]> (_processing_tasks st)))
  end.






(** A run of access checks of one group, at the given times. *)
Fixpoint check_seq (cfg : config) (g : string) (times : list Z) (st : state)
  : list (option error_msg) * state :=
  match times with
  | [] => ([], st)
  | t :: ts =>
    let '(st1, r) := _check_group_access cfg (Some g) t st in
    let '(rs, st2) := check_seq cfg g ts st1 in
    (r :: rs, st2)
  end.


(** A decoder given by its table, for the examples: the payloads listed
    decode to the values beside them, every other payload fails. *)
Definition json_loads_of (table : list (pystr * json)) (payload : pystr)
  : option json :=
  assoc payload table.

(** The window a check works with: the stored one, or a fresh one when
    there is none or the stored one is [W] old. *)
Definition window_at (g : string) (W : Z) (now : Z) (st : state) : bucket :=
  let b := default {| window_start := now; count := 0 |}
                   (_rate_limit_bucket st !! g) in
  if W <=? now - window_start b
  then {| window_start := now; count := 0 |} else b.


(** Data for the examples. *)
Definition example_config : config :=
  {| api_key := L "key";
     timeout_seconds := 180;
     max_retry_attempts := 3;
     group_control_mode := L "off";
     group_list := [];
     rate_limit_enabled := true;
     rate_limit_window_seconds := PyInt 60;
     rate_limit_max_calls := PyInt 2 |}.

(** The same, with the window given as text: a value that does not
    compare with a number. *)
Definition misconfigured : config :=
  {| api_key := L "key";
     timeout_seconds := 180;
     max_retry_attempts := 3;
     group_control_mode := L "off";
     group_list := [];
     rate_limit_enabled := true;
     rate_limit_window_seconds := PyStr (L "3600");
     rate_limit_max_calls := PyInt 2 |}.

Definition example_event : event :=
  {| sender_id := "u1"; group_id := Some "g1"; images := [L "data:image/png;base64,AA=="] |}.

Definition event_without_image : event :=
  {| sender_id := "u1"; group_id := Some "g1"; images := [] |}.

(** An attempt that raised, as opposed to one that returned. *)
Definition is_failure (r : attempt_result) : bool :=
  match r with
  | Returned _ _ => false
  | TimedOut | Failed _ => true
  end.

(** The log of [k] failed attempts from attempt [start] on, each followed
    by its one-second sleep. *)
Fixpoint failed_log (start k : nat) : list event_log :=
  match k with
  | O => []
  | S k' => EvAttempt start :: EvSleep 1 :: failed_log (S start) k'
  end.

Definition is_sleep (e : event_log) : bool :=
  match e with
  | EvSleep _ => true
  | EvAttempt _ => false
  end.

Definition sleeps (log : list event_log) : nat :=
  length (List.filter is_sleep log).

(** JSON text for the examples, written with a backquote for each double
    quote. *)
Definition jq (s : string) : pystr :=
  map (λ c, if (c =? 96)%N then 34%N else c) (L s).
Arguments jq : simpl never.

Definition url_a : pystr := L "https://a.example/s.mp4".
Definition url_b : pystr := L "https://b.example/t.mp4".

(** A frame with a structured URL and, in its text, another one. *)
Definition payload_both : pystr :=
  jq "{`video_url`: `https://a.example/s.mp4`, `choices`: [{`delta`: {`content`: `https://b.example/t.mp4`}}]}".

Definition frame_both : json :=
  JObj [ (L "video_url", JStr url_a);
         (L "choices",
          JArr [JObj [(L "delta", JObj [(L "content", JStr url_b)])]]) ].

(** A frame with a structured URL only. *)
Definition payload_structured : pystr :=
  jq "{`video_url`: `https://a.example/s.mp4`}".

Definition frame_structured : json :=
  JObj [ (L "video_url", JStr url_a) ].

(** The frame of the scenario of the specification: a video tag in the
    text of the delta. *)
Definition payload_tag : pystr :=
  jq "{`choices`:[{`delta`:{`content`:`<video src=\`https://cdn.example/x.mp4\`></video>`}}]}".

Definition frame_tag : json :=
  JObj [ (L "choices",
          JArr [JObj [(L "delta",
                       JObj [(L "content",
                              JStr (jq "<video src=`https://cdn.example/x.mp4`></video>"))])]]) ].

(** Two frames whose structured URLs do not pass the validation gate: one
    too short and without the extension, one without a scheme. *)
Definition payload_short : pystr := jq "{`video_url`: `http://x`}".

Definition frame_short : json := JObj [ (L "video_url", JStr (L "http://x")) ].

Definition payload_attachment : pystr :=
  jq "{`choices`: [{`message`: {`attachments`: [{`url`: `x.mp4`}]}}]}".

Definition frame_attachment : json :=
  JObj [ (L "choices",
          JArr [JObj [(L "message",
                       JObj [(L "attachments",
                              JArr [JObj [(L "url", JStr (L "x.mp4"))]])])]]) ].

Definition example_loads : pystr -> option json :=
  json_loads_of [ (payload_both, frame_both);
                  (payload_structured, frame_structured);
                  (payload_tag, frame_tag);
                  (payload_short, frame_short);
                  (payload_attachment, frame_attachment) ].

(** An upstream that answers 500 first and would serve the video next. *)
Definition upstream_500_then_ok (attempt : nat) : attempt_outcome :=
  match attempt with
  | O => Response 500 (BodyOk (L "internal error")) [] EndOfStream
  | _ => Response 200 (BodyOk [])
           [L "data: " ++ payload_structured; L "data: [DONE]"] EndOfStream
  end.

(** An upstream that never answers in time. *)
Definition upstream_timeouts (attempt : nat) : attempt_outcome :=
  ConnectTimeout.

(** An upstream that times out once and serves the video next. *)
Definition upstream_timeout_then_ok (attempt : nat) : attempt_outcome :=
  match attempt with
  | O => ConnectTimeout
  | _ => Response 200 (BodyOk [])
           [L "data: " ++ payload_tag; L "data: [DONE]"] EndOfStream
  end.

(** The response object with the same two URLs, as the path for whole
    responses takes it: the text under [message.content]. *)
Definition response_both : json :=
  JObj [ (L "video_url", JStr url_a);
         (L "choices",
          JArr [JObj [(L "message", JObj [(L "content", JStr url_b)])]]) ].

(** The three kinds of lines the reader tells apart. *)
Definition is_frame_line (line : pystr) : bool :=
  startswith (L "data:") (strip line).

Definition payload_of (line : pystr) : pystr :=
  strip (default [] (split1_after (L "data:") (strip line))).

Definition is_done_line (line : pystr) : bool :=
  is_frame_line line && str_eqb (payload_of line) (L "[DONE]").

(** A line without the marker, or a frame whose payload does not decode. *)
Definition is_skipped_line (json_loads : pystr -> option json) (line : pystr)
  : bool :=
  negb (is_frame_line line)
  || (negb (str_eqb (payload_of line) (L "[DONE]"))
      && bool_decide (json_loads (payload_of line) = None)).

(** The validation gate, condition by condition. *)
Definition passes_gate (url : pystr) : Prop :=
  (10 ≤ length url)%nat ∧
  (startswith (L "http://") url = true ∨ startswith (L "https://") url = true) ∧
  contains (L ".mp4") (lower url) = true ∧
  ∀ c, c ∈ invalid_chars → c ∉ url.

(** The checks of the structured strategy. *)
Definition passes_structured_check (url : pystr) : Prop :=
  startswith (L "http://") url = true ∨ startswith (L "https://") url = true ∨
  endswith (L ".mp4") url = true.

(** What a pattern matches, said without the matcher: [den r m g g'] when
    [r] matches the text [m], taking group 1 from [g] to [g']. *)
Inductive den : regex -> pystr -> option pystr -> option pystr -> Prop :=
| den_eps g : den REps [] g g
| den_chr p c g : p c = true -> den (RChr p) [c] g g
| den_seq r1 r2 m1 m2 g g1 g2 :
    den r1 m1 g g1 -> den r2 m2 g1 g2 -> den (RSeq r1 r2) (m1 ++ m2) g g2
| den_star p m g : forallb p m = true -> den (RStar p) m g g
| den_plus p c m g :
    p c = true -> forallb p m = true -> den (RPlus p) (c :: m) g g
| den_opt_in r m g g' : den r m g g' -> den (ROpt r) m g g'
| den_opt_out r g : den (ROpt r) [] g g
| den_group r m g g' : den r m g g' -> den (RGroup r) m g (Some m).

(** A word of the pattern in any letter case. *)
Definition ci_word (w s : pystr) : Prop :=
  Forall2 (λ c x, lit_ci c x = true) w s.

(** A video tag with a quoted [src], as the first pattern takes it: the
    tag name and the attribute name in any letter case, no [>] before the
    closing one, the URL free of quotes and [>]. *)
Definition video_tag_shape (m url : pystr) : Prop :=
  ∃ tag a kw q1 q2 b,
    m = tag ++ a ++ kw ++ [q1] ++ url ++ [q2] ++ b ++ L ">" ∧
    ci_word (L "<video") tag ∧
    forallb (none_of [62%N]) a = true ∧
    ci_word (L "src=") kw ∧
    one_of quote_chars q1 = true ∧
    one_of quote_chars q2 = true ∧
    url ≠ [] ∧
    forallb (none_of tag_url_stop) url = true ∧
    forallb (none_of [62%N]) b = true.

(** A quoted [src] attribute whose value holds [.mp4], as the second
    pattern takes it. *)
Definition src_attr_shape (m url : pystr) : Prop :=
  ∃ kw q1 q2 u1 ext u2,
    m = kw ++ [q1] ++ url ++ [q2] ∧
    url = u1 ++ ext ++ u2 ∧
    ci_word (L "src=") kw ∧
    one_of quote_chars q1 = true ∧
    one_of quote_chars q2 = true ∧
    u1 ≠ [] ∧
    forallb (none_of tag_url_stop) u1 = true ∧
    ci_word (L ".mp4") ext ∧
    forallb (none_of tag_url_stop) u2 = true.

(** [valid_group] after [search_group]: the URL of the leftmost match of
    a pattern, when it passes the gate. *)
Definition leftmost_valid (r : regex) (content : pystr) : option pystr :=
  match search_group r content with
  | Some g => valid_group g
  | None => None
  end.

(* ===================================================================== *)
(** * 10. Unloading the plugin                                            *)
(* ===================================================================== *)

(** [terminate]: [self._rate_limit_locks.clear()].  The windows and the
    in-flight table are left as they are. *)
Definition terminate (st : state) : state :=
  {| _rate_limit_bucket := _rate_limit_bucket st;
     _rate_limit_locks := ∅;
     _processing_tasks := _processing_tasks st |}.

(* ===================================================================== *)
(** * 11. The image of a message                                          *)
(* ===================================================================== *)

(** Code that may raise an exception the caller reports: [text] is
    [str(e)], and [is_timeout] tells whether [e] is an
    [asyncio.TimeoutError]. *)
Inductive outcome (A : Type) : Type :=
| Done (a : A)
| Raised (is_timeout : bool) (text : pystr).
Arguments Done {A} a.
Arguments Raised {A} is_timeout text.

(** The segments of a message chain: an [Image] with its [url] and [file]
    attributes, a [Reply] with the chain of the quoted message (empty when
    the attribute is missing or [None]), or any other component. *)
Inductive segment : Type :=
| Image (url file : option pystr)
| Reply (chain : list segment)
| OtherSegment.

(** The world [_load_bytes] reads from: the file system, the network, and
    the decoder [base64.b64decode] of the standard library. *)
Record media_env : Type := {
  is_file : pystr -> outcome bool;         (* [Path(src).is_file()] *)
  read_file : pystr -> option (list N);    (* [None]: the read raised *)
  http_get : pystr -> option (Z * list N); (* status and content; [None]: raised *)
  b64decode : pystr -> outcome (list N)
}.

Definition b64_alphabet : pystr :=
  L "ABCDEFGHIJKLMNOPQRSTUVWXYZabcdefghijklmnopqrstuvwxyz0123456789+/".

Definition b64_char (i : N) : N := nth (N.to_nat i) b64_alphabet 0%N.

(** [base64.b64encode(bs).decode('utf-8')] *)
Fixpoint b64encode (bs : list N) : pystr :=
  match bs with
  | [] => []
  | [a] =>
    [b64_char (a / 4); b64_char ((a mod 4) * 16); 61; 61]%N
  | [a; b] =>
    [b64_char (a / 4); b64_char ((a mod 4) * 16 + b / 16);
     b64_char ((b mod 16) * 4); 61]%N
  | a :: b :: c :: rest =>
    [b64_char (a / 4); b64_char ((a mod 4) * 16 + b / 16);
     b64_char ((b mod 16) * 4 + c / 64); b64_char (c mod 64)]%N
      ++ b64encode rest
  end.

Section Media.

Variable env : media_env.

(** [_download_media] *)
Definition _download_media (url : pystr) : option (list N) :=
  match http_get env url with
  | Some (status, content) => if status =? 200 then Some content else None
  | None => None
  end.

(** [_load_bytes] *)
Definition _load_bytes (src : pystr) : outcome (option (list N)) :=
  match is_file env src with
  | Raised t e => Raised t e
  | Done true => Done (read_file env src)
  | Done false =>
    if startswith (L "http") src then Done (_download_media src)
    else if startswith (L "base64://") src then
      match b64decode env (drop 9 src) with
      | Done b => Done (Some b)
      | Raised t e => Raised t e
      end
    else Done None
  end.

(** [if getattr(seg, attr, None): b = await _load_bytes(...)] *)
Definition load_attr (attr : option pystr) : outcome (option (list N)) :=
  if truthy attr then _load_bytes (default [] attr) else Done None.

(** [_find] *)
Fixpoint _find (seg_list : list segment) : outcome (option (list N)) :=
  match seg_list with
  | [] => Done None
  | Image url file :: rest =>
    match load_attr url with
    | Raised t e => Raised t e
    | Done (Some b) => Done (Some b)
    | Done None =>
      match load_attr file with
      | Raised t e => Raised t e
      | Done (Some b) => Done (Some b)
      | Done None => _find rest
      end
    end
  | _ :: rest => _find rest
  end.

(** The first loop of [_extract_images_from_message], over the quoted
    messages. *)
Fixpoint find_in_replies (message : list segment) : outcome (option (list N)) :=
  match message with
  | [] => Done None
  | Reply (s :: chain) :: rest =>
    match _find (s :: chain) with
    | Raised t e => Raised t e
    | Done (Some b) => Done (Some b)
    | Done None => find_in_replies rest
    end
  | _ :: rest => find_in_replies rest
  end.

(** [out], from the bytes found *)
Definition data_urls (image_bytes : option (list N)) : list pystr :=
  match image_bytes with
  | Some (c :: bs) => [L "data:image/png;base64," ++ b64encode (c :: bs)]
  | _ => []
  end.

(** [_extract_images_from_message]; [message_obj] is the chain
    [event.message_obj.message], [None] when the event has none. *)
Definition _extract_images_from_message (message_obj : option (list segment))
  : outcome (list pystr) :=
  match message_obj with
  | None => Done []
  | Some message =>
    match find_in_replies message with
    | Raised t e => Raised t e
    | Done (Some b) => Done (data_urls (Some b))
    | Done None =>
      match _find message with
      | Raised t e => Raised t e
      | Done image_bytes => Done (data_urls image_bytes)
      end
    end
  end.

End Media.

(* ===================================================================== *)
(** * 12. The background task                                             *)
(* ===================================================================== *)

(** The two switches of the configuration the task reads, by their
    truth value. *)
Record delivery_config : Type := {
  enabled : bool;
  save_video_enabled : bool
}.

(** The error messages of [_generate_video_core] *)
Inductive core_error : Type :=
| CoreDisabled
| CoreNeedImage
| CoreApi (m : error_msg)
| CoreNoUrl.

Definition render_core (e : core_error) : pystr :=
  match e with
  | CoreDisabled => L "视频生成功能已禁用"
  | CoreNeedImage => L "请发送图片或引用图片进行视频生成。"
  | CoreApi m => render m
  | CoreNoUrl => L "API未返回视频URL"
  end.

(** What one download does: the file is written and its path returned, or
    the download raises, after it created the file or before. *)
Inductive download_outcome : Type :=
| Downloaded (path : pystr)
| DownloadFailed (created : option pystr).

(** [_download_video], on the set of the files that exist *)
Definition _download_video (d : download_outcome) (fs : gset pystr)
  : option pystr * gset pystr :=
  match d with
  | Downloaded path => (Some path, {[ path ]} ∪ fs)
  | DownloadFailed (Some path) => (None, {[ path ]} ∪ fs)
  | DownloadFailed None => (None, fs)
  end.

(** The component that carries the video, once the constructor of the
    library has returned it *)
Inductive component : Type :=
| FromURL (url : pystr)
| FromFileSystem (path : pystr).

(** What the task sends *)
Inductive message : Type :=
| SayError (e : core_error)
| SayVideo (c : component)
| SayStillSending
| SaySendFailed (e : pystr)
| SayGenerationFailed
| SayProblem (e : pystr).

(** The world of one task. *)
Record task_env : Type := {
  env_media : media_env;
  env_message : option (list segment);
  env_upstream : nat -> attempt_outcome;
  env_download : download_outcome;
  env_unlink : bool;                    (* [path.unlink()] succeeds *)
  env_from_url : pystr -> outcome unit; (* [Video.fromURL(url)] *)
  env_from_file : pystr -> outcome unit; (* [Video.fromFileSystem(path)] *)
  env_send : nat -> outcome unit        (* the n-th [event.send] of the task *)
}.

Section Task.

Variable json_loads : pystr -> option json.
Variable cfg : config.
Variable dc : delivery_config.
Variable env : task_env.

(** [_generate_video_core]: the triple it returns, and the files. *)
Definition _generate_video_core (fs : gset pystr)
  : outcome (option pystr * option pystr * option core_error) * gset pystr :=
  if negb (enabled dc) then (Done (None, None, Some CoreDisabled), fs)
  else
    match _extract_images_from_message (env_media env) (env_message env) with
    | Raised t e => (Raised t e, fs)
    | Done images =>
      let image_base64 := head images in
      if negb (truthy image_base64)
      then (Done (None, None, Some CoreNeedImage), fs)
      else
        let '(video_url, error_msg) :=
          fst (_call_grok_api json_loads cfg (env_upstream env)) in
        if truthy (option_map render error_msg)
        then (Done (None, None, option_map CoreApi error_msg), fs)
        else if negb (truthy video_url)
        then (Done (None, None, Some CoreNoUrl), fs)
        else if save_video_enabled dc then
          let '(local_path, fs) := _download_video (env_download env) fs in
          (Done (video_url, local_path, None), fs)
        else (Done (video_url, None, None), fs)
    end.

(** [_create_video_component].  The two constructors are code of the
    library: whether they return or raise is left to the world. *)
Definition _create_video_component (video_path video_url : option pystr)
  : outcome component :=
  if truthy video_url then
    match env_from_url env (default [] video_url) with
    | Done _ => Done (FromURL (default [] video_url))
    | Raised t e => Raised t e
    end
  else if truthy video_path && save_video_enabled dc then
    match env_from_file env (default [] video_path) with
    | Done _ => Done (FromFileSystem (default [] video_path))
    | Raised t e => Raised t e
    end
  else Raised false (L "缺少可用的视频URL，无法发送").

(** [_cleanup_video_file]: an exception of [unlink] is logged. *)
Definition _cleanup_video_file (video_path : option pystr) (fs : gset pystr)
  : gset pystr :=
  if negb (truthy video_path) then fs
  else if save_video_enabled dc then fs
  else
    let path := default [] video_path in
    if bool_decide (path ∈ fs) && env_unlink env then fs ∖ {[ path ]} else fs.

(** [await event.send(...)]: [sent] lists the messages handed to
    [event.send] so far, the ones whose sending raised included. *)
Definition send (m : message) (sent : list message)
  : outcome unit * list message :=
  (env_send env (length sent), sent ++ [m]).

(** The body of the [try] around the sending of the video. *)
Definition deliver (video_path video_url : option pystr) (fs : gset pystr)
  (sent : list message) : outcome unit * gset pystr * list message :=
  match _create_video_component video_path video_url with
  | Raised t e => (Raised t e, fs, sent)
  | Done video_component =>
    let '(r, sent) := send (SayVideo video_component) sent in
    let '(r, sent) :=
      match r with
      | Done _ => (Done tt, sent)
      | Raised true _ => send SayStillSending sent
      | Raised false e => (Raised false e, sent)
      end in
    match r with
    | Done _ =>
      (Done tt,
       if truthy video_path then _cleanup_video_file video_path fs else fs,
       sent)
    | Raised t e => (Raised t e, fs, sent)
    end
  end.

(** The same with its handler, [except Exception as e]. *)
Definition deliver_or_report (video_path video_url : option pystr)
  (fs : gset pystr) (sent : list message)
  : outcome unit * gset pystr * list message :=
  match deliver video_path video_url fs sent with
  | (Done _, fs, sent) => (Done tt, fs, sent)
  | (Raised _ e, fs, sent) =>
    let '(r, sent) :=
      if contains (L "WebSocket API call timeout") e
      then send SayStillSending sent
      else send (SaySendFailed e) sent in
    (r, fs, sent)
  end.

(** The body of the outer [try] of [_async_generate_video]. *)
Definition task_body (fs : gset pystr)
  : outcome unit * gset pystr * list message :=
  match _generate_video_core fs with
  | (Raised t e, fs) => (Raised t e, fs, [])
  | (Done (video_url, video_path, error_msg), fs) =>
    match error_msg with
    | Some err =>
      if truthy (Some (render_core err)) then
        let '(r, sent) := send (SayError err) [] in (r, fs, sent)
      else if truthy video_url || truthy video_path
      then deliver_or_report video_path video_url fs []
      else let '(r, sent) := send SayGenerationFailed [] in (r, fs, sent)
    | None =>
      if truthy video_url || truthy video_path
      then deliver_or_report video_path video_url fs []
      else let '(r, sent) := send SayGenerationFailed [] in (r, fs, sent)
    end
  end.

(** [_async_generate_video]: the exception that leaves the task, if any,
    the files, the messages handed to [event.send], and the tables after
    the [finally] block. *)
Definition _async_generate_video (user_id task_id : string)
  (fs : gset pystr) (st : state)
  : option (bool * pystr) * gset pystr * list message * state :=
  let '(r, fs, sent) := task_body fs in
  let '(escaped, sent) :=
    match r with
    | Done _ => (None, sent)
    | Raised _ e =>
      match send (SayProblem e) sent with
      | (Done _, sent) => (None, sent)
      | (Raised t' e', sent) => (Some (t', e'), sent)
      end
    end in
  (escaped, fs, sent, finish_task user_id task_id st).

End Task.

(* ===================================================================== *)
(** * 13. The command between its suspension points                       *)
(* ===================================================================== *)

(** [cmd_generate_video] is a coroutine: it runs until it waits for
    something, and other handlers and tasks run while it waits.  It waits
    at two places: at the [await] of the images (line 655) and at the
    [yield] of its reply (line 667).  The access check before them does
    not wait: the lock of a group is free whenever it is asked for, since
    nothing waits while holding it. *)

(** What a handler gives back to the framework. *)
Inductive handler_output : Type :=
| Yielded (r : reply)
| YieldedProblem (e : pystr)
| Escaped (is_timeout : bool) (text : pystr).

(** Lines 642-652: the access check and the test of the in-flight table.
    [None]: the handler goes on to wait for the images. *)
Definition cmd_checks (cfg : config) (ev : event) (now : Z) (st : state)
  : state * option reply :=
  let '(st, access_error) := _check_group_access cfg (group_id ev) now st in
  match access_error with
  | Some m => (st, Some (ReplyAccess m))
  | None =>
    let user_id := sender_id ev in
    if bool_decide (is_Some (_processing_tasks st !! user_id))
    then (st, Some ReplyBusy)
    else (st, None)
  end.

(** Lines 655-667: the images have come, or their extraction has raised.
    With an image the entry of the task is stored and the reply is
    yielded; the third component is then the task the handler is about to
    create, and the handler waits at the [yield]. *)
Definition cmd_after_images (user_id task_id : string)
  (images : outcome (list pystr)) (st : state)
  : state * handler_output * option (string * string) :=
  match images with
  | Raised t e => (st, Escaped t e, None)
  | Done [] => (st, Yielded ReplyNeedImage, None)
  | Done (_ :: _) =>
    (set_tasks st (<[user_id := task_id]> (_processing_tasks st)),
     Yielded ReplyAccepted, Some (user_id, task_id))
  end.

(** How the framework goes on with the generator that waits at the
    [yield]: it resumes it; or an exception is raised inside the [try],
    at the [yield] or by [asyncio.create_task]; or it closes it. *)
Inductive resumption : Type :=
| Resumed
| ThrownInto (e : pystr)
| Closed.

(** Lines 670-674: the output, and whether the task is created. *)
Definition cmd_after_yield (how : resumption)
  : option handler_output * bool :=
  match how with
  | Resumed => (None, true)
  | ThrownInto e => (Some (YieldedProblem e), false)
  | Closed => (None, false)
  end.

#[global] Instance event_eq_dec : EqDecision event.
Proof. solve_decision. Defined.

(** The list without the first occurrence of [x]. *)
Fixpoint remove_first {A} `{EqDecision A} (x : A) (l : list A) : list A :=
  match l with
  | [] => []
  | y :: l' => if decide (x = y) then l' else y :: remove_first x l'
  end.

(** The plugin with the handlers that wait and the tasks that run. *)
Record world : Type := {
  tables : state;
  awaiting_images : list event;            (* handlers at line 655 *)
  awaiting_resume : list (string * string); (* handlers at line 667 *)
  in_flight : list (string * string);      (* tasks created, not ended *)
  outputs : list (string * handler_output) (* by user, in order *)
}.

Definition initial_world : world :=
  {| tables := initial_state; awaiting_images := [];
     awaiting_resume := []; in_flight := []; outputs := [] |}.

(** What happens next: each move runs one handler or task from one
    waiting point to the next. *)
Inductive move : Type :=
| Arrives (ev : event) (now : Z)
| ImagesReady (ev : event) (images : outcome (list pystr)) (task_id : string)
| Resumes (user_id task_id : string) (how : resumption)
| TaskEnds (user_id task_id : string) (env : task_env) (fs : gset pystr).

Section World.

Variable json_loads : pystr -> option json.
Variable cfg : config.
Variable dc : delivery_config.

Definition move_step (w : world) (m : move) : world :=
  match m with
  | Arrives ev now =>
    let '(st, answer) := cmd_checks cfg ev now (tables w) in
    match answer with
    | Some r =>
      {| tables := st;
         awaiting_images := awaiting_images w;
         awaiting_resume := awaiting_resume w;
         in_flight := in_flight w;
         outputs := outputs w ++ [(sender_id ev, Yielded r)] |}
    | None =>
      {| tables := st;
         awaiting_images := awaiting_images w ++ [ev];
         awaiting_resume := awaiting_resume w;
         in_flight := in_flight w;
         outputs := outputs w |}
    end
  | ImagesReady ev images task_id =>
    if bool_decide (ev ∈ awaiting_images w) then
      let '(st, out, created) :=
        cmd_after_images (sender_id ev) task_id images (tables w) in
      {| tables := st;
         awaiting_images := remove_first ev (awaiting_images w);
         awaiting_resume :=
           match created with
           | Some t => awaiting_resume w ++ [t]
           | None => awaiting_resume w
           end;
         in_flight := in_flight w;
         outputs := outputs w ++ [(sender_id ev, out)] |}
    else w
  | Resumes user_id task_id how =>
    if bool_decide ((user_id, task_id) ∈ awaiting_resume w) then
      let '(out, created) := cmd_after_yield how in
      {| tables := tables w;
         awaiting_images := awaiting_images w;
         awaiting_resume := remove_first (user_id, task_id) (awaiting_resume w);
         in_flight :=
           if created then in_flight w ++ [(user_id, task_id)]
           else in_flight w;
         outputs :=
           match out with
           | Some o => outputs w ++ [(user_id, o)]
           | None => outputs w
           end |}
    else w
  | TaskEnds user_id task_id env fs =>
    if bool_decide ((user_id, task_id) ∈ in_flight w) then
      {| tables :=
           snd (_async_generate_video json_loads cfg dc env
                  user_id task_id fs (tables w));
         awaiting_images := awaiting_images w;
         awaiting_resume := awaiting_resume w;
         in_flight := remove_first (user_id, task_id) (in_flight w);
         outputs := outputs w |}
    else w
  end.

Definition moves (w : world) (ms : list move) : world :=
  foldl move_step w ms.

End World.

(* ===================================================================== *)
(** * 14. Notions for the properties of the reader and of the windows     *)
(* ===================================================================== *)

(** The accumulator with which the loop over the lines ends, at the end
    of the lines or at the sentinel; [None] when a frame made the call
    return. *)
Fixpoint loop_end (json_loads : pystr -> option json)
  (accumulated : list pystr) (lines : list pystr) : option (list pystr) :=
  match lines with
  | [] => Some accumulated
  | line :: rest =>
    match read_line json_loads accumulated line with
    | Continue acc => loop_end json_loads acc rest
    | Break acc => Some acc
    | Found _ => None
    end
  end.

(** The text strategies find no URL in the text gathered. *)
Definition searched (accumulated : list pystr) : Prop :=
  truthy (_try_content_extraction (join accumulated)) = false.

(** A response object with a text under [choices[0].message.content]. *)
Definition has_message_content (response_data : json) (content : pystr)
  : Prop :=
  ∃ fields choice others message,
    response_data = JObj fields ∧
    assoc (L "choices") fields = Some (JArr (JObj choice :: others)) ∧
    assoc (L "message") choice = Some (JObj message) ∧
    assoc (L "content") message = Some (JStr content).

(** Times that do not go back: each is at or after [from] and after the
    ones before it. *)
Fixpoint clock_from (from : Z) (times : list Z) : Prop :=
  match times with
  | [] => True
  | t :: ts => from ≤ t ∧ clock_from t ts
  end.

(** A segment that gives no image to the search over the quoted
    messages: anything but a quoted message in whose chain an image
    loads. *)
Definition no_quoted_image (env : media_env) (seg : segment) : Prop :=
  match seg with
  | Reply chain => _find env chain = Done None
  | _ => True
  end.

(** A message of the handlers of the sending: the notice that the video
    may still arrive, or the report of an exception that a sending
    raised, or that the constructor [Video.fromURL] raised on the URL
    [u]. *)
Definition handler_message (env : task_env) (u : pystr) (m : message)
  : Prop :=
  m = SayStillSending ∨
  ∃ e, m = SaySendFailed e ∧
    ((∃ n t, env_send env n = Raised t e) ∨
     (∃ t, env_from_url env u = Raised t e)).

(** A message of the sending of the video with its handlers: the video,
    made from the URL [u] by the constructor, or a message of the
    handlers. *)
Definition delivery_message (env : task_env) (u : pystr) (m : message)
  : Prop :=
  (m = SayVideo (FromURL u) ∧ env_from_url env u = Done tt) ∨
  handler_message env u m.

(** The scheme test of the validation gate *)
Definition has_scheme (url : pystr) : bool :=
  startswith (L "http://") url || startswith (L "https://") url.

(** A constructor for the examples, which refuses a URL without the
    scheme. *)
Definition example_from_url (url : pystr) : outcome unit :=
  if has_scheme url then Done tt else Raised false (L "not a valid url").

(** A world for the examples: no local files, one picture on the network,
    a decoder that refuses its input. *)
Definition example_media : media_env :=
  {| is_file := λ _, Done false;
     read_file := λ _, None;
     http_get := λ url,
       if str_eqb url (L "http://img.example/quoted.png")
       then Some (200, [137; 80; 78; 71]%N) else None;
     b64decode := λ _, Raised false (L "Incorrect padding") |}.

(** A task whose message carries its image as base64 text, in the world
    of the examples; every sending succeeds. *)
Definition example_task_env : task_env :=
  {| env_media := example_media;
     env_message := Some [Image (Some (L "base64://AAAA")) None];
     env_upstream := upstream_timeout_then_ok;
     env_download := Downloaded (L "/data/videos/grok_video_1.mp4");
     env_unlink := true;
     env_from_url := example_from_url;
     env_from_file := λ _, Done tt;
     env_send := λ _, Done tt |}.

Definition example_delivery : delivery_config :=
  {| enabled := true; save_video_enabled := true |}.

(** Every character a pattern can take satisfies [P]. *)
Fixpoint takes_only (P : N → Prop) (r : regex) : Prop :=
  match r with
  | REps => True
  | RChr p | RStar p | RPlus p => ∀ x, p x = true → P x
  | RSeq r1 r2 => takes_only P r1 ∧ takes_only P r2
  | ROpt r1 | RGroup r1 => takes_only P r1
  end.


(** A task whose message quotes a message with a picture; the upstream
    times out once and serves the video next; the first sending times
    out. *)
Definition example_quoting_env : task_env :=
  {| env_media := example_media;
     env_message :=
       Some [Reply [Image (Some (L "http://img.example/quoted.png")) None]];
     env_upstream := upstream_timeout_then_ok;
     env_download := Downloaded (L "/data/videos/grok_video_1.mp4");
     env_unlink := true;
     env_from_url := example_from_url;
     env_from_file := λ _, Done tt;
     env_send := λ n, match n with
                      | O => Raised true []
                      | _ => Done tt
                      end |}.

(** Two commands of one user, the second arriving while the first waits
    for its image; and the same two, the second arriving after the first
    has started its task. *)
Definition example_images : outcome (list pystr) :=
  Done [L "data:image/png;base64,AA=="].

Definition overlapping_requests : list move :=
  [ Arrives example_event 100;
    Arrives example_event 101;
    ImagesReady example_event example_images "t1";
    Resumes "u1" "t1" Resumed;
    ImagesReady example_event example_images "t2";
    Resumes "u1" "t2" Resumed ].

Definition requests_in_turn : list move :=
  [ Arrives example_event 100;
    ImagesReady example_event example_images "t1";
    Resumes "u1" "t1" Resumed;
    Arrives example_event 101 ].

(* ********************************************************************* *)
(** *                           Properties                                *)
(* ********************************************************************* *)

(* ===================================================================== *)
(** * 15. Text lemmas                                                     *)
(* ===================================================================== *)

Lemma startswith_spec p s :
  startswith p s = true ↔ ∃ r, s = p ++ r.
Proof.
  revert s. induction p as [|a p IH]; intros s; simpl.
  - split; [by exists s|done].
  - destruct s as [|b s].
    + split; [done|]. by intros [r ?].
    + rewrite andb_true_iff, N.eqb_eq, IH. split.
      * intros [-> [r ->]]. by exists r.
      * intros [r [= -> ->]]. split; [done|by exists r].
Qed.

Lemma startswith_app p r : startswith p (p ++ r) = true.
Proof. apply startswith_spec. by exists r. Qed.

Lemma contains_spec p s :
  contains p s = true ↔ ∃ a b, s = a ++ p ++ b.
Proof.
  induction s as [|c s IH]; simpl.
  - rewrite orb_false_r, startswith_spec. split.
    + intros [r Hr]. by exists [], r.
    + intros (a & b & Hs). destruct a; [by exists b|done].
  - rewrite orb_true_iff, startswith_spec, IH. split.
    + intros [[r Hr]|(a & b & ->)]; [by exists [], r|by exists (c :: a), b].
    + intros ([|c' a] & b & Hs).
      * left. by exists b.
      * right. simplify_eq/=. by exists a, b.
Qed.

Lemma contains_app a p b : contains p (a ++ p ++ b) = true.
Proof. apply contains_spec. by exists a, b. Qed.

Lemma contains_suffix a p : contains p (a ++ p) = true.
Proof. apply contains_spec. exists a, []. by rewrite app_nil_r. Qed.

Lemma endswith_spec p s :
  endswith p s = true ↔ ∃ a, s = a ++ p.
Proof.
  unfold endswith. rewrite startswith_spec. split.
  - intros [r Hr]. exists (rev r).
    apply (f_equal (@rev N)) in Hr. by rewrite rev_app_distr, !rev_involutive in Hr.
  - intros [a ->]. exists (rev a). by rewrite rev_app_distr.
Qed.

Lemma endswith_contains p s : endswith p s = true → contains p s = true.
Proof.
  rewrite endswith_spec, contains_spec. intros [a ->].
  exists a, []. by rewrite app_nil_r.
Qed.

(* ===================================================================== *)
(** * 16. RetryOrchestrator                                               *)
(* ===================================================================== *)

Section Retry.

Variable json_loads : pystr -> option json.
Variable cfg : config.
Variable upstream : nat -> attempt_outcome.

Local Abbreviation attempt_at i := (run_attempt json_loads (upstream i)).
Local Abbreviation loop := (retry_loop json_loads cfg upstream).

(** Failed attempts that are not the last one are logged, slept on and
    followed by the next attempt. *)
Lemma retry_loop_failures k : ∀ todo start,
  (∀ i, (start ≤ i < start + k)%nat → is_failure (attempt_at i) = true) →
  Z.of_nat (start + k) ≤ max_retry_attempts cfg - 1 →
  loop (k + todo) start =
    (fst (loop todo (start + k)), failed_log start k ++ snd (loop todo (start + k))).
Proof.
  induction k as [|k IH]; intros todo start Hfail Hmax; simpl.
  - rewrite Nat.add_0_r. by destruct (loop todo start).
  - assert (Hnext :
      loop (k + todo) (S start) =
        (fst (loop todo (start + S k)),
         failed_log (S start) k ++ snd (loop todo (start + S k)))).
    { replace (start + S k)%nat with (S start + k)%nat by lia.
      apply IH; [intros i Hi; apply Hfail; lia|lia]. }
    pose proof (Hfail start) as Hs.
    assert (Hne : (Z.of_nat start =? max_retry_attempts cfg - 1) = false)
      by (apply Z.eqb_neq; lia).
    destruct (attempt_at start) as [url err| |e];
      [discriminate Hs; lia| |]; rewrite Hne, Hnext; done.
Qed.

Lemma retry_loop_returned todo a url err :
  attempt_at a = Returned url err →
  loop (S todo) a = ((url, err), [EvAttempt a]).
Proof. intros Hr. simpl. by rewrite Hr. Qed.

Lemma retry_loop_last_timeout todo a :
  attempt_at a = TimedOut →
  Z.of_nat a = max_retry_attempts cfg - 1 →
  loop (S todo) a =
    ((None, Some (MsgTimeout (timeout_seconds cfg))), [EvAttempt a]).
Proof.
  intros Hr Hlast. simpl. rewrite Hr.
  by rewrite (proj2 (Z.eqb_eq _ _) Hlast).
Qed.

Lemma sleeps_failed_log start k tail :
  sleeps (failed_log start k ++ tail) = (k + sleeps tail)%nat.
Proof.
  revert start. induction k as [|k IH]; intros start; [done|].
  unfold sleeps in *. simpl. by rewrite IH.
Qed.

(** The call, when the first [k] attempts raise and attempt [k] returns. *)
Lemma call_returns_at k url err :
  api_key cfg ≠ [] →
  Z.of_nat k < max_retry_attempts cfg →
  (∀ i, (i < k)%nat → is_failure (attempt_at i) = true) →
  attempt_at k = Returned url err →
  _call_grok_api json_loads cfg upstream =
    ((url, err), failed_log 0 k ++ [EvAttempt k]).
Proof.
  intros Hkey Hk Hfail Hret. unfold _call_grok_api.
  rewrite bool_decide_eq_false_2 by done.
  replace (Z.to_nat (max_retry_attempts cfg))
    with (k + S (Z.to_nat (max_retry_attempts cfg) - S k))%nat by lia.
  rewrite retry_loop_failures; [|intros i Hi; apply Hfail; lia|lia].
  simpl. by rewrite Hret.
Qed.

(** The call, when every attempt times out. *)
Lemma call_all_timeouts n :
  api_key cfg ≠ [] →
  max_retry_attempts cfg = Z.of_nat (S n) →
  (∀ i, (i ≤ n)%nat → attempt_at i = TimedOut) →
  _call_grok_api json_loads cfg upstream =
    ((None, Some (MsgTimeout (timeout_seconds cfg))),
     failed_log 0 n ++ [EvAttempt n]).
Proof.
  intros Hkey Hmax Hall. unfold _call_grok_api.
  rewrite bool_decide_eq_false_2 by done.
  replace (Z.to_nat (max_retry_attempts cfg)) with (n + 1)%nat by lia.
  rewrite retry_loop_failures;
    [|intros i Hi; rewrite Hall by lia; done|lia].
  rewrite (retry_loop_last_timeout 0 (0 + n)); [done|apply Hall; lia|lia].
Qed.

End Retry.

(** C7. With at least one attempt configured: when every attempt times
    out, the call ends with the time-out message, whose text holds the
    configured value; its log is the attempts with a sleep of one second
    between two of them, [max_retry_attempts - 1] sleeps in all and none
    after the last attempt.  When an attempt returns after [k] failed
    ones, the call returns its result at once: the log ends with that
    attempt and holds the [k] sleeps of the earlier failures only. *)
Theorem retry_timeouts_and_delays (json_loads : pystr -> option json)
    (cfg : config) (upstream : nat -> attempt_outcome) (n : nat) :
  api_key cfg ≠ [] →
  max_retry_attempts cfg = Z.of_nat (S n) →
  ((∀ i, (i ≤ n)%nat → run_attempt json_loads (upstream i) = TimedOut) →
   let r := _call_grok_api json_loads cfg upstream in
   fst r = (None, Some (MsgTimeout (timeout_seconds cfg))) ∧
   contains (str_of_Z (timeout_seconds cfg))
            (render (MsgTimeout (timeout_seconds cfg))) = true ∧
   snd r = failed_log 0 n ++ [EvAttempt n] ∧
   Z.of_nat (sleeps (snd r)) = max_retry_attempts cfg - 1 ∧
   last (snd r) = Some (EvAttempt n)) ∧
  (∀ k url err, (k ≤ n)%nat →
   (∀ i, (i < k)%nat → is_failure (run_attempt json_loads (upstream i)) = true) →
   run_attempt json_loads (upstream k) = Returned url err →
   let r := _call_grok_api json_loads cfg upstream in
   fst r = (url, err) ∧
   snd r = failed_log 0 k ++ [EvAttempt k] ∧
   sleeps (snd r) = k ∧
   last (snd r) = Some (EvAttempt k)).
Proof.
  intros Hkey Hmax. split.
  - intros Hall. cbv zeta.
    rewrite (call_all_timeouts json_loads cfg upstream n Hkey Hmax Hall).
    cbn [fst snd]. split; [done|]. split.
    { unfold render. apply contains_app. }
    split; [done|]. split.
    { rewrite sleeps_failed_log. unfold sleeps. simpl. lia. }
    by rewrite last_snoc.
  - intros k url err Hk Hfail Hret. cbv zeta.
    rewrite (call_returns_at json_loads cfg upstream k url err Hkey);
      [|lia|done|done].
    cbn [fst snd]. split; [done|]. split; [done|]. split.
    { rewrite sleeps_failed_log. unfold sleeps. simpl. lia. }
    by rewrite last_snoc.
Qed.

Lemma retry_timeouts_and_delays_witness :
  _call_grok_api example_loads example_config upstream_timeouts =
    ((None, Some (MsgTimeout 180)),
     [EvAttempt 0; EvSleep 1; EvAttempt 1; EvSleep 1; EvAttempt 2]) ∧
  snd (_call_grok_api example_loads example_config upstream_timeout_then_ok) =
    [EvAttempt 0; EvSleep 1; EvAttempt 1].
Proof.
  split.
  - destruct (retry_timeouts_and_delays example_loads example_config
                upstream_timeouts 2) as [H _]; [discriminate|reflexivity|].
    destruct H as (H1 & _ & H3 & _); [reflexivity|].
    apply injective_projections; [exact H1|exact H3].
  - destruct (retry_timeouts_and_delays example_loads example_config
                upstream_timeout_then_ok 2) as [_ H]; [discriminate|reflexivity|].
    destruct (H 1%nat (Some (L "https://cdn.example/x.mp4")) None)
      as (_ & H2 & _).
    + lia.
    + intros i Hi. assert (i = 0%nat) as -> by lia. reflexivity.
    + vm_compute. reflexivity.
    + exact H2.
Defined.

(* ===================================================================== *)
(** * 17. StreamingClient: status codes                                   *)
(* ===================================================================== *)

(** C2, counterexample.  Three attempts are configured; the upstream
    answers 500 to the first and would serve the video at the second.  The
    call returns after the first attempt: the status is not retried. *)
Lemma non_200_is_not_retried :
  max_retry_attempts example_config = 3 ∧
  _call_grok_api example_loads example_config upstream_500_then_ok =
    ((None, Some (MsgHttpFailed 500 (L "internal error"))), [EvAttempt 0]) ∧
  run_attempt example_loads (upstream_500_then_ok 1) =
    Returned (Some url_a) None.
Proof. split; [reflexivity|]. split; vm_compute; reflexivity. Qed.

(** C2, amended.  An attempt that gets a status other than 200 ends the
    call at that attempt: nothing is retried and no sleep follows.  403 is
    reported as the authorization failure; another status, when its body
    can be read, is reported with the status and the first 400 characters
    of the body at most.  Only the attempts that raise are retried. *)
Theorem non_200_ends_the_call (json_loads : pystr -> option json)
    (cfg : config) (upstream : nat -> attempt_outcome) (k : nat)
    (status : Z) (text : pystr) (lines : list pystr) (fin : stream_end) :
  api_key cfg ≠ [] →
  Z.of_nat k < max_retry_attempts cfg →
  (∀ i, (i < k)%nat → is_failure (run_attempt json_loads (upstream i)) = true) →
  upstream k = Response status (BodyOk text) lines fin →
  status ≠ 200 →
  let r := _call_grok_api json_loads cfg upstream in
  snd r = failed_log 0 k ++ [EvAttempt k] ∧
  last (snd r) = Some (EvAttempt k) ∧
  (status = 403 → fst r = (None, Some MsgForbidden)) ∧
  (status ≠ 403 →
   fst r = (None, Some (MsgHttpFailed status (take 400 text))) ∧
   (length (take 400 text) ≤ 400)%nat ∧
   take 400 text `prefix_of` text ∧
   contains (take 400 text)
            (render (MsgHttpFailed status (take 400 text))) = true).
Proof.
  intros Hkey Hk Hfail Hup Hne. cbv zeta.
  assert (Hret : ∃ err,
    run_attempt json_loads (upstream k) = Returned None (Some err) ∧
    (status = 403 → err = MsgForbidden) ∧
    (status ≠ 403 → err = MsgHttpFailed status (take 400 text))).
  { rewrite Hup. unfold run_attempt.
    destruct (Z.eqb_spec status 403) as [->|H403].
    - exists MsgForbidden. by split_and!.
    - destruct (Z.eqb_spec status 200) as [->|_]; [done|]. simpl.
      eexists. by split_and!. }
  destruct Hret as (err & Hret & H403 & Hother).
  rewrite (call_returns_at json_loads cfg upstream k None (Some err)
             Hkey Hk Hfail Hret).
  cbn [fst snd]. split; [done|]. split; [by rewrite last_snoc|]. split.
  - intros Hs. by rewrite H403.
  - intros Hs. rewrite Hother by done. split; [done|]. split.
    { rewrite length_take. lia. }
    split; [apply prefix_take|].
    unfold render. rewrite !app_assoc. apply contains_suffix.
Qed.

Lemma non_200_ends_the_call_witness :
  _call_grok_api example_loads example_config upstream_500_then_ok =
    ((None, Some (MsgHttpFailed 500 (L "internal error"))), [EvAttempt 0]).
Proof.
  destruct (non_200_ends_the_call example_loads example_config
              upstream_500_then_ok 0 500 (L "internal error") [] EndOfStream)
    as (H1 & _ & _ & H4).
  - discriminate.
  - reflexivity.
  - intros i Hi. lia.
  - reflexivity.
  - discriminate.
  - destruct H4 as (H4 & _); [discriminate|].
    apply injective_projections; [exact H4|exact H1].
Defined.

(* ===================================================================== *)
(** * 18. StreamingClient: reading the lines                              *)
(* ===================================================================== *)

Section Reader.

Variable json_loads : pystr -> option json.

Local Abbreviation read_line' := (read_line json_loads).
Local Abbreviation read_stream' := (read_stream json_loads).

Lemma strip_nil : strip [] = [].
Proof. reflexivity. Qed.

(** A line without the marker leaves the reader as it was. *)
Lemma read_line_unmarked acc line :
  is_frame_line line = false → read_line' acc line = Continue acc.
Proof.
  unfold is_frame_line, read_line. intros Hf.
  case_bool_decide; [done|]. by rewrite Hf.
Qed.

Lemma read_line_frame acc line :
  is_frame_line line = true →
  read_line' acc line =
    if str_eqb (payload_of line) (L "[DONE]") then Break acc
    else
      match json_loads (payload_of line) with
      | None => Continue acc
      | Some chunk =>
        let acc' := append_text acc (frame_text chunk) in
        let url := _try_content_extraction (join acc') in
        let url := if negb (truthy url)
                   then _try_structured_extraction chunk else url in
        if truthy url then Found (default [] url) else Continue acc'
      end.
Proof.
  unfold is_frame_line, read_line, payload_of. intros Hf.
  case_bool_decide as Hnil.
  - subst line. by rewrite strip_nil in Hf.
  - by rewrite Hf.
Qed.

Lemma read_line_skipped acc line :
  is_skipped_line json_loads line = true → read_line' acc line = Continue acc.
Proof.
  unfold is_skipped_line. intros Hs.
  destruct (is_frame_line line) eqn:Hf; [|by apply read_line_unmarked].
  simpl in Hs. apply andb_true_iff in Hs as [Hd Hl].
  rewrite read_line_frame by done.
  apply negb_true_iff in Hd. rewrite Hd.
  apply bool_decide_eq_true_1 in Hl. by rewrite Hl.
Qed.

Lemma read_line_done acc line :
  is_done_line line = true → read_line' acc line = Break acc.
Proof.
  unfold is_done_line. intros [Hf Hd]%andb_true_iff.
  rewrite read_line_frame by done. by rewrite Hd.
Qed.

(** Skipped lines do not change what the rest of the stream gives. *)
Lemma read_stream_skipped acc skipped rest fin :
  Forall (λ l, is_skipped_line json_loads l = true) skipped →
  read_stream' acc (skipped ++ rest) fin = read_stream' acc rest fin.
Proof.
  induction 1 as [|l ls Hl _ IH]; [done|].
  simpl. by rewrite read_line_skipped.
Qed.

(** The text extraction over the text of an accepted reader state has
    already been tried, and the last pass of the source decides on the
    text alone. *)
Lemma after_stream_cases acc :
  (after_stream acc = Returned None (Some MsgNoUrl) ∧
   truthy (_try_content_extraction (join acc)) = false) ∨
  (∃ url, after_stream acc = Returned (Some url) None ∧
          _try_content_extraction (join acc) = Some url).
Proof.
  unfold after_stream. cbv zeta.
  destruct (_try_content_extraction (join acc)) as [[|c url]|] eqn:He; simpl.
  - by left.
  - right. by exists (c :: url).
  - by left.
Qed.

End Reader.

(** The message of a stream without a URL is none of the messages of a
    failed transport, as a value and as a text. *)
Lemma no_url_message_distinct :
  (∀ t, render MsgNoUrl ≠ render (MsgTimeout t)) ∧
  (∀ e, render MsgNoUrl ≠ render (MsgException e)) ∧
  (∀ s b, render MsgNoUrl ≠ render (MsgHttpFailed s b)) ∧
  render MsgNoUrl ≠ render MsgForbidden ∧
  render MsgNoUrl ≠ render MsgAllRetriesFailed.
Proof.
  split_and!; intros; intros H; apply (f_equal (take 4)) in H;
    vm_compute in H; discriminate.
Qed.

(** C6, counterexample.  The first line does not start with the marker of
    a frame: it starts with a space.  It is not ignored: the reader strips
    it, finds the sentinel and stops, and the frame that follows, which
    carries the URL, is never read. *)
Lemma unmarked_line_is_read :
  startswith (L "data:") (L " data: [DONE]") = false ∧
  read_stream example_loads []
    [L " data: [DONE]"; L "data: " ++ payload_structured] EndOfStream =
    Returned None (Some MsgNoUrl) ∧
  read_stream example_loads []
    [L "data: " ++ payload_structured] EndOfStream =
    Returned (Some url_a) None.
Proof. split_and!; vm_compute; reflexivity. Qed.

(** C6, amended.  The marker is looked for after the line is stripped of
    surrounding white space.  A line that has no marker then, and a frame
    whose payload does not decode, are skipped: the rest of the stream is
    read as if they were not there, and an attempt made of such lines
    alone returns, it does not raise.  A frame whose payload is the
    sentinel ends the reading: what follows is not read, however the
    stream would have ended.  When the reading ends with no URL, the text
    gathered so far is searched once more; no URL there gives the
    no-URL message, which differs from every message of a failed
    transport. *)
Theorem stream_reading (json_loads : pystr -> option json)
    (acc : list pystr) (skipped rest : list pystr) (done_line : pystr)
    (fin : stream_end) :
  Forall (λ l, is_skipped_line json_loads l = true) skipped →
  is_done_line done_line = true →
  read_stream json_loads acc (skipped ++ rest) fin =
    read_stream json_loads acc rest fin ∧
  read_stream json_loads acc (skipped ++ done_line :: rest) fin =
    after_stream acc ∧
  read_stream json_loads acc skipped EndOfStream = after_stream acc ∧
  is_failure (run_attempt json_loads
                (Response 200 (BodyOk []) skipped EndOfStream)) = false ∧
  ((after_stream acc = Returned None (Some MsgNoUrl) ∧
    truthy (_try_content_extraction (join acc)) = false) ∨
   (∃ url, after_stream acc = Returned (Some url) None ∧
           _try_content_extraction (join acc) = Some url)) ∧
  (∀ t e s b,
     render MsgNoUrl ≠ render (MsgTimeout t) ∧
     render MsgNoUrl ≠ render (MsgException e) ∧
     render MsgNoUrl ≠ render (MsgHttpFailed s b) ∧
     render MsgNoUrl ≠ render MsgForbidden).
Proof.
  intros Hskip Hdone.
  split; [by apply read_stream_skipped|].
  split.
  { rewrite read_stream_skipped by done. simpl.
    by rewrite read_line_done. }
  assert (Hend : ∀ a, read_stream json_loads a skipped EndOfStream
                      = after_stream a).
  { intros a. rewrite <- (app_nil_r skipped).
    by rewrite read_stream_skipped. }
  split; [apply Hend|]. split.
  { unfold run_attempt. simpl. rewrite Hend.
    by destruct (after_stream_cases []) as [[-> _]|(url & -> & _)]. }
  split; [apply after_stream_cases|].
  intros t e s b.
  destruct no_url_message_distinct as (H1 & H2 & H3 & H4 & _).
  split_and!; [apply H1|apply H2|apply H3|exact H4].
Qed.

Lemma stream_reading_witness :
  read_stream example_loads []
    ([L ": keep-alive"; L "data: {broken"] ++
     [L "data: [DONE]"; L "data: " ++ payload_structured]) EndTimeout =
    Returned None (Some MsgNoUrl).
Proof.
  destruct (stream_reading example_loads []
              [L ": keep-alive"; L "data: {broken"]
              [L "data: " ++ payload_structured] (L "data: [DONE]") EndTimeout)
    as (_ & H2 & _).
  - repeat constructor.
  - reflexivity.
  - rewrite H2. reflexivity.
Defined.

(* ===================================================================== *)
(** * 19. Order of the strategies on a frame                              *)
(* ===================================================================== *)

(** On a frame, the text gathered so far is searched first; the
    structured fields of the frame are looked at only when the text gives
    nothing. *)
Lemma read_line_text_first (json_loads : pystr -> option json)
    (acc : list pystr) (line : pystr) (chunk : json) (url : pystr) :
  is_frame_line line = true →
  str_eqb (payload_of line) (L "[DONE]") = false →
  json_loads (payload_of line) = Some chunk →
  _try_content_extraction (join (append_text acc (frame_text chunk))) = Some url →
  url ≠ [] →
  read_line json_loads acc line = Found url.
Proof.
  intros Hf Hd Hl He Hne. rewrite read_line_frame by done.
  rewrite Hd, Hl. cbv zeta. rewrite He.
  destruct url as [|c u]; [done|]. reflexivity.
Qed.

(** C1, the code at the failing input.  The frame carries a valid
    structured URL, [url_a] under [video_url], and its text holds another
    one, [url_b].  Structured extraction alone gives [url_a]; the reader
    returns [url_b], the URL of the text.  The path for whole responses,
    [_extract_video_url_from_response], gives the structured URL for the
    same two fields. *)
Theorem stream_returns_text_url_first :
  _try_structured_extraction frame_both = Some url_a ∧
  _is_valid_video_url url_a = true ∧
  read_line example_loads [] (L "data: " ++ payload_both) = Found url_b ∧
  read_stream example_loads [] [L "data: " ++ payload_both] EndOfStream =
    Returned (Some url_b) None ∧
  _extract_video_url_from_response response_both = (Some url_a, None).
Proof. split_and!; vm_compute; reflexivity. Qed.

(* ===================================================================== *)
(** * 20. Extractor: the validation gate                                  *)
(* ===================================================================== *)

Lemma char_in_spec c s : char_in c s = true ↔ c ∈ s.
Proof.
  unfold char_in. rewrite existsb_exists. split.
  - intros (x & Hx & ->%N.eqb_eq). by apply list_elem_of_In.
  - intros Hc. exists c. split; [by apply list_elem_of_In|apply N.eqb_refl].
Qed.

Lemma is_valid_video_url_spec url :
  _is_valid_video_url url = true ↔ passes_gate url.
Proof.
  unfold _is_valid_video_url, passes_gate.
  destruct (Nat.ltb_spec (length url) 10) as [Hlen|Hlen].
  { split; [done|]. intros [? _]. lia. }
  destruct (startswith (L "http://") url || startswith (L "https://") url)
    eqn:Hscheme; cbn [negb].
  2:{ split; [done|]. intros (_ & Hs & _).
      apply orb_false_iff in Hscheme as [H1 H2].
      destruct Hs as [Hs|Hs]; congruence. }
  apply orb_true_iff in Hscheme.
  destruct (contains (L ".mp4") (lower url)) eqn:Hext.
  2:{ destruct (endswith (L ".mp4") (lower url)) eqn:Hend.
      - apply endswith_contains in Hend. congruence.
      - cbn [negb andb]. split; [done|]. by intros (_ & _ & ? & _). }
  rewrite andb_false_r.
  destruct (existsb (λ c, char_in c url) invalid_chars) eqn:Hbad.
  - split; [done|]. intros (_ & _ & _ & Hclean).
    apply existsb_exists in Hbad as (c & Hc & Hin).
    apply char_in_spec in Hin. exfalso.
    apply (Hclean c); [by apply list_elem_of_In|done].
  - split; [|done]. intros _. split_and!; try done.
    intros c Hc Hin.
    assert (existsb (λ c, char_in c url) invalid_chars = true); [|congruence].
    apply existsb_exists. exists c. split; [by apply list_elem_of_In|].
    by apply char_in_spec.
Qed.

Lemma valid_group_Some g url :
  valid_group g = Some url → _is_valid_video_url url = true.
Proof.
  destruct g as [u|]; simpl; [|done].
  destruct (_is_valid_video_url u) eqn:Hv; [|done]. by intros [= <-].
Qed.

Lemma first_pattern_valid pats content url :
  first_pattern pats content = Some url → _is_valid_video_url url = true.
Proof.
  induction pats as [|r pats IH]; simpl; [done|].
  destruct (re_search r content) as [[rest g]|]; [|done].
  destruct (valid_group g) as [u|] eqn:Hg; [|done].
  intros [= <-]. by eapply valid_group_Some.
Qed.

Lemma extract_from_html_tag_valid content url :
  _extract_from_html_tag content = Some url → _is_valid_video_url url = true.
Proof.
  unfold _extract_from_html_tag. case_match; [done|].
  apply first_pattern_valid.
Qed.

Lemma extract_direct_url_valid content url :
  _extract_direct_url content = Some url → _is_valid_video_url url = true.
Proof. unfold _extract_direct_url. by intros [_ ?]%find_some. Qed.

Lemma extract_from_markdown_valid content url :
  _extract_from_markdown content = Some url → _is_valid_video_url url = true.
Proof. apply first_pattern_valid. Qed.

Lemma try_content_extraction_valid content url :
  _try_content_extraction content = Some url → _is_valid_video_url url = true.
Proof.
  unfold _try_content_extraction.
  destruct (truthy (_extract_from_html_tag content));
    [apply extract_from_html_tag_valid|].
  destruct (truthy (_extract_direct_url content));
    [apply extract_direct_url_valid|].
  destruct (truthy (_extract_from_markdown content));
    [apply extract_from_markdown_valid|done].
Qed.

(** A valid URL is not the empty text, so its truth value is that of its
    presence. *)
Lemma valid_truthy url :
  _is_valid_video_url url = true → truthy (Some url) = true.
Proof.
  intros [Hlen _]%is_valid_video_url_spec. destruct url; [simpl in Hlen; lia|done].
Qed.

Lemma scan_items_check items url :
  scan_items items = Some url → endswith (L ".mp4") url = true.
Proof.
  induction items as [|item items IH]; simpl; [done|].
  destruct item as [| | | | |fields]; try done.
  destruct (assoc (L "url") fields) as [[| | |u| |]|]; try done.
  destruct (endswith (L ".mp4") u) eqn:Hend; [|done]. by intros [= <-].
Qed.

Lemma scan_fields_check fields message url :
  scan_fields fields message = Ok (Some url) → endswith (L ".mp4") url = true.
Proof.
  induction fields as [|f fields IH]; simpl; [done|].
  destruct (py_in f message) as [[]|]; simpl; try done.
  destruct (py_getitem message f) as [[| | | |items|]|]; simpl; try done.
  destruct (scan_items items) as [u|] eqn:Hscan; [|done].
  intros [= <-]. by eapply scan_items_check.
Qed.

Lemma try_structured_extraction_check response_data url :
  _try_structured_extraction response_data = Some url →
  passes_structured_check url.
Proof.
  unfold _try_structured_extraction, structured_body, passes_structured_check.
  destruct (py_in (L "video_url") response_data) as [has|];
    cbn [bind catch_none]; [|done].
  assert (Hrest : ∀ r,
    r = (choices <- py_get response_data (L "choices") (JArr [JObj []]) ;;
         choice <- py_index0 choices ;;
         message <- py_get choice (L "message") (JObj []) ;;
         scan_fields structured_fields message) →
    catch_none r = Some url → endswith (L ".mp4") url = true).
  { intros r ->.
    destruct (py_get response_data _ _) as [choices|];
      cbn [bind catch_none]; [|done].
    destruct (py_index0 choices) as [choice|]; cbn [bind catch_none]; [|done].
    destruct (py_get choice _ _) as [message|]; cbn [bind catch_none]; [|done].
    destruct (scan_fields structured_fields message) as [[u|]|] eqn:Hs;
      cbn [bind catch_none]; try done.
    intros [= <-]. by eapply scan_fields_check. }
  destruct has; cbn [bind catch_none].
  - destruct (py_getitem response_data (L "video_url")) as [v|];
      cbn [bind catch_none]; [|done].
    destruct v as [| | |u| |]; cbn [bind catch_none];
      try (intros H; right; right; by eapply Hrest).
    destruct (startswith (L "http://") u || startswith (L "https://") u)
      eqn:Hs; cbn [bind catch_none].
    + intros [= <-]. apply orb_true_iff in Hs. tauto.
    + intros H; right; right; by eapply Hrest.
  - intros H; right; right; by eapply Hrest.
Qed.

(** What the reader hands back was accepted by one of the two kinds of
    check. *)
Lemma read_line_found json_loads acc line url :
  read_line json_loads acc line = Found url →
  _is_valid_video_url url = true ∨ passes_structured_check url.
Proof.
  unfold read_line. case_bool_decide; [done|].
  destruct (negb _); [done|].
  destruct (str_eqb _ _); [done|].
  destruct (json_loads _) as [chunk|]; [|done]. cbv zeta.
  set (text := join _).
  destruct (_try_content_extraction text) as [u|] eqn:He.
  - pose proof (try_content_extraction_valid _ _ He) as Hv.
    rewrite (valid_truthy _ Hv). cbn [negb]. rewrite (valid_truthy _ Hv).
    cbn [default]. intros [= <-]. by left.
  - cbn [truthy negb].
    destruct (_try_structured_extraction chunk) as [u|] eqn:Hs; [|done].
    destruct (truthy (Some u)); [|done]. cbn [default].
    intros [= <-]. right. by eapply try_structured_extraction_check.
Qed.

(** C3, counterexample.  The structured strategy returns two URLs that
    the validation gate turns down, and the reader passes the first on. *)
Lemma structured_url_skips_gate :
  _try_structured_extraction frame_short = Some (L "http://x") ∧
  _is_valid_video_url (L "http://x") = false ∧
  _try_structured_extraction frame_attachment = Some (L "x.mp4") ∧
  _is_valid_video_url (L "x.mp4") = false ∧
  read_line example_loads [] (L "data: " ++ payload_short) = Found (L "http://x").
Proof. split_and!; vm_compute; reflexivity. Qed.

(** C3, amended.  A URL returned by a text strategy (HTML tag, bare URL,
    Markdown link, or the three in a row) passes the validation gate:
    length at least 10, scheme http or https, the .mp4 marker, none of the
    seven characters.  A URL returned by the structured strategy passed
    the check of its field instead: it starts with the scheme, for
    [video_url], or it ends with .mp4, for an entry of attachments, media
    or files.  The reader returns no URL but of these two kinds. *)
Theorem extraction_gate (json_loads : pystr -> option json)
    (content : pystr) (response_data : json) (acc : list pystr)
    (line url : pystr) :
  (_extract_from_html_tag content = Some url ∨
   _extract_direct_url content = Some url ∨
   _extract_from_markdown content = Some url ∨
   _try_content_extraction content = Some url →
   passes_gate url) ∧
  (_try_structured_extraction response_data = Some url →
   passes_structured_check url) ∧
  (read_line json_loads acc line = Found url →
   passes_gate url ∨ passes_structured_check url).
Proof.
  split; [|split].
  - intros [H1|[H2|[H3|H4]]]; apply is_valid_video_url_spec.
    + by eapply extract_from_html_tag_valid.
    + by eapply extract_direct_url_valid.
    + by eapply extract_from_markdown_valid.
    + by eapply try_content_extraction_valid.
  - apply try_structured_extraction_check.
  - intros [H|H]%read_line_found; [left|by right].
    by apply is_valid_video_url_spec.
Qed.

Lemma extraction_gate_witness :
  passes_gate (L "https://cdn.example/x.mp4").
Proof.
  destruct (extraction_gate example_loads
              (L "<video src='https://cdn.example/x.mp4'></video>")
              JNull [] [] (L "https://cdn.example/x.mp4")) as [H _].
  apply H. left. vm_compute. reflexivity.
Defined.

(* ===================================================================== *)
(** * 21. The matcher against the meaning of the patterns                 *)
(* ===================================================================== *)

Lemma star_k_sound {A} p (k : pystr → option A) s x :
  star_k p k s = Some x →
  ∃ m rest, s = m ++ rest ∧ forallb p m = true ∧ k rest = Some x.
Proof.
  induction s as [|c s IH]; simpl.
  - intros Hk. by exists [], [].
  - destruct (p c) eqn:Hp.
    + destruct (star_k p k s) as [y|] eqn:Hs.
      * intros [= ->]. destruct (IH eq_refl) as (m & rest & -> & Hm & Hk).
        exists (c :: m), rest. simpl. by rewrite Hp, Hm.
      * intros Hk. by exists [], (c :: s).
    + intros Hk. by exists [], (c :: s).
Qed.

Lemma star_k_complete {A} p (k : pystr → option A) m rest :
  forallb p m = true → is_Some (k rest) → is_Some (star_k p k (m ++ rest)).
Proof.
  induction m as [|c m IH]; simpl; intros Hm Hk.
  - destruct rest as [|c rest]; simpl; [done|].
    destruct (p c); [|done]. by destruct (star_k p k rest).
  - apply andb_true_iff in Hm as [Hc Hm]. rewrite Hc.
    destruct (IH Hm Hk) as [y ->]. by eexists.
Qed.

(** Soundness: a successful run of the matcher splits the text into a
    part the pattern denotes and a rest the continuation accepts. *)
Lemma rmatch_sound {A} r : ∀ s g (k : pystr → option pystr → option A) x,
  rmatch r s g k = Some x →
  ∃ m rest g', s = m ++ rest ∧ den r m g g' ∧ k rest g' = Some x.
Proof.
  induction r as [|p|r1 IH1 r2 IH2|p|p|r IH|r IH]; intros s g k x; simpl.
  - intros Hk. exists [], s, g. split_and!; [done|constructor|done].
  - destruct s as [|c s]; [done|]. destruct (p c) eqn:Hp; [|done].
    intros Hk. exists [c], s, g. split_and!; [done|by constructor|done].
  - intros H. apply IH1 in H as (m1 & rest1 & g1 & -> & Hd1 & H).
    apply IH2 in H as (m2 & rest & g2 & -> & Hd2 & Hk).
    exists (m1 ++ m2), rest, g2. rewrite <- app_assoc.
    split_and!; [done|by econstructor|done].
  - intros (m & rest & -> & Hm & Hk)%star_k_sound.
    exists m, rest, g. split_and!; [done|by constructor|done].
  - destruct s as [|c s]; [done|]. destruct (p c) eqn:Hp; [|done].
    intros (m & rest & -> & Hm & Hk)%star_k_sound.
    exists (c :: m), rest, g. split_and!; [done|by constructor|done].
  - destruct (rmatch r s g k) as [y|] eqn:Hr.
    + intros [= ->]. apply IH in Hr as (m & rest & g' & -> & Hd & Hk).
      exists m, rest, g'. split_and!; [done|by constructor|done].
    + intros Hk. exists [], s, g. split_and!; [done|apply den_opt_out|done].
  - intros H. apply IH in H as (m & rest & g' & -> & Hd & Hk).
    exists m, rest, (Some m). split_and!; [done|by econstructor|].
    rewrite <- Hk. do 2 f_equal.
    rewrite length_app, Nat.add_sub. by rewrite take_app_length.
Qed.

(** Completeness: where the pattern denotes a prefix and the continuation
    accepts the rest, the matcher succeeds, on that split or on one it
    tries before. *)
Lemma rmatch_complete {A} r m g g' :
  den r m g g' →
  ∀ rest (k : pystr → option pystr → option A),
    is_Some (k rest g') → is_Some (rmatch r (m ++ rest) g k).
Proof.
  induction 1 as [g|p c g Hp|r1 r2 m1 m2 g g1 g2 _ IH1 _ IH2|p m g Hm
                 |p c m g Hp Hm|r m g g' _ IH|r g|r m g g' _ IH];
    intros rest k Hk; simpl.
  - done.
  - by rewrite Hp.
  - rewrite <- app_assoc. apply IH1. by apply IH2.
  - by apply star_k_complete.
  - rewrite Hp. by apply star_k_complete.
  - destruct (IH rest k Hk) as [y ->]. by eexists.
  - by destruct (rmatch r rest g k).
  - apply IH. rewrite length_app, Nat.add_sub. by rewrite take_app_length.
Qed.

Lemma match_at_sound r s rest g :
  match_at r s = Some (rest, g) →
  ∃ m, s = m ++ rest ∧ den r m None g.
Proof.
  unfold match_at. intros (m & rest' & g' & -> & Hd & [= -> ->])%rmatch_sound.
  by exists m.
Qed.

Lemma match_at_complete r m rest g :
  den r m None g → is_Some (match_at r (m ++ rest)).
Proof. intros Hd. unfold match_at. by eapply rmatch_complete. Qed.

(** [re.search] returns the leftmost match. *)
Lemma re_search_sound r s x :
  re_search r s = Some x →
  ∃ pre s', s = pre ++ s' ∧ match_at r s' = Some x ∧
    ∀ i, (i < length pre)%nat → match_at r (drop i s) = None.
Proof.
  induction s as [|c s IH]; simpl.
  - destruct (match_at r []) as [y|] eqn:Hm; [|done].
    intros [= ->]. exists [], []. split_and!; [done|done|simpl; lia].
  - destruct (match_at r (c :: s)) as [y|] eqn:Hm.
    + intros [= ->]. exists [], (c :: s). split_and!; [done|done|simpl; lia].
    + intros (pre & s' & -> & Hs' & Hleft)%IH.
      exists (c :: pre), s'. split_and!; [done|done|].
      intros [|i] Hi; [done|]. simpl. apply Hleft. simpl in Hi. lia.
Qed.

Lemma re_search_complete r pre m rest g :
  den r m None g → is_Some (re_search r (pre ++ m ++ rest)).
Proof.
  intros Hd. induction pre as [|c pre IH]; simpl.
  - destruct (match_at_complete r m rest g Hd) as [y Hy].
    destruct (m ++ rest); simpl; rewrite Hy; by eexists.
  - destruct (match_at r (c :: pre ++ m ++ rest)); [by eexists|done].
Qed.

(* ===================================================================== *)
(** * 22. Extractor: the HTML tag strategy                                *)
(* ===================================================================== *)

Lemma den_seq_inv r1 r2 m g g' :
  den (RSeq r1 r2) m g g' →
  ∃ m1 m2 g1, m = m1 ++ m2 ∧ den r1 m1 g g1 ∧ den r2 m2 g1 g'.
Proof. inversion 1; subst. by eexists _, _, _. Qed.

Lemma den_eps_inv m g g' : den REps m g g' → m = [] ∧ g' = g.
Proof. by inversion 1. Qed.

Lemma den_chr_inv p m g g' :
  den (RChr p) m g g' → ∃ c, m = [c] ∧ p c = true ∧ g' = g.
Proof. inversion 1; subst. by eexists. Qed.

Lemma den_star_inv p m g g' :
  den (RStar p) m g g' → forallb p m = true ∧ g' = g.
Proof. by inversion 1. Qed.

Lemma den_plus_inv p m g g' :
  den (RPlus p) m g g' → m ≠ [] ∧ forallb p m = true ∧ g' = g.
Proof.
  inversion 1; subst. split_and!; [done| |done].
  simpl. by apply andb_true_iff.
Qed.

Lemma den_group_inv r m g g' :
  den (RGroup r) m g g' → g' = Some m ∧ ∃ g1, den r m g g1.
Proof. inversion 1; subst. split; [done|by eexists]. Qed.

Lemma den_rlit w : ∀ m g g',
  den (rlit w) m g g' ↔ ci_word w m ∧ g' = g.
Proof.
  induction w as [|c w IH]; intros m g g'; simpl.
  - split.
    + intros [-> ->]%den_eps_inv. split; [constructor|done].
    + intros [Hw ->]. inversion Hw; subst. constructor.
  - split.
    + intros (m1 & m2 & g1 & -> & (x & -> & Hx & ->)%den_chr_inv
              & [Hw ->]%IH)%den_seq_inv.
      split; [by constructor|done].
    + intros [Hw ->]. inversion Hw as [|? x ? m' Hx Hw']; subst.
      change (x :: m') with ([x] ++ m').
      econstructor; [by constructor|]. by apply IH.
Qed.

Lemma den_plus_intro p m g :
  m ≠ [] → forallb p m = true → den (RPlus p) m g g.
Proof.
  destruct m as [|c m]; [done|]. simpl. intros _ [? ?]%andb_true_iff.
  by constructor.
Qed.

Lemma lit_ci_gt x : lit_ci 62 x = true → x = 62%N.
Proof.
  unfold lit_ci, sre_lower. intros H.
  destruct (N.leb_spec 65 x), (N.leb_spec x 90), (N.eqb_spec x 304),
    (N.eqb_spec x 8490); simpl in H; rewrite ?orb_false_r in H;
    try discriminate; apply N.eqb_eq in H; lia.
Qed.

Lemma ci_word_gt m : ci_word (L ">") m → m = L ">".
Proof.
  change (L ">") with [62%N]. intros H.
  inversion H as [|? x ? ? Hx Hnil]; subst. inversion Hnil; subst.
  f_equal. by apply lit_ci_gt.
Qed.

(** The first pattern denotes the video tags with a quoted [src]. *)
Lemma den_video_tag m g :
  den pat_video_tag m None g ↔ ∃ url, g = Some url ∧ video_tag_shape m url.
Proof.
  unfold pat_video_tag, video_tag_shape. cbn [rseq]. split.
  - intros (tag & m1 & g1 & -> & [Htag ->]%den_rlit & H)%den_seq_inv.
    apply den_seq_inv in H as (a & m2 & g2 & -> & [Ha ->]%den_star_inv & H).
    apply den_seq_inv in H as (kw & m3 & g3 & -> & [Hkw ->]%den_rlit & H).
    apply den_seq_inv in H
      as (? & m4 & g4 & -> & (q1 & -> & Hq1 & ->)%den_chr_inv & H).
    apply den_seq_inv in H as (url & m5 & g5 & -> & [-> [g' Hu]]%den_group_inv & H).
    apply den_plus_inv in Hu as (Hne & Hu & _).
    apply den_seq_inv in H
      as (? & m6 & g6 & -> & (q2 & -> & Hq2 & ->)%den_chr_inv & H).
    apply den_seq_inv in H as (b & m7 & g7 & -> & [Hb ->]%den_star_inv & H).
    apply den_seq_inv in H as (gt & m8 & g8 & -> & [Hgt ->]%den_rlit & H).
    apply den_eps_inv in H as [-> ->].
    exists url. split; [done|]. exists tag, a, kw, q1, q2, b.
    split_and!; try done.
    rewrite app_nil_r. do 7 f_equal. by apply ci_word_gt.
  - intros (url & -> & tag & a & kw & q1 & q2 & b & -> & Htag & Ha & Hkw & Hq1
            & Hq2 & Hne & Hu & Hb).
    econstructor; [by apply den_rlit|].
    econstructor; [by constructor|].
    econstructor; [by apply den_rlit|].
    econstructor; [by constructor|].
    econstructor; [econstructor; by apply den_plus_intro|].
    econstructor; [by constructor|].
    econstructor; [by constructor|].
    rewrite <- (app_nil_r (L ">")).
    econstructor; [|constructor].
    apply den_rlit. split; [|done]. repeat constructor.
Qed.

(** The second pattern denotes the quoted [src] attributes whose value
    holds [.mp4]. *)
Lemma den_src_attr m g :
  den pat_src_attr m None g ↔ ∃ url, g = Some url ∧ src_attr_shape m url.
Proof.
  unfold pat_src_attr, src_attr_shape. cbn [rseq]. split.
  - intros (kw & m1 & g1 & -> & [Hkw ->]%den_rlit & H)%den_seq_inv.
    apply den_seq_inv in H
      as (? & m2 & g2 & -> & (q1 & -> & Hq1 & ->)%den_chr_inv & H).
    apply den_seq_inv in H as (url & m3 & g3 & -> & [-> [g' Hu]]%den_group_inv & H).
    apply den_seq_inv in H
      as (? & m4 & g4 & -> & (q2 & -> & Hq2 & ->)%den_chr_inv & H).
    apply den_eps_inv in H as [-> ->].
    apply den_seq_inv in Hu as (u1 & n1 & h1 & -> & (Hne & Hu1 & ->)%den_plus_inv & Hu).
    apply den_seq_inv in Hu as (ext & n2 & h2 & -> & [Hext ->]%den_rlit & Hu).
    apply den_seq_inv in Hu as (u2 & n3 & h3 & -> & [Hu2 ->]%den_star_inv & Hu).
    apply den_eps_inv in Hu as [-> ->].
    eexists. split; [done|]. exists kw, q1, q2, u1, ext, u2.
    rewrite !app_nil_r. split_and!; done.
  - intros (url & -> & kw & q1 & q2 & u1 & ext & u2 & -> & -> & Hkw & Hq1
            & Hq2 & Hne & Hu1 & Hext & Hu2).
    econstructor; [by apply den_rlit|].
    econstructor; [by constructor|].
    econstructor.
    { econstructor.
      econstructor; [by apply den_plus_intro|].
      econstructor; [by apply den_rlit|].
      rewrite <- (app_nil_r u2).
      econstructor; [by constructor|constructor]. }
    rewrite <- (app_nil_r [q2]).
    econstructor; [by constructor|constructor].
Qed.

Lemma first_pattern_two r1 r2 content :
  first_pattern [r1; r2] content =
    match leftmost_valid r1 content with
    | Some u => Some u
    | None => leftmost_valid r2 content
    end.
Proof.
  unfold leftmost_valid, search_group. simpl.
  destruct (re_search r1 content) as [[rest1 g1]|]; simpl.
  - destruct (valid_group g1); [done|].
    destruct (re_search r2 content) as [[rest2 g2]|]; simpl; [|done].
    by destruct (valid_group g2).
  - destruct (re_search r2 content) as [[rest2 g2]|]; simpl; [|done].
    by destruct (valid_group g2).
Qed.

Lemma extract_from_html_tag_guarded content :
  contains (L "<video") content = true →
  contains (L "src=") content = true →
  _extract_from_html_tag content =
    match leftmost_valid pat_video_tag content with
    | Some u => Some u
    | None => leftmost_valid pat_src_attr content
    end.
Proof.
  intros H1 H2. unfold _extract_from_html_tag. rewrite H1, H2.
  cbn [negb orb]. apply first_pattern_two.
Qed.

(** A search that succeeds found, at the leftmost place where the pattern
    matches at all, a text the pattern denotes. *)
Lemma re_search_den r content rest g :
  re_search r content = Some (rest, g) →
  ∃ pre m, content = pre ++ m ++ rest ∧ den r m None g ∧
    ∀ i, (i < length pre)%nat → match_at r (drop i content) = None.
Proof.
  intros (pre & s' & -> & (m & -> & Hd)%match_at_sound & Hleft)%re_search_sound.
  by exists pre, m.
Qed.

(** C8, counterexample.  A text with two video tags, both written in
    lower case.  The URL of the first fails the gate (its scheme is ftp),
    the URL of the second passes it, and the strategy returns the second
    URL for the second tag alone.  On the whole text each pattern is
    searched once and gives its leftmost match, the first tag: the
    strategy returns nothing, though the text holds a tag whose URL
    passes the gate. *)
Lemma html_tag_first_match_only :
  search_group pat_video_tag (L "<video src='https://h.example/b.mp4'>") =
    Some (Some (L "https://h.example/b.mp4")) ∧
  _is_valid_video_url (L "https://h.example/b.mp4") = true ∧
  _extract_from_html_tag (L "<video src='https://h.example/b.mp4'>") =
    Some (L "https://h.example/b.mp4") ∧
  search_group pat_video_tag
    (L "<video src='ftp://h.example/a.mp4'><video src='https://h.example/b.mp4'>")
    = Some (Some (L "ftp://h.example/a.mp4")) ∧
  search_group pat_src_attr
    (L "<video src='ftp://h.example/a.mp4'><video src='https://h.example/b.mp4'>")
    = Some (Some (L "ftp://h.example/a.mp4")) ∧
  _is_valid_video_url (L "ftp://h.example/a.mp4") = false ∧
  _extract_from_html_tag
    (L "<video src='ftp://h.example/a.mp4'><video src='https://h.example/b.mp4'>")
    = None.
Proof. split_and!; vm_compute; reflexivity. Qed.

(** C8, amended.  On a text that holds the words [<video] and [src=] as
    written here, in lower case, the strategy takes the leftmost match of the video tag
    pattern and returns its URL if it passes the gate; if not, it takes
    the leftmost match of the [src] attribute pattern in the same way;
    otherwise it returns nothing.  Each pattern finds a tag or attribute
    written in any letter case, and what it matches is such a tag or
    attribute, the leftmost one the pattern matches; a URL that is
    returned passes the gate. *)
Theorem html_tag_strategy (content : pystr) :
  contains (L "<video") content = true →
  contains (L "src=") content = true →
  _extract_from_html_tag content =
    match leftmost_valid pat_video_tag content with
    | Some u => Some u
    | None => leftmost_valid pat_src_attr content
    end ∧
  (∀ pre m post url,
     content = pre ++ m ++ post →
     (video_tag_shape m url →
      ∃ rest u, re_search pat_video_tag content = Some (rest, Some u)) ∧
     (src_attr_shape m url →
      ∃ rest u, re_search pat_src_attr content = Some (rest, Some u))) ∧
  (∀ rest g,
     (re_search pat_video_tag content = Some (rest, g) →
      ∃ pre m url, g = Some url ∧ content = pre ++ m ++ rest ∧
        video_tag_shape m url ∧
        ∀ i, (i < length pre)%nat →
             match_at pat_video_tag (drop i content) = None) ∧
     (re_search pat_src_attr content = Some (rest, g) →
      ∃ pre m url, g = Some url ∧ content = pre ++ m ++ rest ∧
        src_attr_shape m url ∧
        ∀ i, (i < length pre)%nat →
             match_at pat_src_attr (drop i content) = None)) ∧
  (∀ url, _extract_from_html_tag content = Some url → passes_gate url).
Proof.
  intros Hv Hs.
  assert (Htag : ∀ rest g,
    re_search pat_video_tag content = Some (rest, g) →
    ∃ pre m url, g = Some url ∧ content = pre ++ m ++ rest ∧
      video_tag_shape m url ∧
      ∀ i, (i < length pre)%nat →
           match_at pat_video_tag (drop i content) = None).
  { intros rest g (pre & m & -> & Hd & Hleft)%re_search_den.
    apply den_video_tag in Hd as (url & -> & Hshape).
    by exists pre, m, url. }
  assert (Hattr : ∀ rest g,
    re_search pat_src_attr content = Some (rest, g) →
    ∃ pre m url, g = Some url ∧ content = pre ++ m ++ rest ∧
      src_attr_shape m url ∧
      ∀ i, (i < length pre)%nat →
           match_at pat_src_attr (drop i content) = None).
  { intros rest g (pre & m & -> & Hd & Hleft)%re_search_den.
    apply den_src_attr in Hd as (url & -> & Hshape).
    by exists pre, m, url. }
  split; [by apply extract_from_html_tag_guarded|].
  split; [|split].
  - intros pre m post url ->. split; intros Hshape.
    + destruct (re_search_complete pat_video_tag pre m post (Some url))
        as [[rest g] Hr].
      { apply den_video_tag. by exists url. }
      destruct (Htag _ _ Hr) as (_ & _ & u & -> & _). by exists rest, u.
    + destruct (re_search_complete pat_src_attr pre m post (Some url))
        as [[rest g] Hr].
      { apply den_src_attr. by exists url. }
      destruct (Hattr _ _ Hr) as (_ & _ & u & -> & _). by exists rest, u.
  - intros rest g. split; [apply Htag|apply Hattr].
  - intros url Hu. apply is_valid_video_url_spec.
    by eapply extract_from_html_tag_valid.
Qed.

Lemma html_tag_strategy_witness :
  _extract_from_html_tag
    (jq "<video src=`https://cdn.example/x.mp4`></video>") =
    Some (L "https://cdn.example/x.mp4") ∧
  ∃ rest u,
    re_search pat_video_tag
      (L "<video src=''><ViDeO SRC='https://cdn.example/x.mp4'>") =
      Some (rest, Some u).
Proof.
  split.
  - destruct (html_tag_strategy
                (jq "<video src=`https://cdn.example/x.mp4`></video>"))
      as (H1 & _); [reflexivity|reflexivity|].
    rewrite H1. vm_compute. reflexivity.
  - destruct (html_tag_strategy
                (L "<video src=''><ViDeO SRC='https://cdn.example/x.mp4'>"))
      as (_ & H2 & _); [reflexivity|reflexivity|].
    destruct (H2 (L "<video src=''>")
                 (L "<ViDeO SRC='https://cdn.example/x.mp4'>") []
                 (L "https://cdn.example/x.mp4")) as [H _]; [reflexivity|].
    apply H.
    exists (L "<ViDeO"), (L " "), (L "SRC="), 39%N, 39%N, [].
    split_and!; try reflexivity; try discriminate.
    + repeat constructor.
    + repeat constructor.
Defined.
(* ===================================================================== *)
(** * 23. Properties of the rate limiter                                  *)
(* ===================================================================== *)

Section RateLimiter.

Variable cfg : config.
Variables (g : string) (W M : Z).
Hypothesis g_group : g ≠ EmptyString.
Hypothesis g_listed : list_rejects cfg g = None.
Hypothesis limiter_on : rate_limit_enabled cfg = true.
Hypothesis window_is : rate_limit_window_seconds cfg = PyInt W.
Hypothesis max_is : rate_limit_max_calls cfg = PyInt M.

Local Abbreviation current_window := (window_at g W).
Local Abbreviation limit_message := (MsgRateLimited (PyInt M) (PyInt W)).

Lemma ensure_lock_bucket st h :
  _rate_limit_bucket (ensure_lock st h) = _rate_limit_bucket st.
Proof. unfold ensure_lock. by case_bool_decide. Qed.

Lemma ensure_lock_tasks st h :
  _processing_tasks (ensure_lock st h) = _processing_tasks st.
Proof. unfold ensure_lock. by case_bool_decide. Qed.

(** One check, written out. *)
Lemma check_group_access_step now st :
  _check_group_access cfg (Some g) now st =
    let b := current_window now st in
    if M <=? count b
    then (ensure_lock st g, Some limit_message)
    else (set_bucket (ensure_lock st g) g
            {| window_start := window_start b; count := count b + 1 |}, None).
Proof.
  unfold _check_group_access, check_body.
  rewrite bool_decide_eq_false_2 by done.
  rewrite g_listed, limiter_on.
  unfold rate_limit_section, window_at.
  rewrite window_is, max_is, ensure_lock_bucket. simpl.
  destruct (_rate_limit_bucket st !! g) as [b|]; simpl;
    repeat (case_match; simpl in *; simplify_eq; try lia; try done).
Qed.

Lemma check_accepts now st :
  count (current_window now st) < M →
  _check_group_access cfg (Some g) now st =
    (set_bucket (ensure_lock st g) g
       {| window_start := window_start (current_window now st);
          count := count (current_window now st) + 1 |}, None).
Proof.
  intros Hc. rewrite check_group_access_step. simpl.
  destruct (Z.leb_spec M (count (current_window now st))); [lia|done].
Qed.

Lemma check_rejects now st :
  M ≤ count (current_window now st) →
  _check_group_access cfg (Some g) now st = (ensure_lock st g, Some limit_message).
Proof.
  intros Hc. rewrite check_group_access_step. simpl.
  destruct (Z.leb_spec M (count (current_window now st))); [done|lia].
Qed.

(** A window that is [W] old, or absent, counts for nothing. *)
Lemma current_window_expired now st b :
  _rate_limit_bucket st !! g = Some b →
  W ≤ now - window_start b →
  current_window now st = {| window_start := now; count := 0 |}.
Proof.
  intros Hb Hexp. unfold window_at. rewrite Hb. simpl.
  destruct (Z.leb_spec W (now - window_start b)); [done|lia].
Qed.






End RateLimiter.









(* ===================================================================== *)
(** * 24. Order of the checks in [cmd_generate_video]                     *)
(* ===================================================================== *)

(** C9. For a group message that passes the list check, with rate limiting
    on and the window not yet full, the command adds one to the count of
    the group before it looks at the in-flight table or at the images: the
    count is consumed also when the reply is "busy" or "image needed", and
    no task is started then. *)
Theorem rate_consumed_before_guards (cfg : config) (ev : event) (g : string)
    (W M now : Z) (task_id : string) (st : state) :
  group_id ev = Some g →
  g ≠ EmptyString →
  list_rejects cfg g = None →
  rate_limit_enabled cfg = true →
  rate_limit_window_seconds cfg = PyInt W →
  rate_limit_max_calls cfg = PyInt M →
  count (window_at g W now st) < M →
  let r := cmd_generate_video cfg ev now task_id st in
  _rate_limit_bucket (snd r) !! g =
    Some {| window_start := window_start (window_at g W now st);
            count := count (window_at g W now st) + 1 |} ∧
  (is_Some (_processing_tasks st !! sender_id ev) →
   fst r = (ReplyBusy, None)) ∧
  (_processing_tasks st !! sender_id ev = None → images ev = [] →
   fst r = (ReplyNeedImage, None)).
Proof.
  intros Hgid Hg Hlist Hon HW HM Hc. cbv zeta.
  unfold cmd_generate_video. rewrite Hgid.
  rewrite (check_accepts cfg g W M Hg Hlist Hon HW HM now st Hc).
  set (st1 := set_bucket _ _ _).
  assert (Ht : _processing_tasks st1 = _processing_tasks st).
  { unfold st1, set_bucket. simpl. apply ensure_lock_tasks. }
  assert (Hb : _rate_limit_bucket st1 !! g =
               Some {| window_start := window_start (window_at g W now st);
                       count := count (window_at g W now st) + 1 |}).
  { unfold st1, set_bucket. simpl. by rewrite lookup_insert_eq. }
  rewrite Ht. split; [|split].
  - repeat case_bool_decide; simpl; done.
  - intros Hbusy. by rewrite bool_decide_eq_true_2.
  - intros Hfree Himg. rewrite Hfree.
    rewrite bool_decide_eq_false_2 by (by intros [? ?]).
    by rewrite bool_decide_eq_true_2.
Qed.

Lemma rate_consumed_before_guards_witness :
  _rate_limit_bucket
    (snd (cmd_generate_video example_config event_without_image 100 "t1"
            initial_state)) !! "g1" =
    Some {| window_start := 100; count := 1 |} ∧
  fst (cmd_generate_video example_config event_without_image 100 "t1"
         initial_state) = (ReplyNeedImage, None).
Proof.
  destruct (rate_consumed_before_guards example_config event_without_image
              "g1" 60 2 100 "t1" initial_state) as (H1 & _ & H3).
  - reflexivity.
  - discriminate.
  - reflexivity.
  - reflexivity.
  - reflexivity.
  - reflexivity.
  - vm_compute. reflexivity.
  - split; [exact H1|]. apply H3; reflexivity.
Defined.

(* ===================================================================== *)
(** * 25. The access check fails open                                     *)
(* ===================================================================== *)

Lemma rate_limit_section_raise_bucket cfg g now st e :
  snd (rate_limit_section cfg g now st) = Raise e →
  fst (rate_limit_section cfg g now st) = ensure_lock st g.
Proof.
  unfold rate_limit_section.
  destruct (num_ge _ (rate_limit_window_seconds cfg)) as [expired|]; [|done].
  destruct (if expired then _ else _) as [ws c].
  by destruct (num_ge c (rate_limit_max_calls cfg)) as [[]|].
Qed.

Lemma check_body_raise_state cfg gid now st e :
  snd (check_body cfg gid now st) = Raise e →
  _rate_limit_bucket (fst (check_body cfg gid now st)) = _rate_limit_bucket st ∧
  _processing_tasks (fst (check_body cfg gid now st)) = _processing_tasks st.
Proof.
  unfold check_body. destruct gid as [g|]; [|done].
  case_bool_decide; [done|].
  destruct (list_rejects cfg g); [done|].
  destruct (rate_limit_enabled cfg); [|done].
  intros Hr. rewrite (rate_limit_section_raise_bucket _ _ _ _ _ Hr).
  by rewrite ensure_lock_bucket, ensure_lock_tasks.
Qed.

(** C10. When the body of the access check raises, the check answers with
    no error message: the rate window is left as it was, and the command
    goes on to its next checks instead of turning the request away. *)
Theorem access_check_fails_open (cfg : config) (ev : event) (now : Z)
    (task_id : string) (st : state) (e : pyexn) :
  snd (check_body cfg (group_id ev) now st) = Raise e →
  snd (_check_group_access cfg (group_id ev) now st) = None ∧
  _rate_limit_bucket (fst (_check_group_access cfg (group_id ev) now st)) =
    _rate_limit_bucket st ∧
  ∀ m, fst (fst (cmd_generate_video cfg ev now task_id st)) ≠ ReplyAccess m.
Proof.
  intros Hr.
  destruct (check_body_raise_state _ _ _ _ _ Hr) as [Hb Ht].
  unfold cmd_generate_video, _check_group_access.
  destruct (check_body cfg (group_id ev) now st) as [st1 r]. simpl in *.
  subst r. simpl. split; [done|]. split; [done|].
  intros m. repeat case_bool_decide; simpl; discriminate.
Qed.

Lemma access_check_fails_open_witness :
  snd (_check_group_access misconfigured (Some "g1") 100 initial_state) = None ∧
  fst (fst (cmd_generate_video misconfigured example_event 100 "t1"
              initial_state)) = ReplyAccepted.
Proof.
  destruct (access_check_fails_open misconfigured example_event 100 "t1"
              initial_state TypeError) as (H1 & _ & _).
  - reflexivity.
  - split; [exact H1|reflexivity].
Defined.

(* ===================================================================== *)
(** * 26. SingleFlightGuard                                               *)
(* ===================================================================== *)

Lemma check_group_access_tasks cfg gid now st :
  _processing_tasks (fst (_check_group_access cfg gid now st)) =
  _processing_tasks st.
Proof.
  unfold _check_group_access, check_body.
  destruct gid as [g|]; [|done].
  case_bool_decide; [done|].
  destruct (list_rejects cfg g); [done|].
  destruct (rate_limit_enabled cfg); [|done].
  unfold rate_limit_section.
  destruct (num_ge _ (rate_limit_window_seconds cfg)) as [expired|]; simpl;
    [|apply ensure_lock_tasks].
  destruct (if expired then _ else _) as [ws c].
  destruct (num_ge c (rate_limit_max_calls cfg)) as [[]|]; simpl;
    apply ensure_lock_tasks.
Qed.

(** The [finally] block: it removes the entry of its own task, and
    leaves every other entry, also one a later task stored for the same
    user. *)
Lemma finish_task_own u t st :
  _processing_tasks st !! u = Some t →
  _processing_tasks (finish_task u t st) = delete u (_processing_tasks st).
Proof.
  intros Hu. unfold finish_task. rewrite Hu.
  by rewrite bool_decide_eq_true_2.
Qed.

Lemma finish_task_stale u t st :
  _processing_tasks st !! u ≠ Some t → finish_task u t st = st.
Proof.
  intros Hu. unfold finish_task.
  destruct (_processing_tasks st !! u) as [t'|]; [|done].
  rewrite bool_decide_eq_false_2; [done|]. by intros ->.
Qed.

Lemma finish_task_twice u t st :
  finish_task u t (finish_task u t st) = finish_task u t st.
Proof.
  destruct (decide (_processing_tasks st !! u = Some t)) as [Hu|Hu].
  - apply finish_task_stale. rewrite finish_task_own by done.
    by rewrite lookup_delete_eq.
  - rewrite (finish_task_stale u t st Hu). by apply finish_task_stale.
Qed.


(* ===================================================================== *)
(** * 27. The call as a whole                                             *)
(* ===================================================================== *)

Lemma render_nonempty m : render m ≠ [].
Proof.
  destruct m; intros H; apply (f_equal (take 1)) in H;
    vm_compute in H; discriminate.
Qed.

Lemma read_line_found_nonempty json_loads acc line url :
  read_line json_loads acc line = Found url → url ≠ [].
Proof.
  unfold read_line. repeat case_match; try discriminate.
  - intros [= <-]. by destruct (_try_structured_extraction _) as [[|]|].
  - intros [= <-]. by destruct (_try_content_extraction _) as [[|]|].
Qed.

Lemma after_stream_shape acc url err :
  after_stream acc = Returned url err →
  (∃ u, url = Some u ∧ u ≠ [] ∧ err = None) ∨
  (url = None ∧ err = Some MsgNoUrl).
Proof.
  destruct (after_stream_cases acc) as [[-> _]|(u & -> & Hu)].
  - intros [= <- <-]. by right.
  - intros [= <- <-]. left. exists u. split; [done|]. split; [|done].
    intros ->. by apply try_content_extraction_valid in Hu.
Qed.

Lemma read_stream_shape json_loads lines : ∀ acc fin url err,
  read_stream json_loads acc lines fin = Returned url err →
  (∃ u, url = Some u ∧ u ≠ [] ∧ err = None) ∨
  (url = None ∧ err = Some MsgNoUrl).
Proof.
  induction lines as [|line lines IH]; intros acc fin url err; simpl.
  - destruct fin; [apply after_stream_shape|done|done].
  - destruct (read_line json_loads acc line) as [a|a|u] eqn:Hl.
    + apply IH.
    + apply after_stream_shape.
    + intros [= <- <-]. left. exists u. split; [done|]. split; [|done].
      by eapply read_line_found_nonempty.
Qed.

(** What an attempt can return: a URL that is not empty and no message,
    or no URL and one of three messages. *)
Lemma run_attempt_shape json_loads o url err :
  run_attempt json_loads o = Returned url err →
  (∃ u, url = Some u ∧ u ≠ [] ∧ err = None) ∨
  (url = None ∧
   (err = Some MsgNoUrl ∨ err = Some MsgForbidden ∨
    ∃ status snippet, err = Some (MsgHttpFailed status snippet))).
Proof.
  destruct o as [|e|status body lines fin]; simpl; [done|done|].
  destruct (status =? 403)%Z.
  { intros [= <- <-]. right. split; [done|]. right. by left. }
  destruct (status =? 200)%Z; simpl.
  - intros [H|[-> ->]]%read_stream_shape; [by left|].
    right. split; [done|]. by left.
  - destruct body; [|done|done].
    intros [= <- <-]. right. split; [done|]. right. right. by eexists _, _.
Qed.

Section Call.

Variable json_loads : pystr -> option json.
Variable cfg : config.
Variable upstream : nat -> attempt_outcome.

Local Abbreviation attempt_at i := (run_attempt json_loads (upstream i)).
Local Abbreviation loop := (retry_loop json_loads cfg upstream).

(** The loop from attempt [start] on, when the attempts left are the
    ones up to the configured number. *)
Lemma retry_loop_next todo start :
  is_failure (attempt_at start) = true →
  Z.of_nat start ≠ max_retry_attempts cfg - 1 →
  loop (S todo) start =
    (fst (loop todo (S start)),
     EvAttempt start :: EvSleep 1 :: snd (loop todo (S start))).
Proof.
  intros Hf Hne. cbn [retry_loop].
  apply Z.eqb_neq in Hne. rewrite Hne.
  destruct (attempt_at start); [done| |]; by destruct (loop todo (S start)).
Qed.

(** The loop from attempt [start] on, when the attempts left are the
    ones up to the configured number. *)
Lemma retry_loop_outcome todo : ∀ start,
  Z.of_nat start + Z.of_nat (S todo) = max_retry_attempts cfg →
  ∃ k, (start ≤ k ≤ start + todo)%nat ∧
    (∀ i, (start ≤ i < k)%nat → is_failure (attempt_at i) = true) ∧
    snd (loop (S todo) start) = failed_log start (k - start) ++ [EvAttempt k] ∧
    match attempt_at k with
    | Returned url err => fst (loop (S todo) start) = (url, err)
    | TimedOut =>
      Z.of_nat k = max_retry_attempts cfg - 1 ∧
      fst (loop (S todo) start) = (None, Some (MsgTimeout (timeout_seconds cfg)))
    | Failed e =>
      Z.of_nat k = max_retry_attempts cfg - 1 ∧
      fst (loop (S todo) start) = (None, Some (MsgException e))
    end.
Proof.
  induction todo as [|todo IH]; intros start Hmax.
  - exists start. split; [lia|]. split; [intros i Hi; lia|].
    rewrite Nat.sub_diag. cbn [retry_loop failed_log app].
    assert (Hlast : (Z.of_nat start =? max_retry_attempts cfg - 1) = true)
      by (apply Z.eqb_eq; lia).
    rewrite Hlast.
    destruct (attempt_at start); cbn [fst snd]; split_and?; try done; lia.
  - destruct (is_failure (attempt_at start)) eqn:Hf.
    + destruct (IH (S start)) as (k & Hk & Hfail & Hlog & Hres); [lia|].
      exists k. split; [lia|]. split.
      { intros i Hi. destruct (decide (i = start)) as [->|];
          [done|apply Hfail; lia]. }
      rewrite retry_loop_next by (done || lia).
      cbn [fst snd]. rewrite Hlog.
      replace (k - start)%nat with (S (k - S start)) by lia.
      split; [done|]. exact Hres.
    + exists start. split; [lia|]. split; [intros i Hi; lia|].
      rewrite Nat.sub_diag.
      destruct (attempt_at start) as [url err| |e] eqn:Ha; try discriminate.
      by rewrite (retry_loop_returned json_loads cfg upstream _ _ _ _ Ha).
Qed.

End Call.

Lemma call_result_cases (json_loads : pystr -> option json)
    (cfg : config) (upstream : nat -> attempt_outcome) :
  (∃ u, fst (_call_grok_api json_loads cfg upstream) = (Some u, None) ∧
        u ≠ []) ∨
  (∃ m, fst (_call_grok_api json_loads cfg upstream) = (None, Some m) ∧
        render m ≠ []).
Proof.
  unfold _call_grok_api. case_bool_decide as Hkey.
  { right. exists MsgNoApiKey. split; [done|apply render_nonempty]. }
  destruct (Z.to_nat (max_retry_attempts cfg)) as [|todo] eqn:Hn.
  { right. exists MsgAllRetriesFailed. split; [done|apply render_nonempty]. }
  destruct (retry_loop_outcome json_loads cfg upstream todo 0)
    as (k & _ & _ & _ & Hres); [lia|].
  destruct (run_attempt json_loads (upstream k)) as [url err| |e] eqn:Ha.
  - rewrite Hres.
    apply run_attempt_shape in Ha as [(u & -> & Hu & ->)|[-> Herr]].
    + left. by exists u.
    + right. destruct Herr as [->|[->|(s & b & ->)]];
        eexists; (split; [done|apply render_nonempty]).
  - destruct Hres as [_ ->]. right. eexists.
    split; [done|apply render_nonempty].
  - destruct Hres as [_ ->]. right. eexists.
    split; [done|apply render_nonempty].
Qed.

Lemma read_stream_url_checked json_loads lines : ∀ acc fin u err,
  read_stream json_loads acc lines fin = Returned (Some u) err →
  passes_gate u ∨ passes_structured_check u.
Proof.
  induction lines as [|line lines IH]; intros acc fin u err; simpl.
  - destruct fin; [|done|done].
    destruct (after_stream_cases acc) as [[-> _]|(v & -> & Hv)]; [done|].
    intros [= <- _]. left.
    by apply try_content_extraction_valid, is_valid_video_url_spec in Hv.
  - destruct (read_line json_loads acc line) as [a|a|v] eqn:Hl.
    + apply IH.
    + destruct (after_stream_cases a) as [[-> _]|(v & -> & Hv)]; [done|].
      intros [= <- _]. left.
      by apply try_content_extraction_valid, is_valid_video_url_spec in Hv.
    + intros [= <- _].
      apply read_line_found in Hl as [Hl|Hl]; [left|by right].
      by apply is_valid_video_url_spec.
Qed.

(** X1. The result of a call is a URL or a message, never both and never
    neither.  A URL that is returned comes with no message; it is not the
    empty text, and it passed the validation gate or the check of its
    structured field.  When there is no URL there is a message, whose
    text is not empty. *)
Theorem call_returns_url_or_message (json_loads : pystr -> option json)
    (cfg : config) (upstream : nat -> attempt_outcome) :
  let r := fst (_call_grok_api json_loads cfg upstream) in
  (∃ u, r = (Some u, None) ∧ u ≠ [] ∧
        (passes_gate u ∨ passes_structured_check u)) ∨
  (∃ m, r = (None, Some m) ∧ render m ≠ []).
Proof.
  cbv zeta.
  destruct (call_result_cases json_loads cfg upstream)
    as [(u & Hr & Hu)|Hm]; [left|by right].
  exists u. split; [done|]. split; [done|].
  revert Hr. unfold _call_grok_api. case_bool_decide as Hkey; [done|].
  destruct (Z.to_nat (max_retry_attempts cfg)) as [|todo] eqn:Hn; [done|].
  destruct (retry_loop_outcome json_loads cfg upstream todo 0)
    as (k & _ & _ & _ & Hres); [lia|].
  destruct (run_attempt json_loads (upstream k)) as [url err| |e] eqn:Ha.
  - rewrite Hres. intros [= -> ->]. revert Ha.
    destruct (upstream k) as [|e|status body lines fin]; simpl; [done|done|].
    destruct (status =? 403)%Z; [done|].
    destruct (status =? 200)%Z; simpl.
    + apply read_stream_url_checked.
    + by destruct body.
  - destruct Hres as [_ ->]. done.
  - destruct Hres as [_ ->]. done.
Qed.

(** X2. With a key and at least one attempt configured, the call makes
    the attempts 0, 1, 2, ... in turn, each failed one followed by a sleep
    of one second, and stops at the first attempt [k] that returns or is
    the last one configured.  Its result is the result of attempt [k]
    when that one returned, and the message of the failure of attempt [k]
    otherwise: the failures before it are not reported.  So the attempts
    are not more than configured, and the sleeps are one less than the
    attempts. *)
Theorem call_stops_at_first_return (json_loads : pystr -> option json)
    (cfg : config) (upstream : nat -> attempt_outcome) :
  api_key cfg ≠ [] →
  1 ≤ max_retry_attempts cfg →
  let r := _call_grok_api json_loads cfg upstream in
  ∃ k, Z.of_nat k < max_retry_attempts cfg ∧
    (∀ i, (i < k)%nat →
       is_failure (run_attempt json_loads (upstream i)) = true) ∧
    snd r = failed_log 0 k ++ [EvAttempt k] ∧
    sleeps (snd r) = k ∧
    match run_attempt json_loads (upstream k) with
    | Returned url err => fst r = (url, err)
    | TimedOut =>
      Z.of_nat k = max_retry_attempts cfg - 1 ∧
      fst r = (None, Some (MsgTimeout (timeout_seconds cfg)))
    | Failed e =>
      Z.of_nat k = max_retry_attempts cfg - 1 ∧
      fst r = (None, Some (MsgException e))
    end.
Proof.
  intros Hkey Hmax. cbv zeta. unfold _call_grok_api.
  rewrite bool_decide_eq_false_2 by done.
  destruct (Z.to_nat (max_retry_attempts cfg)) as [|todo] eqn:Hn; [lia|].
  destruct (retry_loop_outcome json_loads cfg upstream todo 0)
    as (k & Hk & Hfail & Hlog & Hres); [lia|].
  exists k. split; [lia|]. split; [intros i Hi; apply Hfail; lia|].
  rewrite Nat.sub_0_r in Hlog. split; [done|]. split; [|done].
  rewrite Hlog, sleeps_failed_log. unfold sleeps. simpl. lia.
Qed.

Lemma call_stops_at_first_return_witness :
  _call_grok_api example_loads example_config upstream_timeout_then_ok =
    ((Some (L "https://cdn.example/x.mp4"), None),
     [EvAttempt 0; EvSleep 1; EvAttempt 1]).
Proof.
  destruct (call_stops_at_first_return example_loads example_config
              upstream_timeout_then_ok) as (k & Hk & Hfail & Hlog & _ & Hres).
  - discriminate.
  - simpl. lia.
  - destruct k as [|[|k]].
    + vm_compute in Hlog. discriminate.
    + apply injective_projections; [exact Hres|exact Hlog].
    + specialize (Hfail 1%nat). vm_compute in Hfail.
      discriminate Hfail. lia.
Defined.

(** X3. The call makes no request exactly when the key is missing or the
    number of attempts configured is zero or less.  Without a key it
    answers with the message of the missing key.  With a key, the message
    that all retries failed is given exactly when no attempt is
    configured: once an attempt is made, the message is that of an
    attempt. *)
Theorem call_without_attempts (json_loads : pystr -> option json)
    (cfg : config) (upstream : nat -> attempt_outcome) :
  let r := _call_grok_api json_loads cfg upstream in
  (snd r = [] ↔ api_key cfg = [] ∨ max_retry_attempts cfg ≤ 0) ∧
  (api_key cfg = [] → fst r = (None, Some MsgNoApiKey)) ∧
  (api_key cfg ≠ [] →
   (snd (fst r) = Some MsgAllRetriesFailed ↔ max_retry_attempts cfg ≤ 0)).
Proof.
  cbv zeta. unfold _call_grok_api. case_bool_decide as Hkey.
  { cbn [fst snd]. split; [split; [by left|done]|]. split; [done|]. done. }
  destruct (Z.to_nat (max_retry_attempts cfg)) as [|todo] eqn:Hn.
  { cbn [retry_loop fst snd]. split; [split; [right; lia|done]|].
    split; [done|]. intros _. split; [lia|done]. }
  destruct (retry_loop_outcome json_loads cfg upstream todo 0)
    as (k & _ & _ & Hlog & Hres); [lia|].
  split; [|split; [done|]].
  - rewrite Hlog. split.
    + intros H. by apply app_nil in H as [_ ?].
    + intros [?|?]; [done|lia].
  - intros _. split; [|lia]. intros Hall. exfalso.
    destruct (run_attempt json_loads (upstream k)) as [url err| |e] eqn:Ha.
    + rewrite Hres in Hall. cbn [snd] in Hall. subst err.
      apply run_attempt_shape in Ha as [(u & _ & _ & ?)|[_ Herr]]; [done|].
      destruct Herr as [?|[?|(s & b & ?)]]; done.
    + destruct Hres as [_ Hres]. rewrite Hres in Hall. done.
    + destruct Hres as [_ Hres]. rewrite Hres in Hall. done.
Qed.

Lemma call_without_attempts_witness :
  snd (fst (_call_grok_api example_loads example_config upstream_timeouts))
    ≠ Some MsgAllRetriesFailed.
Proof.
  destruct (call_without_attempts example_loads example_config
              upstream_timeouts) as (_ & _ & H).
  intros Hall. apply H in Hall; [|discriminate].
  vm_compute in Hall. by apply Hall.
Defined.

(* ===================================================================== *)
(** * 28. The reader: the last pass, and frames that are no objects       *)
(* ===================================================================== *)

Lemma searched_nil : searched [].
Proof. vm_compute. reflexivity. Qed.

Section LoopEnd.

Variable json_loads : pystr -> option json.

(** A line that does not end the call leaves a text without a URL. *)
Lemma read_line_keeps_searched acc line a :
  searched acc →
  read_line json_loads acc line = Continue a ∨
  read_line json_loads acc line = Break a →
  searched a.
Proof.
  intros Hs. destruct (is_frame_line line) eqn:Hf.
  - rewrite read_line_frame by done.
    destruct (str_eqb (payload_of line) (L "[DONE]")).
    { intros [?|?]; by simplify_eq. }
    destruct (json_loads (payload_of line)) as [chunk|].
    + cbv zeta. unfold searched.
      destruct (truthy (_try_content_extraction
                          (join (append_text acc (frame_text chunk))))) eqn:Ht.
      * cbn [negb]. rewrite Ht. intros [?|?]; discriminate.
      * cbn [negb].
        destruct (truthy (_try_structured_extraction chunk));
          intros [?|?]; by simplify_eq.
    + intros [?|?]; by simplify_eq.
  - rewrite read_line_unmarked by done. intros [?|?]; by simplify_eq.
Qed.

Lemma loop_end_searched lines : ∀ acc a,
  searched acc → loop_end json_loads acc lines = Some a → searched a.
Proof.
  induction lines as [|line lines IH]; intros acc a Hs; simpl.
  - by intros [= <-].
  - destruct (read_line json_loads acc line) as [a'|a'|u] eqn:Hl.
    + apply IH. eapply read_line_keeps_searched; eauto.
    + intros [= <-]. eapply read_line_keeps_searched; eauto.
    + done.
Qed.

Lemma read_stream_loop_end lines : ∀ acc,
  match loop_end json_loads acc lines with
  | Some a => read_stream json_loads acc lines EndOfStream = after_stream a
  | None =>
    ∃ pre line post a u,
      lines = pre ++ line :: post ∧
      loop_end json_loads acc pre = Some a ∧
      read_line json_loads a line = Found u ∧
      ∀ fin, read_stream json_loads acc lines fin = Returned (Some u) None
  end.
Proof.
  induction lines as [|line lines IH]; intros acc; simpl; [done|].
  destruct (read_line json_loads acc line) as [a'|a'|u] eqn:Hl.
  - specialize (IH a'). destruct (loop_end json_loads a' lines); [done|].
    destruct IH as (pre & l & post & a & u & -> & Hpre & Hfound & Hall).
    exists (line :: pre), l, post, a, u. simpl. rewrite Hl. done.
  - done.
  - by exists [], line, lines, acc, u.
Qed.

Lemma after_stream_searched acc :
  searched acc → after_stream acc = Returned None (Some MsgNoUrl).
Proof.
  intros Hs. by destruct (after_stream_cases acc)
    as [[-> _]|(u & _ & Hu)]; [|unfold searched in Hs; rewrite Hu in Hs;
      apply try_content_extraction_valid, valid_truthy in Hu;
      rewrite Hu in Hs].
Qed.

End LoopEnd.

Lemma frame_text_not_dict chunk :
  is_dict chunk = false → frame_text chunk = None.
Proof. by destruct chunk. Qed.

Lemma try_structured_extraction_not_dict chunk :
  is_dict chunk = false → _try_structured_extraction chunk = None.
Proof.
  destruct chunk as [|b|q|s|items|fields]; try done; intros _.
  - unfold _try_structured_extraction, structured_body.
    cbn [py_in bind]. destruct (contains _ s); reflexivity.
  - unfold _try_structured_extraction, structured_body.
    cbn [py_in bind]. destruct (existsb _ items); reflexivity.
Qed.

(** X4. The last extraction pass of an attempt never finds a URL.  When
    the loop over the lines of a response ends without a return, at the
    end of the stream or at the sentinel, the text strategies find nothing
    in the text gathered, since they were run on it after the last frame
    that added to it: the attempt answers with the no-URL message.  A URL
    an attempt returns is always the one a frame gave, found while that
    frame was read, whatever the end of the stream would have been. *)
Theorem final_pass_finds_nothing (json_loads : pystr -> option json)
    (body : body_read) (lines : list pystr) :
  match loop_end json_loads [] lines with
  | Some acc =>
    searched acc ∧
    after_stream acc = Returned None (Some MsgNoUrl) ∧
    run_attempt json_loads (Response 200 body lines EndOfStream) =
      Returned None (Some MsgNoUrl)
  | None =>
    ∃ pre line post acc u,
      lines = pre ++ line :: post ∧
      loop_end json_loads [] pre = Some acc ∧
      read_line json_loads acc line = Found u ∧
      ∀ fin, run_attempt json_loads (Response 200 body lines fin) =
             Returned (Some u) None
  end.
Proof.
  pose proof (read_stream_loop_end json_loads lines []) as Hend.
  destruct (loop_end json_loads [] lines) as [acc|] eqn:Hl.
  - assert (Hs : searched acc)
      by (eapply loop_end_searched; [apply searched_nil|done]).
    split; [done|]. split; [by apply after_stream_searched|].
    cbn [run_attempt]. change (200 =? 403) with false.
    change (negb (200 =? 200)) with false. cbv iota.
    rewrite Hend. by apply after_stream_searched.
  - destruct Hend as (pre & line & post & a & u & -> & Hpre & Hfound & Hall).
    exists pre, line, post, a, u. split_and!; try done.
Qed.

(** X5. A frame whose payload decodes to a value that is no object (a
    number, a text, a list, [null]) adds no text and gives no structured
    URL, and none of the look-ups it fails stops the reading: when the
    text gathered so far holds no URL, the reader goes on to the next
    line with the same text. *)
Theorem frame_that_is_no_object (json_loads : pystr -> option json)
    (acc : list pystr) (line : pystr) (chunk : json) :
  is_frame_line line = true →
  str_eqb (payload_of line) (L "[DONE]") = false →
  json_loads (payload_of line) = Some chunk →
  is_dict chunk = false →
  frame_text chunk = None ∧
  _try_structured_extraction chunk = None ∧
  (searched acc → read_line json_loads acc line = Continue acc) ∧
  (∀ url, read_line json_loads acc line = Found url →
          _try_content_extraction (join acc) = Some url).
Proof.
  intros Hf Hd Hl Hc.
  pose proof (frame_text_not_dict chunk Hc) as Ht.
  pose proof (try_structured_extraction_not_dict chunk Hc) as Hst.
  split; [done|]. split; [done|].
  rewrite read_line_frame by done. rewrite Hd, Hl. cbv zeta.
  rewrite Ht, Hst. cbn [append_text]. split.
  - unfold searched. intros ->. reflexivity.
  - intros url.
    destruct (_try_content_extraction (join acc)) as [[|c u]|]; try done.
    cbn [truthy negb default]. by intros [= <-].
Qed.

Lemma frame_that_is_no_object_witness :
  read_line (json_loads_of [(L "42", JNum 42)]) [] (L "data: 42") =
    Continue [].
Proof.
  destruct (frame_that_is_no_object (json_loads_of [(L "42", JNum 42)]) []
              (L "data: 42") (JNum 42)) as (_ & _ & H & _).
  - reflexivity.
  - reflexivity.
  - reflexivity.
  - reflexivity.
  - apply H. vm_compute. reflexivity.
Defined.

(* ===================================================================== *)
(** * 29. Extraction from a whole response                                *)
(* ===================================================================== *)

Lemma py_in_obj key fields :
  py_in key (JObj fields) = Ok (bool_decide (is_Some (assoc key fields))).
Proof. reflexivity. Qed.

Lemma try_structured_extraction_nonempty response_data :
  _try_structured_extraction response_data ≠ Some [].
Proof.
  intros H. apply try_structured_extraction_check in H.
  destruct H as [H|[H|H]]; vm_compute in H; discriminate.
Qed.

Lemma try_content_extraction_nonempty content :
  _try_content_extraction content ≠ Some [].
Proof. intros H. by apply try_content_extraction_valid in H. Qed.

(** The body of the function on a response with a text in its place. *)
Lemma response_body_well_formed response_data content :
  has_message_content response_data content →
  response_body response_data =
    Ok (if truthy (_try_structured_extraction response_data)
        then (_try_structured_extraction response_data, None)
        else if truthy (_try_content_extraction content)
        then (_try_content_extraction content, None)
        else (None, Some ErrNoVideoUrl)).
Proof.
  intros (fields & choice & others & message & -> & Hc & Hm & Ht).
  unfold response_body. cbn [is_dict negb].
  rewrite py_in_obj, Hc.
  rewrite bool_decide_eq_true_2 by (by eexists).
  cbn [bind py_getitem]. rewrite Hc. cbn [bind py_bool].
  rewrite bool_decide_eq_false_2 by done.
  cbn [negb py_index0 bind is_dict]. rewrite py_in_obj, Hm.
  rewrite bool_decide_eq_true_2 by (by eexists).
  cbn [negb bind py_getitem]. rewrite Hm. cbn [bind is_dict].
  rewrite py_in_obj, Ht.
  rewrite bool_decide_eq_true_2 by (by eexists).
  cbn [negb bind py_getitem]. rewrite Ht. cbn [bind].
  by repeat case_match.
Qed.

(** What is not such a response gets an error. *)
Lemma response_body_cases response_data r :
  response_body response_data = Ok r →
  (∃ content, has_message_content response_data content) ∨
  (∃ e, r = (None, Some e)).
Proof.
  assert (Hbad : ∀ e : extract_error,
    Ok (None, Some e) = Ok r →
    (∃ content, has_message_content response_data content) ∨
    (∃ e, r = (None, Some e))).
  { intros e [= <-]. right. by exists e. }
  unfold response_body.
  destruct response_data as [| | | | |fields]; try apply Hbad.
  cbn [is_dict negb]. rewrite py_in_obj.
  destruct (assoc (L "choices") fields) as [choices|] eqn:Hc.
  2:{ rewrite bool_decide_eq_false_2 by (by intros [? ?]). apply Hbad. }
  rewrite bool_decide_eq_true_2 by (by eexists).
  cbn [bind py_getitem]. rewrite Hc. cbn [bind].
  destruct (py_bool choices) eqn:Hb; [|apply Hbad]. cbn [negb].
  destruct choices as [| | |s|items|fs]; try discriminate.
  { destruct s; [discriminate|apply Hbad]. }
  destruct items as [|choice others]; [discriminate|].
  cbn [py_index0 bind].
  destruct choice as [| | | | |choice]; try apply Hbad.
  cbn [is_dict]. rewrite py_in_obj.
  destruct (assoc (L "message") choice) as [message|] eqn:Hm.
  2:{ rewrite bool_decide_eq_false_2 by (by intros [? ?]). apply Hbad. }
  rewrite bool_decide_eq_true_2 by (by eexists).
  cbn [negb bind py_getitem]. rewrite Hm. cbn [bind].
  destruct message as [| | | | |message]; try apply Hbad.
  cbn [is_dict]. rewrite py_in_obj.
  destruct (assoc (L "content") message) as [content|] eqn:Ht.
  2:{ rewrite bool_decide_eq_false_2 by (by intros [? ?]). apply Hbad. }
  rewrite bool_decide_eq_true_2 by (by eexists).
  cbn [negb bind py_getitem]. rewrite Ht. cbn [bind].
  destruct content as [| | |content| |]; try apply Hbad.
  intros _. left. exists content. by exists fields, choice, others, message.
Qed.

Lemma response_body_shape response_data r :
  response_body response_data = Ok r →
  (∃ u, r = (Some u, None) ∧ u ≠ []) ∨ (∃ e, r = (None, Some e)).
Proof.
  intros H. destruct (response_body_cases _ _ H) as [[content Hw]|?]; [|by right].
  rewrite (response_body_well_formed _ _ Hw) in H.
  destruct (_try_structured_extraction response_data) as [s|] eqn:Hs.
  - destruct s as [|c s]; [by apply try_structured_extraction_nonempty in Hs|].
    cbn [truthy] in H. simplify_eq. left. by eexists.
  - cbn [truthy] in H.
    destruct (_try_content_extraction content) as [s|] eqn:Hx.
    + destruct s as [|c s]; [by apply try_content_extraction_nonempty in Hx|].
      cbn [truthy] in H. simplify_eq. left. by eexists.
    + cbn [truthy] in H. simplify_eq. right. by eexists.
Qed.

(** X6. Extraction from a whole response never raises and returns a URL
    or an error, never both and never neither; a URL that is returned is
    not the empty text.  It returns a URL only for a response object that
    has a text under [choices[0].message.content]: a response without
    one gets an error even when one of its structured fields holds a
    URL. *)
Theorem response_url_or_error (response_data : json) :
  let r := _extract_video_url_from_response response_data in
  ((∃ u, r = (Some u, None) ∧ u ≠ []) ∨ (∃ e, r = (None, Some e))) ∧
  (∀ u, fst r = Some u →
        ∃ content, has_message_content response_data content) ∧
  (∀ fields, response_data = JObj fields →
             assoc (L "choices") fields = None →
             r = (None, Some ErrNoChoices)).
Proof.
  cbv zeta. split; [|split].
  - unfold _extract_video_url_from_response.
    destruct (response_body response_data) as [r|e] eqn:Hr;
      [by eapply response_body_shape|right; by eexists].
  - unfold _extract_video_url_from_response. intros u.
    destruct (response_body response_data) as [r|e] eqn:Hr; [|discriminate].
    intros Hu.
    destruct (response_body_cases _ _ Hr) as [?|[e ->]]; [done|discriminate].
  - intros fields -> Hc.
    unfold _extract_video_url_from_response, response_body.
    cbn [is_dict negb]. rewrite py_in_obj, Hc.
    by rewrite bool_decide_eq_false_2 by (by intros [? ?]).
Qed.

(** X7. For a response object with a text under
    [choices[0].message.content], the structured fields are looked at
    first and the text after: the result is the URL of the structured
    strategy when it gives one, the URL the text strategies find in the
    content otherwise, and the error of the missing URL when neither
    gives one. *)
Theorem response_structured_then_text (response_data : json)
    (content : pystr) :
  has_message_content response_data content →
  _extract_video_url_from_response response_data =
    match _try_structured_extraction response_data with
    | Some u => (Some u, None)
    | None =>
      match _try_content_extraction content with
      | Some u => (Some u, None)
      | None => (None, Some ErrNoVideoUrl)
      end
    end.
Proof.
  intros Hw. unfold _extract_video_url_from_response.
  rewrite (response_body_well_formed _ _ Hw).
  destruct (_try_structured_extraction response_data) as [s|] eqn:Hs.
  - destruct s as [|c s]; [by apply try_structured_extraction_nonempty in Hs|].
    reflexivity.
  - cbn [truthy].
    destruct (_try_content_extraction content) as [s|] eqn:Hx; [|done].
    destruct s as [|c s]; [by apply try_content_extraction_nonempty in Hx|].
    reflexivity.
Qed.

Lemma response_structured_then_text_witness :
  _extract_video_url_from_response response_both = (Some url_a, None).
Proof.
  rewrite (response_structured_then_text response_both url_b).
  - reflexivity.
  - by eexists _, _, _, _.
Defined.

(* ===================================================================== *)
(** * 30. The access check and the other groups; unloading; edge limits   *)
(* ===================================================================== *)

Lemma ensure_lock_locks st g h :
  h ∈ _rate_limit_locks (ensure_lock st g) ↔
  h ∈ _rate_limit_locks st ∨ h = g.
Proof.
  unfold ensure_lock. destruct (decide (g ∈ _rate_limit_locks st)) as [Hg|Hg].
  - rewrite bool_decide_eq_true_2 by done. split; [by left|]. by intros [?| ->].
  - rewrite bool_decide_eq_false_2 by done. simpl.
    rewrite elem_of_union, elem_of_singleton. tauto.
Qed.

(** The critical section: what it leaves and what it may change. *)
Lemma rate_limit_section_frame cfg g now st :
  let r := rate_limit_section cfg g now st in
  (∀ h, h ≠ g →
     _rate_limit_bucket (fst r) !! h = _rate_limit_bucket st !! h) ∧
  (snd r ≠ Ok None → _rate_limit_bucket (fst r) = _rate_limit_bucket st) ∧
  (∀ h, h ∈ _rate_limit_locks (fst r) ↔ h ∈ _rate_limit_locks st ∨ h = g).
Proof.
  cbv zeta. unfold rate_limit_section.
  destruct (num_ge _ (rate_limit_window_seconds cfg)) as [expired|]; cbn [fst snd].
  2:{ split_and!; [intros; by rewrite ensure_lock_bucket
                  |intros; by rewrite ensure_lock_bucket
                  |apply ensure_lock_locks]. }
  destruct (if expired then _ else _) as [ws c].
  destruct (num_ge c (rate_limit_max_calls cfg)) as [[]|]; cbn [fst snd].
  - split_and!; [intros; by rewrite ensure_lock_bucket
                |intros; by rewrite ensure_lock_bucket
                |apply ensure_lock_locks].
  - split_and!; [| |apply ensure_lock_locks].
    + intros h Hh. unfold set_bucket. cbn [_rate_limit_bucket].
      rewrite lookup_insert_ne by done. by rewrite ensure_lock_bucket.
    + done.
  - split_and!; [intros; by rewrite ensure_lock_bucket
                |intros; by rewrite ensure_lock_bucket
                |apply ensure_lock_locks].
Qed.

(** X8. An access check changes at most the window of the group it is
    made for: the windows of the other groups and the in-flight table
    are left as they are, a check that turns the request away (by the
    list or by the limit) changes no window at all, and the only lock it
    may add is the lock of its group; no lock is removed. *)
Theorem access_check_touches_own_group (cfg : config)
    (gid : option string) (now : Z) (st : state) :
  let r := _check_group_access cfg gid now st in
  _processing_tasks (fst r) = _processing_tasks st ∧
  (∀ h, gid ≠ Some h →
     _rate_limit_bucket (fst r) !! h = _rate_limit_bucket st !! h) ∧
  (snd r ≠ None → _rate_limit_bucket (fst r) = _rate_limit_bucket st) ∧
  (∀ h, h ∈ _rate_limit_locks st → h ∈ _rate_limit_locks (fst r)) ∧
  (∀ h, h ∈ _rate_limit_locks (fst r) →
        h ∈ _rate_limit_locks st ∨ gid = Some h).
Proof.
  cbv zeta. split; [apply check_group_access_tasks|].
  unfold _check_group_access, check_body.
  destruct gid as [g|]; [|by split_and!; intros; auto].
  case_bool_decide; [by split_and!; intros; auto|].
  destruct (list_rejects cfg g); [by split_and!; intros; auto|].
  destruct (rate_limit_enabled cfg); [|by split_and!; intros; auto].
  destruct (rate_limit_section_frame cfg g now st) as (H1 & H2 & H3).
  destruct (rate_limit_section cfg g now st) as [st' r]. cbn [fst snd] in *.
  split_and!.
  - intros h Hh. apply H1. congruence.
  - intros Hr. apply H2. intros ->. by apply Hr.
  - intros h Hh. apply H3. by left.
  - intros h Hh. apply H3 in Hh as [?| ->]; [by left|by right].
Qed.

Lemma ensure_lock_terminate st g :
  _rate_limit_bucket (ensure_lock (terminate st) g) = _rate_limit_bucket st ∧
  _processing_tasks (ensure_lock (terminate st) g) = _processing_tasks st.
Proof. by rewrite ensure_lock_bucket, ensure_lock_tasks. Qed.

Lemma rate_limit_section_terminate cfg g now st :
  let r := rate_limit_section cfg g now st in
  let r' := rate_limit_section cfg g now (terminate st) in
  snd r' = snd r ∧
  _rate_limit_bucket (fst r') = _rate_limit_bucket (fst r) ∧
  _processing_tasks (fst r') = _processing_tasks (fst r).
Proof.
  cbv zeta. unfold rate_limit_section.
  rewrite !ensure_lock_bucket. cbn [terminate _rate_limit_bucket].
  destruct (num_ge _ (rate_limit_window_seconds cfg)) as [expired|];
    cbn [fst snd].
  2:{ by rewrite !ensure_lock_bucket, !ensure_lock_tasks. }
  destruct (if expired then _ else _) as [ws c].
  destruct (num_ge c (rate_limit_max_calls cfg)) as [[]|]; cbn [fst snd];
    unfold set_bucket; cbn [_rate_limit_bucket _processing_tasks];
    by rewrite !ensure_lock_bucket, !ensure_lock_tasks.
Qed.

(** X9. Unloading the plugin drops the locks and nothing else: the
    windows with their counts and the in-flight table stay.  An access
    check or a command that comes after it gets the answer it would have
    got without it, and leaves the same windows and the same table of
    tasks. *)
Theorem terminate_keeps_windows (cfg : config) (ev : event) (now : Z)
    (task_id : string) (st : state) :
  _rate_limit_locks (terminate st) = ∅ ∧
  _rate_limit_bucket (terminate st) = _rate_limit_bucket st ∧
  _processing_tasks (terminate st) = _processing_tasks st ∧
  (let r := _check_group_access cfg (group_id ev) now st in
   let r' := _check_group_access cfg (group_id ev) now (terminate st) in
   snd r' = snd r ∧
   _rate_limit_bucket (fst r') = _rate_limit_bucket (fst r) ∧
   _processing_tasks (fst r') = _processing_tasks (fst r)) ∧
  (let r := cmd_generate_video cfg ev now task_id st in
   let r' := cmd_generate_video cfg ev now task_id (terminate st) in
   fst r' = fst r ∧
   _rate_limit_bucket (snd r') = _rate_limit_bucket (snd r) ∧
   _processing_tasks (snd r') = _processing_tasks (snd r)).
Proof.
  split; [done|]. split; [done|]. split; [done|].
  assert (Hchk :
    let r := _check_group_access cfg (group_id ev) now st in
    let r' := _check_group_access cfg (group_id ev) now (terminate st) in
    snd r' = snd r ∧
    _rate_limit_bucket (fst r') = _rate_limit_bucket (fst r) ∧
    _processing_tasks (fst r') = _processing_tasks (fst r)).
  { cbv zeta. unfold _check_group_access, check_body.
    destruct (group_id ev) as [g|]; [|done].
    case_bool_decide; [done|].
    destruct (list_rejects cfg g); [done|].
    destruct (rate_limit_enabled cfg); [|done].
    destruct (rate_limit_section_terminate cfg g now st) as (H1 & H2 & H3).
    destruct (rate_limit_section cfg g now st) as [s r].
    destruct (rate_limit_section cfg g now (terminate st)) as [s' r'].
    cbn [fst snd] in *. by rewrite H1. }
  split; [exact Hchk|].
  cbv zeta in *. unfold cmd_generate_video.
  destruct Hchk as (H1 & H2 & H3).
  destruct (_check_group_access cfg (group_id ev) now st) as [s r].
  destruct (_check_group_access cfg (group_id ev) now (terminate st))
    as [s' r'].
  cbn [fst snd] in *. subst r'.
  destruct r as [m|]; [done|]. rewrite H3.
  repeat case_bool_decide; cbn [fst snd]; done.
Qed.

(** X10. A limit of zero calls, or less, does not switch the limit off: it
    turns every request of the group away.  For a group that has no
    window stored, every check at any time is answered with the message
    of the limit, and no window is ever stored for it. *)
Theorem limit_of_zero_rejects_all (cfg : config) (g : string) (W M : Z)
    (times : list Z) (st : state) :
  g ≠ EmptyString →
  list_rejects cfg g = None →
  rate_limit_enabled cfg = true →
  rate_limit_window_seconds cfg = PyInt W →
  rate_limit_max_calls cfg = PyInt M →
  M ≤ 0 →
  _rate_limit_bucket st !! g = None →
  fst (check_seq cfg g times st) =
    replicate (length times) (Some (MsgRateLimited (PyInt M) (PyInt W))) ∧
  _rate_limit_bucket (snd (check_seq cfg g times st)) !! g = None.
Proof.
  intros Hg Hlist Hon HW HM Hzero. revert st.
  induction times as [|t ts IH]; intros st Hnone; [done|].
  cbn [check_seq length replicate].
  assert (Hcount : count (window_at g W t st) = 0).
  { unfold window_at. rewrite Hnone. cbn [default window_start].
    by destruct (W <=? t - t). }
  rewrite (check_rejects cfg g W M Hg Hlist Hon HW HM) by lia.
  assert (Hnone' : _rate_limit_bucket (ensure_lock st g) !! g = None)
    by (by rewrite ensure_lock_bucket).
  specialize (IH (ensure_lock st g) Hnone').
  destruct (check_seq cfg g ts (ensure_lock st g)) as [rs st2].
  cbn [fst snd] in *. by destruct IH as [-> ->].
Qed.

Lemma limit_of_zero_rejects_all_witness :
  fst (check_seq
         {| api_key := L "key"; timeout_seconds := 180;
            max_retry_attempts := 3; group_control_mode := L "off";
            group_list := []; rate_limit_enabled := true;
            rate_limit_window_seconds := PyInt 60;
            rate_limit_max_calls := PyInt 0 |}
         "g1" [100; 500] initial_state) =
    [Some (MsgRateLimited (PyInt 0) (PyInt 60));
     Some (MsgRateLimited (PyInt 0) (PyInt 60))].
Proof.
  eapply (proj1 (limit_of_zero_rejects_all _ "g1" 60 0 [100; 500]
                   initial_state _ _ _ _ _ _ _)).
  Unshelve.
  - discriminate.
  - reflexivity.
  - reflexivity.
  - reflexivity.
  - reflexivity.
  - lia.
  - reflexivity.
Defined.

(** X11. A window of zero seconds, or less, switches the limit off when at
    least one call is allowed: with a clock that does not go back, every
    check starts a window of its own, so every check passes, and the
    count stored is one. *)
Theorem window_of_zero_never_limits (cfg : config) (g : string) (W M : Z)
    (from : Z) (times : list Z) (st : state) :
  g ≠ EmptyString →
  list_rejects cfg g = None →
  rate_limit_enabled cfg = true →
  rate_limit_window_seconds cfg = PyInt W →
  rate_limit_max_calls cfg = PyInt M →
  W ≤ 0 →
  1 ≤ M →
  (∀ b, _rate_limit_bucket st !! g = Some b → window_start b ≤ from) →
  clock_from from times →
  fst (check_seq cfg g times st) = replicate (length times) None ∧
  (∀ b, _rate_limit_bucket (snd (check_seq cfg g times st)) !! g = Some b →
        times ≠ [] → count b = 1).
Proof.
  intros Hg Hlist Hon HW HM Hzero Hone. revert st from.
  induction times as [|t ts IH]; intros st from Hst Hclock; [done|].
  destruct Hclock as [Hfrom Hclock].
  cbn [check_seq length replicate].
  assert (Hcur : window_at g W t st = {| window_start := t; count := 0 |}).
  { unfold window_at.
    destruct (_rate_limit_bucket st !! g) as [b|] eqn:Hb; cbn [default id].
    - specialize (Hst b eq_refl).
      destruct (Z.leb_spec W (t - window_start b)); [done|lia].
    - cbn [window_start]. destruct (Z.leb_spec W (t - t)); [done|lia]. }
  rewrite (check_accepts cfg g W M Hg Hlist Hon HW HM)
    by (rewrite Hcur; cbn [count]; lia).
  rewrite Hcur. cbn [window_start count].
  set (st1 := set_bucket _ _ _).
  assert (Hb1 : _rate_limit_bucket st1 !! g =
                Some {| window_start := t; count := 1 |}).
  { unfold st1, set_bucket. cbn [_rate_limit_bucket].
    by rewrite lookup_insert_eq. }
  assert (Hst1 : ∀ b, _rate_limit_bucket st1 !! g = Some b →
                      window_start b ≤ t).
  { intros b Hb. rewrite Hb1 in Hb. by simplify_eq. }
  specialize (IH st1 t Hst1 Hclock).
  destruct (check_seq cfg g ts st1) as [rs st2] eqn:Hseq.
  cbn [fst snd] in *.
  destruct IH as [-> IH].
  split; [done|]. intros b Hb _.
  destruct ts as [|t' ts'].
  - cbn [check_seq] in Hseq. assert (st2 = st1) as -> by congruence.
    rewrite Hb1 in Hb. by injection Hb as <-.
  - by apply IH.
Qed.

Lemma window_of_zero_never_limits_witness :
  fst (check_seq
         {| api_key := L "key"; timeout_seconds := 180;
            max_retry_attempts := 3; group_control_mode := L "off";
            group_list := []; rate_limit_enabled := true;
            rate_limit_window_seconds := PyInt 0;
            rate_limit_max_calls := PyInt 1 |}
         "g1" [100; 100; 101] initial_state) = [None; None; None].
Proof.
  eapply (proj1 (window_of_zero_never_limits _ "g1" 0 1 100 [100; 100; 101]
                   initial_state _ _ _ _ _ _ _ _ _)).
  Unshelve.
  - discriminate.
  - reflexivity.
  - reflexivity.
  - reflexivity.
  - reflexivity.
  - lia.
  - lia.
  - intros b Hb. discriminate Hb.
  - simpl. lia.
Defined.

(* ===================================================================== *)
(** * 31. The background task                                             *)
(* ===================================================================== *)

Lemma render_core_nonempty e : render_core e ≠ [].
Proof.
  destruct e as [| |m|]; try (by vm_compute). apply render_nonempty.
Qed.

Lemma download_video_grows d fs :
  fs ⊆ snd (_download_video d fs).
Proof. destruct d as [p|[p|]]; simpl; set_solver. Qed.

Section TaskProperties.

Variable json_loads : pystr -> option json.
Variable cfg : config.
Variable dc : delivery_config.
Variable env : task_env.

Local Abbreviation core := (_generate_video_core json_loads cfg dc env).
Local Abbreviation api_result :=
  (fst (_call_grok_api json_loads cfg (env_upstream env))).

(** The three ways [_generate_video_core] ends. *)
Lemma generate_video_core_cases fs :
  (∃ t e, core fs = (Raised t e, fs) ∧
     _extract_images_from_message (env_media env) (env_message env)
       = Raised t e) ∨
  (∃ err, core fs = (Done (None, None, Some err), fs) ∧ err ≠ CoreNoUrl) ∨
  (∃ u path fs',
     core fs = (Done (Some u, path, None), fs') ∧
     u ≠ [] ∧ api_result = (Some u, None) ∧ fs ⊆ fs' ∧
     (save_video_enabled dc = false → path = None ∧ fs' = fs) ∧
     (save_video_enabled dc = true →
      (path, fs') = _download_video (env_download env) fs)).
Proof.
  unfold _generate_video_core.
  destruct (enabled dc); cbn [negb].
  2:{ right. left. by exists CoreDisabled. }
  destruct (_extract_images_from_message _ _) as [images|t e].
  2:{ left. by exists t, e. }
  destruct (truthy (head images)); cbn [negb].
  2:{ right. left. by exists CoreNeedImage. }
  destruct (call_result_cases json_loads cfg (env_upstream env))
    as [(u & Hr & Hu)|(m & Hr & Hm)]; rewrite Hr.
  - cbn [option_map truthy]. destruct u as [|c u]; [done|].
    cbn [truthy negb]. right. right.
    destruct (save_video_enabled dc) eqn:Hsave.
    + destruct (_download_video (env_download env) fs) as [p fs'] eqn:Hd.
      exists (c :: u), p, fs'. split_and!; try done.
      pose proof (download_video_grows (env_download env) fs) as Hg.
      by rewrite Hd in Hg.
    + exists (c :: u), None, fs. by split_and!.
  - cbn [option_map]. destruct (render m) as [|c r] eqn:Hrender; [done|].
    cbn [truthy]. right. left. by exists (CoreApi m).
Qed.


Lemma cleanup_video_file_saved path fs :
  (truthy path = true → save_video_enabled dc = true) →
  (if truthy path then _cleanup_video_file dc env path fs else fs) = fs.
Proof.
  intros Hp. destruct (truthy path) eqn:Ht; [|done].
  unfold _cleanup_video_file. rewrite Ht, (Hp eq_refl). done.
Qed.

(** In the task the component is made by [Video.fromURL]: the URL is
    there, so neither the branch of the local file nor the error of the
    missing URL is reached. *)
Lemma create_video_component_url path u :
  u ≠ [] →
  _create_video_component dc env path (Some u) =
    match env_from_url env u with
    | Done _ => Done (FromURL u)
    | Raised t e => Raised t e
    end.
Proof. intros Hu. by destruct u. Qed.

(** The sending of the video with its handlers, when the URL is there. *)
Lemma deliver_or_report_url path u fs sent :
  u ≠ [] →
  (truthy path = true → save_video_enabled dc = true) →
  ∃ body,
    deliver_or_report dc env path (Some u) fs sent =
      (env_send env (length sent + (length body - 1)), fs, sent ++ body) ∧
    (1 ≤ length body ≤ 3)%nat ∧
    Forall (delivery_message env u) body ∧
    (env_send env (length sent) = Done tt → length body = 1%nat).
Proof.
  intros Hu Hpath.
  pose proof (cleanup_video_file_saved path fs Hpath) as Hclean.
  assert (Hstill : ∀ v, delivery_message env v SayStillSending)
    by (intros v; right; by left).
  unfold deliver_or_report, deliver.
  rewrite (create_video_component_url path u Hu).
  destruct (env_from_url env u) as [[]|t0 e0] eqn:Hf.
  - assert (Hvideo : delivery_message env u (SayVideo (FromURL u)))
      by (by left).
    unfold send. rewrite !length_app. cbn [length].
    destruct (env_send env (length sent)) as [[]|[] e1] eqn:H1.
    + exists [SayVideo (FromURL u)]. rewrite Hclean. cbn [length].
      rewrite Nat.add_0_r, H1.
      split_and!; [done|lia|lia|by constructor|done].
    + destruct (env_send env (length sent + 1)) as [[]|t2 e2] eqn:H2.
      * exists [SayVideo (FromURL u); SayStillSending].
        rewrite Hclean. cbn [length Nat.sub].
        rewrite H2, <- app_assoc.
        split_and!; [done|lia|lia|by repeat constructor|done].
      * rewrite !length_app. cbn [length].
        replace (length sent + 1 + 1)%nat with (length sent + 2)%nat by lia.
        destruct (contains (L "WebSocket API call timeout") e2).
        -- exists [SayVideo (FromURL u); SayStillSending; SayStillSending].
           cbn [length Nat.sub]. rewrite <- !app_assoc. cbn [app].
           split_and!; [done|lia|lia|by repeat constructor|done].
        -- exists [SayVideo (FromURL u); SayStillSending; SaySendFailed e2].
           cbn [length Nat.sub]. rewrite <- !app_assoc. cbn [app].
           split_and!; [done|lia|lia| |done].
           constructor; [done|]. constructor; [done|]. constructor; [|done].
           right. right. exists e2. split; [done|]. left.
           by exists (length sent + 1)%nat, t2.
    + rewrite !length_app. cbn [length].
      destruct (contains (L "WebSocket API call timeout") e1).
      * exists [SayVideo (FromURL u); SayStillSending].
        cbn [length Nat.sub]. rewrite <- !app_assoc. cbn [app].
        split_and!; [done|lia|lia|by repeat constructor|done].
      * exists [SayVideo (FromURL u); SaySendFailed e1].
        cbn [length Nat.sub]. rewrite <- !app_assoc. cbn [app].
        split_and!; [done|lia|lia| |done].
        constructor; [done|]. constructor; [|done].
        right. right. exists e1. split; [done|]. left.
        by exists (length sent), false.
  - unfold send.
    destruct (contains (L "WebSocket API call timeout") e0).
    + exists [SayStillSending]. cbn [length Nat.sub].
      rewrite Nat.add_0_r. split_and!; [done|lia|lia|by constructor|done].
    + exists [SaySendFailed e0]. cbn [length Nat.sub].
      rewrite Nat.add_0_r. split_and!; [done|lia|lia| |done].
      constructor; [|done]. right. right. exists e0. split; [done|].
      right. by exists t0.
Qed.

(** The body of the task, by the three ways its core ends. *)
Lemma task_body_cases fs :
  (∃ t e, task_body json_loads cfg dc env fs = (Raised t e, fs, [])) ∨
  (∃ err, task_body json_loads cfg dc env fs =
            (env_send env 0, fs, [SayError err]) ∧ err ≠ CoreNoUrl) ∨
  (∃ u path fs' body,
     task_body json_loads cfg dc env fs =
       (env_send env (length body - 1), fs', body) ∧
     api_result = (Some u, None) ∧ u ≠ [] ∧
     fs ⊆ fs' ∧ (save_video_enabled dc = false → fs' = fs) ∧
     (path, fs') =
       (if save_video_enabled dc
        then _download_video (env_download env) fs else (None, fs)) ∧
     (1 ≤ length body ≤ 3)%nat ∧ Forall (delivery_message env u) body ∧
     (env_send env 0 = Done tt → length body = 1%nat)).
Proof.
  unfold task_body.
  destruct (generate_video_core_cases fs)
    as [(t & e & -> & _)|[(err & -> & Herr)|
        (u & path & fs' & -> & Hu & Hapi & Hfs & Hoff & Hon)]].
  - left. by exists t, e.
  - right. left. exists err. split; [|done].
    destruct (render_core err) as [|c r] eqn:Hr;
      [by apply render_core_nonempty in Hr|].
    reflexivity.
  - right. right.
    assert (Htruthy : truthy (Some u) || truthy path = true)
      by (destruct u; [done|reflexivity]).
    rewrite Htruthy.
    destruct (deliver_or_report_url path u fs' [] Hu)
      as (body & Hd & Hlen & Hmsgs & Hfirst).
    { intros Hp. destruct (save_video_enabled dc) eqn:Hs; [done|].
      destruct (Hoff eq_refl) as [-> _]. done. }
    exists u, path, fs', body. rewrite Hd. cbn [length app Nat.add].
    split_and!; try done; try lia.
    + intros Hs. by destruct (Hoff Hs).
    + destruct (save_video_enabled dc); [by apply Hon|].
      by destruct (Hoff eq_refl) as [-> ->].
Qed.

(** The task around its body: the report of an exception, and the
    [finally] block. *)
Lemma async_generate_video_cases user_id task_id fs st :
  ∃ r fs' body,
    task_body json_loads cfg dc env fs = (r, fs', body) ∧
    _async_generate_video json_loads cfg dc env user_id task_id fs st =
      (match r with
       | Done _ => None
       | Raised _ _ =>
         match env_send env (length body) with
         | Done _ => None
         | Raised t e => Some (t, e)
         end
       end,
       fs',
       match r with
       | Done _ => body
       | Raised _ e => body ++ [SayProblem e]
       end,
       finish_task user_id task_id st).
Proof.
  unfold _async_generate_video.
  destruct (task_body json_loads cfg dc env fs) as [[r fs'] body].
  exists r, fs', body. split; [done|].
  destruct r as [[]|t e]; [done|]. unfold send.
  by destruct (env_send env (length body)) as [[]|t' e'].
Qed.

End TaskProperties.

Lemma finish_task_released user_id task_id st :
  _processing_tasks (finish_task user_id task_id st) !! user_id ≠ Some task_id.
Proof.
  unfold finish_task.
  destruct (_processing_tasks st !! user_id) as [t|] eqn:Ht.
  - case_bool_decide as Heq.
    + unfold set_tasks. cbn [_processing_tasks]. by rewrite lookup_delete_eq.
    + rewrite Ht. congruence.
  - by rewrite Ht.
Qed.

(** X12. [_generate_video_core] returns an error, with no URL and no path
    and the files untouched, or a URL that is not empty, with no error:
    the URL the call to the API returned.  The error of an answer without
    a URL is never the one it returns, since the call gives a URL
    whenever it gives no message.  A path comes only when saving is
    switched on.  It raises only when the image of the message could not
    be read, and no file is removed on any path. *)
Theorem core_returns_url_or_error (json_loads : pystr -> option json)
    (cfg : config) (dc : delivery_config) (env : task_env)
    (fs : gset pystr) :
  match _generate_video_core json_loads cfg dc env fs with
  | (Done (url, path, err), fs') =>
    fs ⊆ fs' ∧
    match err with
    | Some e => url = None ∧ path = None ∧ fs' = fs ∧ e ≠ CoreNoUrl
    | None =>
      ∃ u, url = Some u ∧ u ≠ [] ∧
        fst (_call_grok_api json_loads cfg (env_upstream env)) = (Some u, None) ∧
        (is_Some path → save_video_enabled dc = true)
    end
  | (Raised t e, fs') =>
    fs' = fs ∧
    _extract_images_from_message (env_media env) (env_message env) = Raised t e
  end.
Proof.
  destruct (generate_video_core_cases json_loads cfg dc env fs)
    as [(t & e & -> & Himg)|[(err & -> & Herr)|
        (u & path & fs' & -> & Hu & Hapi & Hfs & Hoff & Hon)]].
  - done.
  - done.
  - split; [done|]. exists u. split_and!; try done.
    intros [p ->]. destruct (save_video_enabled dc); [done|].
    by destruct (Hoff eq_refl).
Qed.

(** X13. The video is always sent by its URL.  Whenever the task makes
    the component of the video, it makes it from the URL the call to the
    API returned, with [Video.fromURL], also when the video was saved to a
    file: the branch of the local file and the error of the missing URL
    are never reached.  So a video the task sends is the component of
    that URL; the message that the generation failed is never sent; and
    an error of the sending that is reported is the text of an exception
    that a sending or [Video.fromURL] raised. *)
Theorem video_is_sent_by_url (json_loads : pystr -> option json)
    (cfg : config) (dc : delivery_config) (env : task_env)
    (user_id task_id : string) (fs : gset pystr) (st : state) :
  let sent :=
    snd (fst (_async_generate_video json_loads cfg dc env
                user_id task_id fs st)) in
  let api := fst (_call_grok_api json_loads cfg (env_upstream env)) in
  (∀ url path fs',
     _generate_video_core json_loads cfg dc env fs =
       (Done (url, path, None), fs') →
     ∃ u, url = Some u ∧ api = (Some u, None) ∧
       _create_video_component dc env path url =
         match env_from_url env u with
         | Done _ => Done (FromURL u)
         | Raised t e => Raised t e
         end) ∧
  (SayGenerationFailed ∉ sent) ∧
  (∀ c, SayVideo c ∈ sent →
     ∃ u, c = FromURL u ∧ api = (Some u, None) ∧
       env_from_url env u = Done tt) ∧
  (∀ e, SaySendFailed e ∈ sent →
     (∃ n t, env_send env n = Raised t e) ∨
     (∃ u t, api = (Some u, None) ∧ env_from_url env u = Raised t e)).
Proof.
  cbv zeta. split.
  { intros url path fs' Hcore.
    destruct (generate_video_core_cases json_loads cfg dc env fs)
      as [(t & e & Hc & _)|[(err & Hc & _)|
          (u & path' & fs2 & Hc & Hu & Hapi & _)]];
      rewrite Hc in Hcore; simplify_eq.
    exists u. split; [done|]. split; [done|].
    by apply create_video_component_url. }
  destruct (async_generate_video_cases json_loads cfg dc env
              user_id task_id fs st) as (r & fs' & body & Hbody & ->).
  cbn [fst snd].
  assert (Hin : ∀ m, (∀ e, m ≠ SayProblem e) →
    m ∈ match r with Done _ => body | Raised _ e => body ++ [SayProblem e] end →
    m ∈ body).
  { intros m Hm. destruct r as [[]|t e]; [done|].
    rewrite elem_of_app, list_elem_of_singleton. intros [?| ->]; [done|].
    by destruct (Hm e). }
  destruct (task_body_cases json_loads cfg dc env fs)
    as [(t & e & Hb)|[(err & Hb & Herr)|
        (u & path & fs2 & msgs & Hb & Hapi & Hu & _ & _ & _ & _ & Hall & _)]];
    rewrite Hb in Hbody; simplify_eq.
  - split_and!.
    + intros H%Hin; [|done]. by apply elem_of_nil in H.
    + intros c H%Hin; [|done]. by apply elem_of_nil in H.
    + intros e' H%Hin; [|done]. by apply elem_of_nil in H.
  - split_and!.
    + intros H%Hin; [|done]. by apply list_elem_of_singleton in H.
    + intros c H%Hin; [|done]. by apply list_elem_of_singleton in H.
    + intros e' H%Hin; [|done]. by apply list_elem_of_singleton in H.
  - rewrite Forall_forall in Hall. split_and!.
    + intros H%Hin; [|done].
      destruct (Hall _ H) as [[? _]|[?|(? & ? & _)]]; done.
    + intros c H%Hin; [|done].
      destruct (Hall _ H) as [[[= ->] Hf]|[?|(? & ? & _)]]; [|done|done].
      by exists u.
    + intros e' H%Hin; [|done].
      destruct (Hall _ H) as [[? _]|[?|(e2 & [= ->] & Ho)]]; [done|done|].
      destruct Ho as [?|(t & Hv)]; [by left|].
      right. by exists u, t.
Qed.

(** X14. The task never removes a file.  The files after the task are
    the files before it, with at most the file of the download added,
    and they are the files before it when saving is switched off: the
    clean-up is reached only with a path, a path comes only when saving
    is on, and then the clean-up keeps the file. *)
Theorem task_never_removes_a_file (json_loads : pystr -> option json)
    (cfg : config) (dc : delivery_config) (env : task_env)
    (user_id task_id : string) (fs : gset pystr) (st : state) :
  let fs' :=
    snd (fst (fst (_async_generate_video json_loads cfg dc env
                     user_id task_id fs st))) in
  fs ⊆ fs' ∧
  (save_video_enabled dc = false → fs' = fs) ∧
  (fs' = fs ∨ fs' = snd (_download_video (env_download env) fs)).
Proof.
  cbv zeta.
  destruct (async_generate_video_cases json_loads cfg dc env
              user_id task_id fs st) as (r & fs' & body & Hbody & ->).
  cbn [fst snd].
  destruct (task_body_cases json_loads cfg dc env fs)
    as [(t & e & Hb)|[(err & Hb & Herr)|
        (u & path & fs2 & msgs & Hb & _ & _ & Hsub & Hoff & Hdl & _)]];
    rewrite Hb in Hbody; simplify_eq.
  - split_and!; [done|done|by left].
  - split_and!; [done|done|by left].
  - split_and!; [done|done|].
    destruct (save_video_enabled dc); [right|left].
    + by rewrite <- Hdl.
    + by apply Hoff.
Qed.

(** X15. The task always reports: it hands at least one message to
    [event.send], and four at most.  When every sending succeeds it
    sends one message, the error or the video, and no exception leaves
    it.  An exception leaves the task only when its last message, the
    report of a problem, could not be sent, and it is the exception of
    that sending.  On every path the [finally] block has run: the
    in-flight table no longer holds the task under its user. *)
Theorem task_always_reports (json_loads : pystr -> option json)
    (cfg : config) (dc : delivery_config) (env : task_env)
    (user_id task_id : string) (fs : gset pystr) (st : state) :
  let r := _async_generate_video json_loads cfg dc env user_id task_id fs st in
  let escaped := fst (fst (fst r)) in
  let sent := snd (fst r) in
  (1 ≤ length sent ≤ 4)%nat ∧
  ((∀ n, env_send env n = Done tt) → escaped = None ∧ length sent = 1%nat) ∧
  (∀ t e, escaped = Some (t, e) →
     env_send env (length sent - 1) = Raised t e ∧
     ∃ e', last sent = Some (SayProblem e')) ∧
  snd r = finish_task user_id task_id st ∧
  _processing_tasks (snd r) !! user_id ≠ Some task_id.
Proof.
  cbv zeta.
  destruct (async_generate_video_cases json_loads cfg dc env
              user_id task_id fs st) as (r & fs' & body & Hbody & ->).
  cbn [fst snd].
  split; [|split; [|split; [|split; [done|apply finish_task_released]]]].
  - destruct (task_body_cases json_loads cfg dc env fs)
      as [(t & e & Hb)|[(err & Hb & Herr)|
          (u & path & fs2 & msgs & Hb & _ & _ & _ & _ & _ & Hlen & _)]];
      rewrite Hb in Hbody; simplify_eq.
    + simpl. lia.
    + destruct (env_send env 0); rewrite ?length_app; simpl; lia.
    + destruct (env_send env _); rewrite ?length_app; simpl; lia.
  - intros Hok.
    destruct (task_body_cases json_loads cfg dc env fs)
      as [(t & e & Hb)|[(err & Hb & Herr)|
          (u & path & fs2 & msgs & Hb & _ & _ & _ & _ & _ & _ & _ & Hfirst)]];
      rewrite Hb in Hbody; simplify_eq.
    + by rewrite Hok.
    + by rewrite Hok.
    + rewrite Hok. by rewrite (Hfirst (Hok _)).
  - intros t e. destruct r as [[]|t0 e0]; [done|].
    rewrite length_app. cbn [length].
    replace (length body + 1 - 1)%nat with (length body) by lia.
    destruct (env_send env (length body)) as [[]|t1 e1]; [done|].
    intros [= -> ->]. split; [done|]. exists e0. by rewrite last_snoc.
Qed.

(* ===================================================================== *)
(** * 32. The image of a message                                          *)
(* ===================================================================== *)

Lemma find_in_replies_app env pre rest :
  Forall (no_quoted_image env) pre →
  find_in_replies env (pre ++ rest) = find_in_replies env rest.
Proof.
  induction 1 as [|seg pre Hseg _ IH]; [done|].
  destruct seg as [url file|[|s chain]|]; cbn [app find_in_replies]; try done.
  cbn [no_quoted_image] in Hseg. by rewrite Hseg.
Qed.

Lemma data_urls_shape image_bytes :
  (length (data_urls image_bytes) ≤ 1)%nat ∧
  Forall (λ x, startswith (L "data:image/png;base64,") x = true)
         (data_urls image_bytes).
Proof.
  destruct image_bytes as [[|c bs]|]; cbn [data_urls length];
    (split; [lia|]); try done.
  constructor; [|done]. apply startswith_app.
Qed.

(** X16. The image of a quoted message comes first.  When the chain of a
    quoted message holds an image that loads, and no quoted message
    before it does, the result is made of that image alone: the images of
    the message itself, before or after the quotation, are not used, and
    not even loaded.  If the bytes loaded are empty, the result is empty,
    and the images of the message itself are not tried either. *)
Theorem quoted_image_comes_first (env : media_env)
    (pre chain post : list segment) (b : list N) :
  Forall (no_quoted_image env) pre →
  _find env chain = Done (Some b) →
  _extract_images_from_message env (Some (pre ++ Reply chain :: post)) =
    Done (data_urls (Some b)) ∧
  (b ≠ [] →
   _extract_images_from_message env (Some (pre ++ Reply chain :: post)) =
     Done [L "data:image/png;base64," ++ b64encode b]) ∧
  (b = [] →
   _extract_images_from_message env (Some (pre ++ Reply chain :: post)) =
     Done []).
Proof.
  intros Hpre Hfind.
  assert (Hres :
    _extract_images_from_message env (Some (pre ++ Reply chain :: post)) =
      Done (data_urls (Some b))).
  { unfold _extract_images_from_message.
    rewrite find_in_replies_app by done.
    destruct chain as [|s chain]; [discriminate Hfind|].
    cbn [find_in_replies]. by rewrite Hfind. }
  split; [done|]. rewrite Hres. split.
  - intros Hb. by destruct b.
  - by intros ->.
Qed.

Lemma quoted_image_comes_first_witness :
  _extract_images_from_message example_media
    (Some [Image (Some (L "http://img.example/own.png")) None;
           Reply [Image (Some (L "http://img.example/quoted.png")) None];
           Image None (Some (L "base64://AAAA"))]) =
    Done [L "data:image/png;base64,iVBORw=="].
Proof.
  destruct (quoted_image_comes_first example_media
              [Image (Some (L "http://img.example/own.png")) None]
              [Image (Some (L "http://img.example/quoted.png")) None]
              [Image None (Some (L "base64://AAAA"))]
              [137; 80; 78; 71]%N) as (_ & H & _).
  - repeat constructor.
  - reflexivity.
  - etransitivity; [apply H; discriminate|reflexivity].
Defined.

(** X17. At most one image comes out of a message, however many it
    holds, and it is a data URL of the PNG type; an event without a
    message gives none. *)
Theorem at_most_one_image (env : media_env)
    (message_obj : option (list segment)) :
  match _extract_images_from_message env message_obj with
  | Done out =>
    (length out ≤ 1)%nat ∧
    Forall (λ x, startswith (L "data:image/png;base64,") x = true) out ∧
    (message_obj = None → out = [])
  | Raised _ _ => message_obj ≠ None
  end.
Proof.
  unfold _extract_images_from_message.
  destruct message_obj as [message|]; [|split_and!; [simpl; lia|done|done]].
  destruct (find_in_replies env message) as [[b|]|t e]; [| |done].
  - destruct (data_urls_shape (Some b)). by split_and!.
  - destruct (_find env message) as [image_bytes|t e]; [|done].
    destruct (data_urls_shape image_bytes). by split_and!.
Qed.

(** X18. An image that cannot be read is reported, not swallowed.  When
    reading the image of the message raises (a [base64://] source the
    decoder refuses, a path the file system refuses), the task sends one
    message, the report of a problem with the text of that exception;
    the API is not called, so no file is written, and the entry of the
    task is released. *)
Theorem unreadable_image_is_reported (json_loads : pystr -> option json)
    (cfg : config) (dc : delivery_config) (env : task_env)
    (user_id task_id : string) (fs : gset pystr) (st : state)
    (t : bool) (e : pystr) :
  enabled dc = true →
  _extract_images_from_message (env_media env) (env_message env) = Raised t e →
  _async_generate_video json_loads cfg dc env user_id task_id fs st =
    (match env_send env 0 with
     | Done _ => None
     | Raised t' e' => Some (t', e')
     end,
     fs, [SayProblem e], finish_task user_id task_id st).
Proof.
  intros Hon Himg.
  unfold _async_generate_video, task_body, _generate_video_core.
  rewrite Hon, Himg. cbn [negb]. unfold send. cbn [length app].
  by destruct (env_send env 0) as [[]|t' e'].
Qed.

Lemma unreadable_image_is_reported_witness :
  _async_generate_video example_loads example_config example_delivery
    example_task_env "u1" "t1" ∅ initial_state =
    (None, ∅, [SayProblem (L "Incorrect padding")], initial_state).
Proof.
  rewrite (unreadable_image_is_reported example_loads example_config
             example_delivery example_task_env "u1" "t1" ∅ initial_state
             false (L "Incorrect padding")).
  - reflexivity.
  - reflexivity.
  - reflexivity.
Defined.

(** A run of the task from end to end: the picture of the quoted message
    is loaded, the second attempt of the call gives the URL, the video is
    saved and sent by its URL, the sending times out and the notice is
    sent; the file stays and the entry of the task is released. *)
Example task_run_with_slow_sending :
  _async_generate_video example_loads example_config example_delivery
    example_quoting_env "u1" "t1" ∅
    (set_tasks initial_state {[ "u1" := "t1" ]}) =
    (None, {[ L "/data/videos/grok_video_1.mp4" ]},
     [SayVideo (FromURL (L "https://cdn.example/x.mp4")); SayStillSending],
     set_tasks initial_state (delete "u1" {[ "u1" := "t1" ]})).
Proof. vm_compute. reflexivity. Qed.

(* ===================================================================== *)
(** * 33. The bare-URL strategy and the gate                              *)
(* ===================================================================== *)

Lemma den_opt_inv r m g g' :
  den (ROpt r) m g g' → den r m g g' ∨ (m = [] ∧ g' = g).
Proof. inversion 1; subst; [by left|by right]. Qed.

Lemma den_takes_only P r m g g' :
  takes_only P r → den r m g g' → Forall P m.
Proof.
  intros Hr Hd. induction Hd; cbn [takes_only] in Hr; try done.
  - constructor; [by apply Hr|done].
  - destruct Hr. apply Forall_app. split; auto.
  - apply Forall_forall. intros x Hx. apply Hr.
    rewrite forallb_forall in H. apply H. by apply list_elem_of_In.
  - constructor; [by apply Hr|].
    apply Forall_forall. intros x Hx. apply Hr.
    rewrite forallb_forall in H0. apply H0. by apply list_elem_of_In.
  - auto.
  - auto.
Qed.

(** What a literal character of a pattern matches under
    [re.IGNORECASE]. *)
Lemma lit_ci_cases c x :
  lit_ci c x = true →
  x = c ∨ ((65 ≤ x ≤ 90)%N ∧ c = (x + 32)%N) ∨
  (x = 304%N ∧ c = 105%N) ∨ (x = 8490%N ∧ c = 107%N) ∨
  (x = 305%N ∧ c = 105%N) ∨ (x = 383%N ∧ c = 115%N).
Proof.
  unfold lit_ci, sre_lower. intros H.
  apply orb_true_iff in H as [H|H];
    [apply orb_true_iff in H as [H|H]|].
  - destruct (N.leb_spec 65 x), (N.leb_spec x 90); cbn [andb] in H;
      [apply N.eqb_eq in H; right; left; lia| | |];
      (destruct (N.eqb_spec x 304);
       [apply N.eqb_eq in H; lia|];
       destruct (N.eqb_spec x 8490);
       [apply N.eqb_eq in H; lia|];
       apply N.eqb_eq in H; by left).
  - apply andb_true_iff in H as [Hc%N.eqb_eq H%N.eqb_eq]. lia.
  - apply andb_true_iff in H as [Hc%N.eqb_eq H%N.eqb_eq]. lia.
Qed.

Lemma invalid_chars_cases x :
  x ∈ invalid_chars →
  x = 60%N ∨ x = 62%N ∨ x = 34%N ∨ x = 39%N ∨ x = 10%N ∨ x = 13%N ∨ x = 9%N.
Proof.
  unfold invalid_chars. rewrite !elem_of_cons, elem_of_nil. tauto.
Qed.

Lemma lit_ci_clean c x :
  c ∉ invalid_chars → lit_ci c x = true → x ∉ invalid_chars.
Proof.
  intros Hc Hx Hin. apply invalid_chars_cases in Hin.
  apply lit_ci_cases in Hx as [->|Hx]; [apply Hc|].
  - unfold invalid_chars. rewrite !elem_of_cons. tauto.
  - lia.
Qed.

Lemma rlit_takes_only P w :
  Forall (λ c, ∀ x, lit_ci c x = true → P x) w → takes_only P (rlit w).
Proof. induction 1; cbn [rlit takes_only]; [done|by split]. Qed.

Lemma rlit_clean w :
  Forall (λ c, c ∉ invalid_chars) w →
  takes_only (λ x, x ∉ invalid_chars) (rlit w).
Proof.
  intros Hw. apply rlit_takes_only.
  eapply Forall_impl; [done|]. intros c Hc x. by apply lit_ci_clean.
Qed.

Lemma bare_url_class_clean x :
  none_of_s bare_url_stop x = true → x ∉ invalid_chars.
Proof.
  intros H Hin. apply invalid_chars_cases in Hin.
  destruct Hin as [->|[->|[->|[->|[->|[->| ->]]]]]]; vm_compute in H;
    discriminate.
Qed.

Lemma literal_clean (w : pystr) :
  forallb (λ c, negb (char_in c invalid_chars)) w = true →
  Forall (λ c, c ∉ invalid_chars) w.
Proof.
  rewrite forallb_forall, Forall_forall. intros H c Hc Hin.
  specialize (H c (proj1 (list_elem_of_In _ _) Hc)).
  apply negb_true_iff in H.
  apply char_in_spec in Hin. congruence.
Qed.

Lemma pat_direct_clean : takes_only (λ x, x ∉ invalid_chars) pat_direct.
Proof.
  unfold pat_direct. cbn [takes_only rseq].
  split_and!; try done;
    try (apply rlit_clean, literal_clean; vm_compute; reflexivity);
    apply bare_url_class_clean.
Qed.

Lemma ci_word_length w m : ci_word w m → length m = length w.
Proof. intros H. symmetry. by eapply Forall2_length. Qed.

Lemma ci_word_ext ext : ci_word (L ".mp4") ext → lower ext = L ".mp4".
Proof.
  change (L ".mp4") with [46; 109; 112; 52]%N. intros H.
  inversion H as [|? x1 ? r1 H1 T1]; subst.
  inversion T1 as [|? x2 ? r2 H2 T2]; subst.
  inversion T2 as [|? x3 ? r3 H3 T3]; subst.
  inversion T3 as [|? x4 ? r4 H4 T4]; subst.
  inversion T4; subst.
  apply lit_ci_cases in H1, H2, H3, H4.
  assert (x1 = 46%N) as -> by lia.
  assert (x4 = 52%N) as -> by lia.
  assert (x2 = 109 ∨ x2 = 77)%N as [-> | ->] by lia;
    assert (x3 = 112 ∨ x3 = 80)%N as [-> | ->] by lia; reflexivity.
Qed.

(** What the bare-URL pattern matches: the whole match is the group, it
    is twelve characters long at least, it holds the extension in some
    letter case, and none of the characters the gate refuses. *)
Lemma den_direct m g :
  den pat_direct m None g →
  g = Some m ∧ (12 ≤ length m)%nat ∧
  contains (L ".mp4") (lower m) = true ∧
  Forall (λ x, x ∉ invalid_chars) m.
Proof.
  intros Hd. split; [|split; [|split]].
  - by apply den_group_inv in Hd as [-> _].
  - unfold pat_direct in Hd. apply den_group_inv in Hd as [_ [g1 H]].
    cbn [rseq] in H.
    apply den_seq_inv in H as (a & m1 & h1 & -> & [Ha ->]%den_rlit & H).
    apply den_seq_inv in H as (b & m2 & h2 & -> & _ & H).
    apply den_seq_inv in H as (c & m3 & h3 & -> & [Hc _]%den_rlit & H).
    apply den_seq_inv in H as (host & m4 & h4 & -> & (Hne & _ & _)%den_plus_inv & H).
    apply den_seq_inv in H as (ext & m5 & h5 & -> & [Hext _]%den_rlit & H).
    apply ci_word_length in Ha, Hc, Hext.
    rewrite !length_app, Ha, Hc, Hext.
    destruct host; [done|]. vm_compute length. simpl. lia.
  - unfold pat_direct in Hd. apply den_group_inv in Hd as [_ [g1 H]].
    cbn [rseq] in H.
    apply den_seq_inv in H as (a & m1 & h1 & -> & _ & H).
    apply den_seq_inv in H as (b & m2 & h2 & -> & _ & H).
    apply den_seq_inv in H as (c & m3 & h3 & -> & _ & H).
    apply den_seq_inv in H as (host & m4 & h4 & -> & _ & H).
    apply den_seq_inv in H as (ext & m5 & h5 & -> & [Hext _]%den_rlit & H).
    rewrite !app_assoc. rewrite <- (app_assoc _ ext m5).
    unfold lower. rewrite !map_app. fold (lower ext).
    rewrite (ci_word_ext ext Hext). apply contains_app.
  - eapply den_takes_only; [apply pat_direct_clean|done].
Qed.

Lemma re_findall_from_in r s : ∀ skip u,
  u ∈ re_findall_from r s skip →
  ∃ s' rest g, match_at r s' = Some (rest, g) ∧ u = default [] g.
Proof.
  induction s as [|c s IH]; intros skip u; cbn [re_findall_from].
  - destruct skip; [|by intros ?%elem_of_nil].
    destruct (match_at r []) as [[rest g]|] eqn:Hm; [|by intros ?%elem_of_nil].
    intros ->%list_elem_of_singleton. by exists [], rest, g.
  - destruct skip as [|n]; [|apply IH].
    destruct (match_at r (c :: s)) as [[rest g]|] eqn:Hm; [|apply IH].
    intros [->|Hu]%elem_of_cons; [|by eapply IH].
    by exists (c :: s), rest, g.
Qed.

Lemma find_ext {A} (f g : A → bool) l :
  (∀ x, x ∈ l → f x = g x) → find f l = find g l.
Proof.
  induction l as [|a l IH]; intros H; [done|]. cbn [find].
  rewrite (H a) by (by left). rewrite IH; [done|].
  intros x Hx. apply H. by right.
Qed.

(** X19. Of the URLs the bare-URL pattern finds, the gate turns away
    exactly those whose scheme is not written in lower case: every match
    of the pattern is long enough, holds the extension and none of the
    refused characters, so the gate comes down to its test of the scheme.
    The strategy returns the first match that starts with [http://] or
    [https://] as written. *)
Theorem direct_url_gate_is_the_scheme (content : pystr) :
  (∀ url, url ∈ re_findall pat_direct content →
     (12 ≤ length url)%nat ∧
     contains (L ".mp4") (lower url) = true ∧
     (∀ c, c ∈ invalid_chars → c ∉ url) ∧
     _is_valid_video_url url = has_scheme url) ∧
  _extract_direct_url content =
    find has_scheme (re_findall pat_direct content).
Proof.
  assert (Hall : ∀ url, url ∈ re_findall pat_direct content →
     (12 ≤ length url)%nat ∧
     contains (L ".mp4") (lower url) = true ∧
     (∀ c, c ∈ invalid_chars → c ∉ url) ∧
     _is_valid_video_url url = has_scheme url).
  { intros url (s' & rest & g & Hm & ->)%re_findall_from_in.
    apply match_at_sound in Hm as (m & _ & Hd).
    apply den_direct in Hd as (-> & Hlen & Hext & Hclean).
    cbn [default id]. rewrite Forall_forall in Hclean.
    assert (Hc : ∀ c, c ∈ invalid_chars → c ∉ m).
    { intros c Hc Hin. by apply (Hclean c). }
    split_and!; try done.
    destruct (has_scheme m) eqn:Hs.
    - apply is_valid_video_url_spec. unfold passes_gate, has_scheme in *.
      split_and!; [lia| |done|done].
      by apply orb_true_iff in Hs.
    - destruct (_is_valid_video_url m) eqn:Hv; [|done].
      apply is_valid_video_url_spec in Hv as (_ & Hv & _).
      apply orb_true_iff in Hv. unfold has_scheme in Hs. congruence. }
  split; [done|].
  unfold _extract_direct_url. apply find_ext. intros x Hx. by apply Hall.
Qed.

(** Two URLs in a text, the first with its scheme in capitals: the
    pattern finds both, the strategy returns the second. *)
Example direct_url_skips_capital_scheme :
  re_findall pat_direct (L "HTTP://X.EXAMPLE/A.MP4 http://x.example/b.mp4") =
    [L "HTTP://X.EXAMPLE/A.MP4"; L "http://x.example/b.mp4"] ∧
  _extract_direct_url (L "HTTP://X.EXAMPLE/A.MP4 http://x.example/b.mp4") =
    Some (L "http://x.example/b.mp4").
Proof. split; vm_compute; reflexivity. Qed.

(* ===================================================================== *)
(** * 34. SingleFlightGuard under requests that overlap                   *)
(* ===================================================================== *)

(** The command run without interruption is its three parts in a row. *)
Lemma cmd_generate_video_uninterrupted cfg ev now task_id st :
  cmd_generate_video cfg ev now task_id st =
    match cmd_checks cfg ev now st with
    | (st1, Some r) => (r, None, st1)
    | (st1, None) =>
      match cmd_after_images (sender_id ev) task_id (Done (images ev)) st1 with
      | (st2, Yielded r, started) =>
        (r, (if snd (cmd_after_yield Resumed) then started else None), st2)
      | (st2, _, _) => (ReplyNeedImage, None, st2)
      end
    end.
Proof.
  unfold cmd_generate_video, cmd_checks.
  destruct (_check_group_access cfg (group_id ev) now st) as [st1 [m|]];
    [done|].
  case_bool_decide; [done|].
  unfold cmd_after_images. by destruct (images ev).
Qed.

(** A command that finds an entry of its user when it tests the table is
    answered, by the access check or with "busy": its handler does not go
    on to the images, and the table stays as it is. *)
Lemma cmd_checks_busy cfg ev now st :
  is_Some (_processing_tasks st !! sender_id ev) →
  _processing_tasks (fst (cmd_checks cfg ev now st)) = _processing_tasks st ∧
  (snd (cmd_checks cfg ev now st) = Some ReplyBusy ∨
   ∃ m, snd (cmd_checks cfg ev now st) = Some (ReplyAccess m)).
Proof.
  intros Hbusy. unfold cmd_checks.
  pose proof (check_group_access_tasks cfg (group_id ev) now st) as Ht.
  destruct (_check_group_access cfg (group_id ev) now st) as [st1 [m|]];
    cbn [fst snd] in *.
  - split; [done|]. right. by exists m.
  - rewrite Ht. rewrite bool_decide_eq_true_2 by done. cbn [fst snd].
    split; [done|by left].
Qed.

(** The end of a task: the tables after it are the tables after its
    [finally] block, which removes the entry of the task when it is the
    one stored and changes nothing otherwise. *)
Lemma task_end_releases_own_entry json_loads cfg dc env u t fs st :
  let st' := snd (_async_generate_video json_loads cfg dc env u t fs st) in
  (_processing_tasks st !! u = Some t →
   _processing_tasks st' = delete u (_processing_tasks st)) ∧
  (_processing_tasks st !! u ≠ Some t → st' = st).
Proof.
  cbv zeta.
  destruct (async_generate_video_cases json_loads cfg dc env u t fs st)
    as (r & fs' & body & _ & ->).
  cbn [snd]. split; [apply finish_task_own|apply finish_task_stale].
Qed.

(** C5, the code at the failing input.  Two commands of the user [u1],
    each with an image.  The second arrives while the first waits for its
    image (line 655): the first has not stored its entry yet (line 664),
    so the test of the table (line 650) lets the second through as well.
    Both are answered "accepted", both tasks are created, and two
    generations of one user run at the same time, the table holding the
    entry of the later one.  When the same two commands come in turn, the
    second one is answered "busy" and one task runs.  At the end of the
    first task its [finally] block leaves the entry of the second, and
    the end of the second removes it. *)
Theorem overlapping_requests_both_start :
  let go := moves example_loads example_config example_delivery
              initial_world in
  outputs (go overlapping_requests) =
    [("u1", Yielded ReplyAccepted); ("u1", Yielded ReplyAccepted)] ∧
  in_flight (go overlapping_requests) = [("u1", "t1"); ("u1", "t2")] ∧
  _processing_tasks (tables (go overlapping_requests)) = {[ "u1" := "t2" ]} ∧
  outputs (go requests_in_turn) =
    [("u1", Yielded ReplyAccepted); ("u1", Yielded ReplyBusy)] ∧
  in_flight (go requests_in_turn) = [("u1", "t1")] ∧
  _processing_tasks
    (tables (go (overlapping_requests ++
                 [TaskEnds "u1" "t1" example_task_env ∅]))) =
    {[ "u1" := "t2" ]} ∧
  _processing_tasks
    (tables (go (overlapping_requests ++
                 [TaskEnds "u1" "t1" example_task_env ∅;
                  TaskEnds "u1" "t2" example_task_env ∅]))) = ∅.
Proof. cbv zeta. split_and!; vm_compute; reflexivity. Qed.
